(** * RedCross: Doppler cross-correlation and Kp-Vsys mapping

    A shallow embedding of [redcross/cross_correlation.py] (classes [CCF] and
    [KpV]) and of [redcross/align.py] (class [Align]).

    Numbers.  The arrays of the program hold float64 values.  They are
    modelled by exact rationals ([Qc]); rounding, overflow and signed zeros
    are not modelled.  [nan] is modelled where the program tests for it or
    its outcome depends on it: as [None] in a wavelength axis and in the
    frames that [Align.clip] works on, and by the test [snr_has_nan] in the
    peak search.  A division by zero, which gives nan or an infinity in
    numpy, has the value 0 on the exact numbers: the statements that depend
    on a quotient exclude a zero divisor by hypothesis.  The number of
    values of an [np.arange] grid is computed on the exact numbers; in
    float64 the rounded quotient can give one value more.  Python
    exceptions are results of type [result].

    Arrays are lists, 2-D arrays lists of rows.  A boolean mask is as long
    as the axis it indexes (numpy raises otherwise).

    Library functions of numpy and scipy are modelled by what they compute
    ([np_mean], [np_median], [interp1d], ...).  The square root and the
    cubic B-spline are parameters of the development, as is the [crop]
    method of the template class, whose module is outside the two files. *)

From Stdlib Require Import QArith Qcanon Qround.
From Stdlib Require Qcabs.
From stdpp Require Import base numbers list sorting gmap strings.

Local Open Scope Qc_scope.

Abbreviation Qcabs := Qcabs.Qcabs.

(** ** Python results *)

Inductive exn :=
  | ValueError
  | TypeError
  | IndexError
  | AttributeError
  | UnboundLocalError
  | DegenerateInputError.   (* of the specification; no code raises it *)

Inductive result (A : Type) :=
  | Ok (a : A)
  | Raise (e : exn).
Arguments Ok {A} a.
Arguments Raise {A} e.

Global Instance exn_eq_dec : EqDecision exn.
Proof. solve_decision. Defined.

Global Instance result_eq_dec `{EqDecision A} : EqDecision (result A).
Proof. solve_decision. Defined.

Global Instance result_ret : MRet result := @Ok.

Global Instance result_bind : MBind result := λ A B f m,
  match m with
  | Ok a => f a
  | Raise e => Raise e
  end.

Global Instance result_fmap : FMap result := λ A B f m,
  match m with
  | Ok a => Ok (f a)
  | Raise e => Raise e
  end.

(** [[f(x) for x in l]] where [f] may raise: the first exception wins. *)
Fixpoint for_each {A B} (f : A → result B) (l : list A) : result (list B) :=
  match l with
  | [] => Ok []
  | x :: l' => y ← f x; ys ← for_each f l'; Ok (y :: ys)
  end.

(** [a[i]] on a Python sequence. *)
Definition getitem {A} (l : list A) (i : nat) : result A :=
  match l !! i with
  | Some x => Ok x
  | None => Raise IndexError
  end.

(** ** numpy and scipy on exact numbers *)

Abbreviation matrix := (list (list Qc)).

Definition qz (z : Z) : Qc := Qc_of_Z z.
Definition qn (n : nat) : Qc := Qc_of_Z (Z.of_nat n).
(** The decimal literal [n / 10^k]. *)
Definition dec (n : Z) (k : nat) : Qc := qz n / qz (10 ^ Z.of_nat k).

Definition Qc_ltb (x y : Qc) : bool := bool_decide (x < y).
Definition Qc_leb (x y : Qc) : bool := bool_decide (x ≤ y).
Definition Qc_eqb (x y : Qc) : bool := bool_decide (x = y).

Definition isnan (x : option Qc) : bool :=
  match x with
  | None => true
  | Some _ => false
  end.

(** [a[mask]] for a boolean mask over the axis of [a]. *)
Fixpoint select {A} (mask : list bool) (a : list A) : list A :=
  match mask, a with
  | b :: mask', x :: a' => if b then x :: select mask' a' else select mask' a'
  | _, _ => []
  end.

(** [a[mask] = v]. *)
Fixpoint assign {A} (mask : list bool) (v : A) (a : list A) : list A :=
  match mask, a with
  | b :: mask', x :: a' => (if b then v else x) :: assign mask' v a'
  | _, _ => a
  end.

Definition np_sum (a : list Qc) : Qc := foldr Qcplus 0 a.

Definition np_mean (a : list Qc) : Qc := np_sum a / qn (length a).

(** [np.var]: the mean of the squared deviations from the mean. *)
Definition np_var (a : list Qc) : Qc :=
  let m := np_mean a in np_mean (map (λ x, (x - m) * (x - m)) a).

(** [np.median]: the middle of the sorted values, or the mean of the two
    middle ones.  On an empty array numpy gives [nan]; the value here is 0. *)
Definition np_median (a : list Qc) : Qc :=
  let s := merge_sort Qcle a in
  let n := length a in
  if Nat.even n
  then (default 0 (s !! (n / 2 - 1)%nat) + default 0 (s !! (n / 2)%nat)) / 2
  else default 0 (s !! (n / 2)%nat).

Definition Qc_min (x y : Qc) : Qc := if Qc_leb x y then x else y.
Definition Qc_max (x y : Qc) : Qc := if Qc_leb x y then y else x.

(** [np.min] and [np.max] raise [ValueError] on an empty array. *)
Definition np_min (a : list Qc) : result Qc :=
  match a with
  | [] => Raise ValueError
  | x :: a' => Ok (foldr Qc_min x a')
  end.

Definition np_max (a : list Qc) : result Qc :=
  match a with
  | [] => Raise ValueError
  | x :: a' => Ok (foldr Qc_max x a')
  end.

(** [np.diff]. *)
Fixpoint np_diff (a : list Qc) : list Qc :=
  match a with
  | x :: ((y :: _) as a') => (y - x) :: np_diff a'
  | _ => []
  end.

(** [np.arange(start, stop, step)] on floats: [ceil((stop - start) / step)]
    values [start + i * step].  With a zero float step the length is not
    finite and numpy raises [ValueError].  The quotient is taken on the
    exact numbers: where the float64 quotient is rounded up across an
    integer, numpy returns one value more. *)
Definition np_arange (start stop step : Qc) : result (list Qc) :=
  if Qc_eqb step 0 then Raise ValueError
  else
    let n := Z.to_nat (Qceiling ((stop - start) / step)) in
    Ok (map (λ i, start + qn i * step) (seq 0 n)).

Definition np_dot1 (f g : list Qc) : Qc := np_sum (zip_with Qcmult f g).

(** [np.dot(a, g.T)] for two 2-D arrays with rows of the same length. *)
Definition np_dot_T (a g : matrix) : matrix :=
  map (λ fi, map (λ gk, np_dot1 fi gk) g) a.

(** The columns of a 2-D array with [n] columns (its axis 0 slices). *)
Definition columns (n : nat) (m : matrix) : matrix :=
  map (λ j, map (λ row, default 0 (row !! j)) m) (seq 0 n).

(** [scipy.interpolate.interp1d(x, y)] with its defaults: linear,
    [assume_sorted=False] and [bounds_error=True].

    The constructor puts the knots in increasing order of [x]
    ([np.argsort(x, kind="mergesort")], a stable sort: knots with equal [x]
    keep their order). *)
Fixpoint insert_knot (x y : Qc) (k : list (Qc * Qc)) : list (Qc * Qc) :=
  match k with
  | [] => [(x, y)]
  | (x', y') :: k' =>
      if Qc_leb x x' then (x, y) :: k else (x', y') :: insert_knot x y k'
  end.

Fixpoint sort_knots (xs ys : list Qc) : list (Qc * Qc) :=
  match xs, ys with
  | x :: xs', y :: ys' => insert_knot x y (sort_knots xs' ys')
  | _, _ => []
  end.

(** The piece used for [x_new] is the one whose upper knot is the first
    knot not below [x_new] ([searchsorted], clipped to 1), and the value is
    [slope * (x_new - x_lo) + y_lo]. *)
Fixpoint linear_piece (x_lo y_lo : Qc) (xs ys : list Qc) (x_new : Qc) : Qc :=
  match xs, ys with
  | x_hi :: xs', y_hi :: ys' =>
      if Qc_leb x_new x_hi
      then (y_hi - y_lo) / (x_hi - x_lo) * (x_new - x_lo) + y_lo
      else linear_piece x_hi y_hi xs' ys' x_new
  | _, _ => y_lo
  end.

(** A call of the interpolant: [x_new] below the least or above the greatest
    knot is a [ValueError], as are arrays of different lengths or without
    an entry. *)
Definition interp1d (xs ys : list Qc) (x_new : Qc) : result Qc :=
  if negb (bool_decide (length xs = length ys)) then Raise ValueError
  else
    match sort_knots xs ys with
    | (x0, y0) :: k =>
        if Qc_ltb x_new x0 || Qc_ltb (List.last (map fst k) x0) x_new
        then Raise ValueError
        else Ok (linear_piece x0 y0 (map fst k) (map snd k) x_new)
    | [] => Raise ValueError
    end.

(** [np.sum(ms, axis=0)] for a non-empty list of 2-D arrays: they must have
    one shape, and are added element by element. *)
Definition madd (a b : matrix) : matrix := zip_with (zip_with Qcplus) a b.

Definition np_sum_axis0 (ms : list matrix) : result matrix :=
  match ms with
  | [] => Raise ValueError
  | m0 :: _ =>
      if forallb (λ m, bool_decide (map length m = map length m0)) ms
      then Ok (foldr madd (map (map (λ _, 0)) m0) ms)
      else Raise ValueError
  end.

(** [a.argmin()] and [a.argmax()]: the first index of the least (greatest)
    entry; [ValueError] on an empty array.  [arg_from i best_i best a] scans
    [a], whose first entry has index [i], with the best entry so far. *)
Fixpoint argmin_from (i best_i : nat) (best : Qc) (a : list Qc) : nat :=
  match a with
  | [] => best_i
  | x :: a' =>
      if Qc_ltb x best then argmin_from (S i) i x a'
      else argmin_from (S i) best_i best a'
  end.

Definition np_argmin (a : list Qc) : result nat :=
  match a with
  | [] => Raise ValueError
  | x :: a' => Ok (argmin_from 1 0 x a')
  end.

Fixpoint argmax_from (i best_i : nat) (best : Qc) (a : list Qc) : nat :=
  match a with
  | [] => best_i
  | x :: a' =>
      if Qc_ltb best x then argmax_from (S i) i x a'
      else argmax_from (S i) best_i best a'
  end.

Definition np_argmax (a : list Qc) : result nat :=
  match a with
  | [] => Raise ValueError
  | x :: a' => Ok (argmax_from 1 0 x a')
  end.

(** [a[edge:-edge]] for [edge >= 0]: with [edge = 0] the stop index [-0] is
    0 and the slice is empty. *)
Definition py_trim {A} (edge : nat) (a : list A) : list A :=
  match edge with
  | O => []
  | S _ => take (length a - edge - edge) (drop edge a)
  end.

(** The constructor [interp1d(x, y, ...)] accepts arrays of one length with
    at least one entry. *)
Definition interp1d_check (xs ys : list Qc) : result () :=
  match xs with
  | [] => Raise ValueError
  | _ :: _ =>
      if bool_decide (length xs = length ys) then Ok () else Raise ValueError
  end.

(** [interp1d(x, y, bounds_error=False, fill_value=fill)(x_new)], once the
    constructor has accepted [x] and [y]. *)
Definition interp1d_fill (xs ys : list Qc) (fill x_new : Qc) : Qc :=
  match sort_knots xs ys with
  | (x0, y0) :: k =>
      if Qc_ltb x_new x0 || Qc_ltb (List.last (map fst k) x0) x_new then fill
      else linear_piece x0 y0 (map fst k) (map snd k) x_new
  | [] => fill
  end.

(** [scipy.interpolate.splrep(x, y)] with its default degree 3 raises
    [TypeError] ("m > k must hold") unless there are more than 3 points;
    [splev] then evaluates the fitted curve [bspline x y] anywhere. *)
Definition splrep (bspline : list Qc → list Qc → Qc → Qc)
    (x y : list Qc) : result (Qc → Qc) :=
  if bool_decide (length x ≤ 3)%nat then Raise TypeError
  else Ok (bspline x y).

(** ** Data: single-order datacube and template *)

Module Datacube.
Record t := mk {
  wlt : list (option Qc);     (* wavelength axis, [None] is nan *)
  flux : matrix;              (* nObs x nPix *)
  flux_err : matrix           (* nObs x nPix *)
}.
End Datacube.

Module Template.
Record t := mk {
  wlt : list Qc;
  flux : list Qc
}.

#[global] Instance eq_dec : EqDecision t.
Proof. solve_decision. Defined.
End Template.

(** Modelled from the spec: the method [crop(wmin, wmax, eps)] of the
    template class, which is defined outside the two source files.  The
    template is cut to the covered wavelength range widened on both edges by
    the fraction [eps] of that range. *)
Definition crop_margin (temp : Template.t) (wmin wmax eps : Qc) : Template.t :=
  let lo := wmin - eps * (wmax - wmin) in
  let hi := wmax + eps * (wmax - wmin) in
  let keep := map (λ w, Qc_leb lo w && Qc_leb w hi) (Template.wlt temp) in
  Template.mk (select keep (Template.wlt temp)) (select keep (Template.flux temp)).

(** ** class CCF *)

Module CCF.

Definition c : Qc := qz 299800.  (* km/s *)

Record t := mk {
  rv : list Qc;
  dRV : Qc;
  template : Template.t;
  flux : matrix;
  window : Qc;
  n_jobs : nat;
  spline : bool;
  frame : option string
}.

(** [CCF.__init__(rv, template, flux)]. *)
Definition init (rv : list Qc) (template : Template.t) (flux : matrix) : t :=
  {| rv := rv;
     dRV := np_mean (np_diff rv);
     template := template;
     flux := flux;
     window := 0;
     n_jobs := 6;
     spline := false;
     frame := None |}.

(** What [f / noise2] divides by: a scalar, or one value per pixel
    (broadcast over the frames). *)
Inductive weights :=
  | Scalar (w : Qc)
  | PerPixel (w : list Qc).

Definition divide (f : matrix) (noise2 : weights) : matrix :=
  match noise2 with
  | Scalar w => map (map (λ x, x / w)) f
  | PerPixel w => map (λ row, zip_with Qcdiv row w) f
  end.

Section cross_correlation.
Variable crop : Template.t → Qc → Qc → Qc → Template.t.
Variable bspline : list Qc → list Qc → Qc → Qc.

(** [nans = np.isnan(dco.wlt)]. *)
Definition nans (dco : Datacube.t) : list bool :=
  map isnan (Datacube.wlt dco).

(** [wave, flux = dco.wlt[~nans], dco.flux[:,~nans]]. *)
Definition usable_wave (dco : Datacube.t) : list Qc :=
  omap id (select (map negb (nans dco)) (Datacube.wlt dco)).

Definition usable_flux (dco : Datacube.t) : matrix :=
  map (select (map negb (nans dco))) (Datacube.flux dco).

(** [f = flux - np.mean(flux)]: [np.mean] without an axis is the mean of
    all the entries of the 2-D array. *)
Definition centered_flux (dco : Datacube.t) : matrix :=
  let flux := usable_flux dco in
  let m := np_mean (concat flux) in
  map (map (λ x, x - m)) flux.

(** [temp = self.template.copy().crop(np.min(wave), np.max(wave), eps=0.40)]
    followed by [temp.flux -= np.mean(temp.flux)]. *)
Definition cropped_template (self : t) (dco : Datacube.t) : result Template.t :=
  let wave := usable_wave dco in
  wmin ← np_min wave;
  wmax ← np_max wave;
  let temp := crop (template self) wmin wmax (dec 40 2) in
  let m := np_mean (Template.flux temp) in
  Ok (Template.mk (Template.wlt temp) (map (λ x, x - m) (Template.flux temp))).

(** [beta = 1 - (self.rv/c)]. *)
Definition beta (self : t) : list Qc := map (λ v, 1 - v / c) (rv self).

(** One row of the 2-D template: the template evaluated at [wave*b], by
    the cubic spline when [self.spline] is set and by [interp1d] otherwise. *)
Definition shifted_row (self : t) (temp : Template.t) (wave : list Qc)
    (b : Qc) : result (list Qc) :=
  if spline self then
    cs ← splrep bspline (Template.wlt temp) (Template.flux temp);
    Ok (map (λ w, cs (w * b)) wave)
  else
    for_each (λ w, interp1d (Template.wlt temp) (Template.flux temp) (w * b)) wave.

(** [g]: the 2-D template, one row per trial velocity. *)
Definition shifted_template (self : t) (dco : Datacube.t) : result matrix :=
  temp ← cropped_template self dco;
  for_each (shifted_row self temp (usable_wave dco)) (beta self).

Definition noise2 (dco : Datacube.t) (noise : string) : result weights :=
  let n := length (usable_wave dco) in
  if String.eqb noise "flux_err" then
    let err := map (select (map negb (nans dco))) (Datacube.flux_err dco) in
    Ok (PerPixel (map np_mean (columns n (map (map (λ e, e * e)) err))))
  else if String.eqb noise "var" then
    Ok (PerPixel (map np_var (columns n (centered_flux dco))))
  else if String.eqb noise "ones" then
    Ok (Scalar 1)
  else Raise UnboundLocalError.

(** [CCF.cross_correlation(dco, noise)]. *)
Definition cross_correlation (self : t) (dco : Datacube.t) (noise : string)
    : result matrix :=
  let f := centered_flux dco in
  g ← shifted_template self dco;
  noise2 ← noise2 dco noise;
  Ok (np_dot_T (divide f noise2) g).

(** The data of [CCF.run]: a single order (a 2-D cube), or the orders of a
    3-D cube, of which there is at least one. *)
Inductive cube :=
  | Order (dco : Datacube.t)
  | Orders (dco : Datacube.t) (dcos : list Datacube.t).

(** [CCF.run(dc, apply_filter=False, noise)] for a cube whose attribute
    [frame] is [dc_frame]. *)
Definition run (self : t) (dc : cube) (dc_frame : string) (noise : string)
    : result t :=
  flux ← match dc with
         | Orders dco dcos =>
             output ← for_each (λ o, cross_correlation self o noise)
                         (dco :: dcos);
             np_sum_axis0 output
         | Order dco => cross_correlation self dco noise
         end;
  Ok (mk (rv self) (dRV self) (template self) flux (window self)
         (n_jobs self) (spline self) (Some dc_frame)).
End cross_correlation.

(** [CCF.normalise()] on a 2-D map: [np.median(self.flux, axis=0)] is the
    median of every column, and each row is divided by these medians.  Where
    a median is zero numpy gives an infinity or nan; the quotient of the
    exact numbers is then 0. *)
Definition normalise (self : t) : t :=
  let n := match flux self with [] => 0%nat | row :: _ => length row end in
  let med := map np_median (columns n (flux self)) in
  mk (rv self) (dRV self) (template self)
     (map (λ row, zip_with Qcdiv row med) (flux self))
     (window self) (n_jobs self) (spline self) (frame self).

(** [CCF.interpolate_to_planet(i)], with the array [planet.RV] as [RV]. *)
Definition interpolate_to_planet (self : t) (RV : list Qc) (i : nat)
    : result (list Qc) :=
  row ← getitem (flux self) i;
  _ ← interp1d_check (rv self) row;
  v ← getitem RV i;
  Ok (map (λ x, interp1d_fill (rv self) row 0 (x + v)) (rv self)).

(** [CCF.to_planet_frame(planet)] with [return_self=False]: the copy that
    is returned.  The median is the 50th percentile.  Without a frame
    [np.array(flux_i)] is 1-D and [ccf.flux[:,mask]] is an [IndexError]. *)
Definition to_planet_frame (self : t) (RV : list Qc) : result t :=
  flux_i ← for_each (interpolate_to_planet self RV) (seq 0 (length (flux self)));
  if bool_decide (flux_i = []) then Raise IndexError else
  let mask :=
    map (λ v, Qc_ltb (Qcabs v) (np_median (map Qcabs (rv self)))) (rv self) in
  Ok (mk (select mask (rv self)) (dRV self) (template self)
         (map (select mask) flux_i) (window self) (n_jobs self) (spline self)
         (Some "planet")).

(** [CCF.autoccf()]: the 1-D array that is stored as [self.flux]; an entry
    is [None] when its divisor [np.sum(g, axis=1)] is zero, which gives nan
    or an infinity.  Without any trial velocity [g] has no axis 1. *)
Definition autoccf (self : t) : result (list (option Qc)) :=
  let twlt := Template.wlt (template self) in
  let tflux := Template.flux (template self) in
  let edge := (length twlt / 10)%nat in
  let wave := py_trim edge twlt in
  let flux := py_trim edge tflux in
  let beta := map (λ v, 1 - v / c) (rv self) in
  _ ← interp1d_check twlt tflux;
  g ← for_each (λ b, for_each (λ w, interp1d twlt tflux (w * b)) wave) beta;
  if bool_decide (g = []) then Raise ValueError else
  Ok (map (λ gk, if Qc_eqb (np_sum gk) 0 then None
                 else Some (np_dot1 flux gk / np_sum gk)) g).

End CCF.

(** ** The planet ephemeris

    The class of the planet is outside the two files.  The mapper reads and
    writes its attribute [Kp], writes [frame], reads the property [RV] (the
    per-frame radial velocity, which depends on the current [Kp]) and calls
    [mask_eclipse].  Planet objects live in a store and are referred to by
    their address, so that a copy and the original can be told apart. *)

Module Planet.
Record t := mk {
  Kp : Qc;
  frame : option string;
  RV_at : Qc → list Qc;        (* the property [RV] for a given [Kp] *)
  mask_eclipse : list bool     (* [mask_eclipse(return_mask=True)] *)
}.

Definition RV (p : t) : list Qc := RV_at p (Kp p).

Definition set_Kp (kp : Qc) (p : t) : t :=
  mk kp (frame p) (RV_at p) (mask_eclipse p).

Definition set_frame (fr : option string) (p : t) : t :=
  mk (Kp p) fr (RV_at p) (mask_eclipse p).
End Planet.

Abbreviation loc := positive.
Abbreviation store := (gmap loc Planet.t).

(** [deepcopy(planet)]: a new object with the same attributes.  An address
    without an object stands for [None], whose attributes cannot be read. *)
Definition deepcopy (h : store) (l : loc) : result (store * loc) :=
  match h !! l with
  | Some p => let l' := fresh (dom h) in Ok (<[l' := p]> h, l')
  | None => Raise AttributeError
  end.

(** [obj.attr] for the planet object at an address. *)
Definition deref (h : store) (l : loc) : result Planet.t :=
  match h !! l with
  | Some p => Ok p
  | None => Raise AttributeError
  end.

(** [x or y] on an optional number: [None] and zero are falsy. *)
Definition py_or (x : option Qc) (y : Qc) : Qc :=
  match x with
  | Some v => if Qc_eqb v 0 then y else v
  | None => y
  end.

(** [np.where(ecl == False)[0]]. *)
Definition where_false (ecl : list bool) : list nat :=
  omap id (imap (λ (i : nat) (b : bool), if b then None else Some i) ecl).

(** [np.where(s == v)]: the index pairs of the cells equal to [v], in
    row-major order; [where_from i j] scans from row [i], column [j] on. *)
Fixpoint where_row (i j : nat) (row : list Qc) (v : Qc) : list (nat * nat) :=
  match row with
  | [] => []
  | x :: row' =>
      (if Qc_eqb x v then [(i, j)] else []) ++ where_row i (S j) row' v
  end.

Fixpoint where_from (i : nat) (s : matrix) (v : Qc) : list (nat * nat) :=
  match s with
  | [] => []
  | row :: s' => where_row i 0 row v ++ where_from (S i) s' v
  end.

Definition where_eq (s : matrix) (v : Qc) : list (nat * nat) :=
  where_from 0 s v.

(** [s[i, j]]. *)
Definition cell (s : matrix) (i j : nat) : option Qc :=
  s !! i ≫= (λ row, row !! j).

(** [s[mask, :] = v]. *)
Fixpoint assign_rows (mask : list bool) (v : Qc) (s : matrix) : matrix :=
  match mask, s with
  | b :: mask', row :: s' =>
      (if b then map (λ _, v) row else row) :: assign_rows mask' v s'
  | _, _ => s
  end.

(** [s[:, mask] = v]. *)
Definition assign_cols (mask : list bool) (v : Qc) (s : matrix) : matrix :=
  map (assign mask v) s.

(** [s[~mask, :] = v] and [s[:, ~mask] = v]. *)
Definition clamp_rows (mask : list bool) (v : Qc) (s : matrix) : matrix :=
  assign_rows (map negb mask) v s.

Definition clamp_cols (mask : list bool) (v : Qc) (s : matrix) : matrix :=
  assign_cols (map negb mask) v s.

(** ** class KpV *)

Module KpV.

Record t := mk {
  ccf : CCF.t;
  planet : loc;
  dRV : Qc;
  kpVec : list Qc;
  vrestVec : list Qc;
  bkg : Qc;
  n_jobs : nat;
  ccf_map : matrix;                 (* set by [run] *)
  ind : option (nat * nat);         (* [(indh, indv)], set by [snr_at_peak] *)
  peak_pos : option (Qc * Qc);
  peak_snr : option Qc
}.

Definition set_ccf_map (m : matrix) (self : t) : t :=
  mk (ccf self) (planet self) (dRV self) (kpVec self) (vrestVec self)
     (bkg self) (n_jobs self) m (ind self) (peak_pos self) (peak_snr self).

Definition set_planet (l : loc) (self : t) : t :=
  mk (ccf self) l (dRV self) (kpVec self) (vrestVec self)
     (bkg self) (n_jobs self) (ccf_map self) (ind self) (peak_pos self)
     (peak_snr self).

Definition set_peak (i j : nat) (pos : Qc * Qc) (v : Qc) (self : t) : t :=
  mk (ccf self) (planet self) (dRV self) (kpVec self) (vrestVec self)
     (bkg self) (n_jobs self) (ccf_map self) (Some (i, j)) (Some pos) (Some v).

(** [KpV.__init__(ccf, planet, deltaRV, kp_radius, vrest_max, bkg)] for a
    given [ccf]; the defaults of the source are [kp_radius=50.] and
    [vrest_max=80.], and [None] for [deltaRV] and [bkg]. *)
Definition init (h : store) (ccf : CCF.t) (planet : loc)
    (deltaRV : option Qc) (kp_radius vrest_max : Qc) (bkg : option Qc)
    : result (store * t) :=
  '(h1, l) ← deepcopy h planet;
  p ← deref h1 l;
  let dRV := py_or deltaRV (CCF.dRV ccf) in
  ks ← np_arange (- kp_radius) kp_radius dRV;
  let kpVec := map (λ k, Planet.Kp p + k) ks in
  vrestVec ← np_arange (- vrest_max) (vrest_max + dRV) dRV;
  let bkg := py_or bkg (vrest_max * dec 60 2) in
  let h2 :=
    match CCF.frame ccf with
    | Some fr => <[l := Planet.set_frame (Some fr) p]> h1
    | None => h1
    end in
  Ok (h2, mk ccf l dRV kpVec vrestVec bkg 6 [] None None None).

(** The row of frame [iObs] resampled at [vrestVec + pRV[iObs]]. *)
Definition shifted_row (self : t) (pRV : list Qc) (iObs : nat)
    : result (list Qc) :=
  v ← getitem pRV iObs;
  row ← getitem (CCF.flux (ccf self)) iObs;
  for_each (λ x, interp1d (CCF.rv (ccf self)) row (x + v)) (vrestVec self).

(** The inner loop of [run]: [ccf_map[ikp,] += ...] over the frames. *)
Fixpoint stack_frames (self : t) (pRV : list Qc) (frames : list nat)
    (acc : list Qc) : result (list Qc) :=
  match frames with
  | [] => Ok acc
  | iObs :: frames' =>
      r ← shifted_row self pRV iObs;
      stack_frames self pRV frames' (zip_with Qcplus acc r)
  end.

(** The outer loop of [run]: for each trial value, [self.planet.Kp] is
    assigned, [RV] is read and one row of the map is built. *)
Fixpoint run_loop (self : t) (frames : list nat) (kps : list Qc) (h : store)
    : result (store * matrix) :=
  match kps with
  | [] => Ok (h, [])
  | kp :: kps' =>
      p ← deref h (planet self);
      let p' := Planet.set_Kp kp p in
      let h' := <[planet self := p']> h in
      row ← stack_frames self (Planet.RV p') frames (map (λ _, 0) (vrestVec self));
      '(h'', rows) ← run_loop self frames kps' h';
      Ok (h'', row :: rows)
  end.

(** [KpV.run(ignore_eclipse)]. *)
Definition run (h : store) (self : t) (ignore_eclipse : bool)
    : result (store * t) :=
  p ← deref h (planet self);
  let ecl :=
    if ignore_eclipse then Planet.mask_eclipse p
    else map (λ _, false) (Planet.RV p) in
  '(h', ccf_map) ← run_loop self (where_false ecl) (kpVec self) h;
  Ok (h', set_ccf_map ccf_map self).

(** [KpV.copy()]: a deep copy, with its own planet object (when the
    mapper still has one). *)
Definition copy (h : store) (self : t) : store * t :=
  match deepcopy h (planet self) with
  | Ok (h', l) => (h', set_planet l self)
  | Raise _ => (h, self)
  end.

Section statistics.
Variable sqrt : Qc → Qc.

Definition np_std (a : list Qc) : Qc := sqrt (np_var a).

(** [noise_region = np.abs(self.vrestVec) > self.bkg]. *)
Definition noise_region (self : t) : list bool :=
  map (λ v, Qc_ltb (bkg self) (Qcabs v)) (vrestVec self).

(** [self.ccf_map[:, noise_region]], flattened by the reductions. *)
Definition background (self : t) : list Qc :=
  concat (map (select (noise_region self)) (ccf_map self)).

(** The property [KpV.noise]. *)
Definition noise (self : t) : Qc := np_std (background self).

(** The property [KpV.baseline]. *)
Definition baseline (self : t) : Qc := np_median (background self).

(** The property [KpV.snr]. *)
Definition snr (self : t) : matrix :=
  let noise_region := map (λ v, Qc_ltb (bkg self) (Qcabs v)) (vrestVec self) in
  let noise := np_std (concat (map (select noise_region) (ccf_map self))) in
  let bkg := np_median (concat (map (select noise_region) (ccf_map self))) in
  map (map (λ x, (x - bkg) / noise)) (ccf_map self).

(** The boolean indices of [snr_at_peak] need a map of the shape of the
    grid; numpy raises [IndexError] otherwise. *)
Definition shape_ok (self : t) : bool :=
  bool_decide (length (ccf_map self) = length (kpVec self))
  && forallb (λ row, bool_decide (length row = length (vrestVec self)))
       (ccf_map self).

(** With an empty background, or a zero [noise], the surface holds [nan]:
    [noise] is the root of a variance that is then undefined or zero, the
    background cells are all equal to their median, and the SNR there is
    [0/0].  The minimum and maximum of such a surface are [nan] and no cell
    compares equal to the maximum. *)
Definition snr_has_nan (self : t) : bool :=
  bool_decide (background self = []) || Qc_eqb (noise self) 0.

(** [KpV.snr_at_peak(peak=None)]: the branch [peak is None], followed by
    the common end of the method. *)
Definition snr_at_peak (self : t) : result t :=
  if negb (shape_ok self) then Raise IndexError else
  let snr0 := snr self in
  let mask_kp :=
    map (λ k, Qc_ltb (Qcabs (k - np_mean (kpVec self))) (qz 10)) (kpVec self) in
  let mask_dv := map (λ v, Qc_ltb (Qcabs v) (qz 5)) (vrestVec self) in
  m1 ← np_min (concat snr0);
  let snr1 := clamp_rows mask_kp m1 snr0 in
  m2 ← np_min (concat snr1);
  let snr2 := clamp_cols mask_dv m2 snr1 in
  mx ← np_max (concat snr2);
  let hits := if snr_has_nan self then [] else where_eq snr2 mx in
  match hits with
  | (indh, indv) :: [] =>
      v ← getitem (vrestVec self) indv;
      k ← getitem (kpVec self) indh;
      row ← getitem (snr self) indh;
      x ← getitem row indv;
      Ok (set_peak indh indv (v, k) x self)
  | _ => Raise TypeError
  end.

(** [KpV.snr_max()]: the triple [(bestVr, bestKp, bestSNR)].  The boolean
    index of [snr] needs rows as long as [vrestVec]. *)
Definition snr_max (self : t) : result (Qc * Qc * Qc) :=
  if negb (forallb (λ row, bool_decide (length row = length (vrestVec self)))
             (ccf_map self))
  then Raise IndexError else
  bestSNR ← np_max (concat (snr self));
  let ipeak := if snr_has_nan self then [] else where_eq (snr self) bestSNR in
  match ipeak with
  | (i, j) :: [] =>
      bestVr ← getitem (vrestVec self) j;
      bestKp ← getitem (kpVec self) i;
      Ok (bestVr, bestKp, bestSNR)
  | _ => Raise TypeError
  end.

(** [KpV.loc(dv, kp)]. *)
Definition loc (self : t) (dv kp : Qc) : result Qc :=
  indv ← np_argmin (map (λ v, Qcabs (v - dv)) (vrestVec self));
  indh ← np_argmin (map (λ k, Qcabs (k - kp)) (kpVec self));
  row ← getitem (ccf_map self) indh;
  getitem row indv.

(** [KpV.merge_kpvs(kpv_list)]. *)
Definition merge_kpvs (h : store) (kpv_list : list t) : result (store * t) :=
  k0 ← getitem kpv_list 0;
  let '(h', new_kpv) := copy h k0 in
  ccf_map ← np_sum_axis0
    (map (λ k, map (map (λ x, x - baseline k)) (ccf_map k)) kpv_list);
  Ok (h', set_ccf_map ccf_map new_kpv).
End statistics.

End KpV.

(** The value of [Kp] of the planet object at an address. *)
Definition planet_Kp (h : store) (l : loc) : option Qc :=
  Planet.Kp <$> h !! l.

(** A session: a mapper is built on the planet at [planet] and run.  The
    result gives [Kp] of the mapper's planet before and after [run], and
    [Kp] of the planet of the caller after it. *)
Definition Kp_around_run (h : store) (ccf : CCF.t) (planet : loc)
    (deltaRV : option Qc) (kp_radius vrest_max : Qc) (bkg : option Qc)
    (ignore_eclipse : bool) : result (option Qc * option Qc * option Qc) :=
  '(h1, self) ← KpV.init h ccf planet deltaRV kp_radius vrest_max bkg;
  '(h2, _) ← KpV.run h1 self ignore_eclipse;
  Ok (planet_Kp h1 (KpV.planet self), planet_Kp h2 (KpV.planet self),
      planet_Kp h2 planet).



(** ** class Align *)

Module Align.

Record t := mk {
  dco_flux : list (list (option Qc));   (* [self.dco.flux], [None] is nan *)
  RVt : list Qc;
  pixels : list Qc;
  shifts : list Qc;
  ccf : matrix;
  window : Qc
}.

Definition set_dco_flux (fl : list (list (option Qc))) (self : t) : t :=
  mk fl (RVt self) (pixels self) (shifts self) (ccf self) (window self).

Definition set_ccf (m : matrix) (self : t) : t :=
  mk (dco_flux self) (RVt self) (pixels self) (shifts self) m (window self).

Section get_shift.
Variable sqrt : Qc → Qc.
Variable bspline : list Qc → list Qc → Qc → Qc.

(** [Align.xcorr(f, g)]. *)
Definition xcorr (f g : list Qc) : Qc :=
  let nx := qn (length f) in
  let R := np_dot1 f g / nx in
  let varf := np_dot1 f f / nx in
  let varg := np_dot1 g g / nx in
  R / sqrt (varf * varg).

(** [Align.clip(f, sigma)].  When [f] already holds a nan, its mean and
    standard deviation are nan, the comparison is false everywhere and [f]
    is left as it is. *)
Definition clip (f : list (option Qc)) (sigma : Qc) : list (option Qc) :=
  match mapM id f with
  | Some vals =>
      let mean := np_mean vals in
      let std := sqrt (np_var vals) in
      map (λ x, if Qc_ltb (std * sigma) (Qcabs (x - mean)) then None else Some x)
          vals
  | None => f
  end.

(** The frames [f] and [g] of [get_shift] after both calls of [clip].  The
    two are rows of [self.dco.flux], clipped in place; for [j = 0] they are
    one and the same row. *)
Definition clipped (self : t) (j : nat)
    : result (list (list (option Qc)) * list (option Qc) * list (option Qc)) :=
  f0 ← getitem (dco_flux self) 0;
  _ ← getitem (dco_flux self) j;
  let flux1 := <[0%nat := clip f0 (qz 3)]> (dco_flux self) in
  g0 ← getitem flux1 j;
  let flux2 := <[j := clip g0 (qz 3)]> flux1 in
  f ← getitem flux2 0;
  g ← getitem flux2 j;
  Ok (flux2, f, g).

(** [~nans] for [nans = np.isnan(f)+np.isnan(g)]. *)
Definition valid (f g : list (option Qc)) : list bool :=
  zip_with (λ x y, negb (isnan x || isnan y)) f g.

(** [Align.get_shift(j)]. *)
Definition get_shift (self : t) (j : nat) : result t :=
  r ← clipped self j;
  let '(flux2, f, g) := r in
  let ok := valid f g in
  let fw := select ok (pixels self) in
  cs ← splrep bspline (select ok (pixels self)) (omap id (select ok g));
  let row :=
    map (λ s, xcorr (omap id (select ok f)) (map (λ x, cs (x + s)) fw))
        (RVt self) in
  Ok (set_ccf (<[j := row]> (ccf self)) (set_dco_flux flux2 self)).

Definition set_shifts (sh : list Qc) (self : t) : t :=
  mk (dco_flux self) (RVt self) (pixels self) sh (ccf self) (window self).

(** [[self.get_shift(j) for j in js]]. *)
Fixpoint get_shifts (self : t) (js : list nat) : result t :=
  match js with
  | [] => Ok self
  | j :: js' => self' ← get_shift self j; get_shifts self' js'
  end.

(** [Align.run()]. *)
Definition run (self : t) : result t :=
  self' ← get_shifts self (seq 0 (length (dco_flux self)));
  idx ← for_each np_argmax (ccf self');
  sh ← for_each (getitem (RVt self')) idx;
  Ok (set_shifts sh self').

(** [splrep(x, y)] for arrays that may differ in length: that is a
    [TypeError] as well. *)
Definition splrep_xy (x y : list Qc) : result (Qc → Qc) :=
  if negb (bool_decide (length x = length y)) then Raise TypeError
  else splrep bspline x y.

(** The loop of [Align.apply_shifts()] over the frames [js], on the array
    [self.dco_corr.flux]. *)
Fixpoint shift_frames (self : t) (js : list nat) (corr : matrix)
    : result matrix :=
  match js with
  | [] => Ok corr
  | j :: js' =>
      row ← getitem corr j;
      cs ← splrep_xy (pixels self) row;
      s ← getitem (shifts self) j;
      shift_frames self js' (<[j := map (λ x, cs (x + s)) (pixels self)]> corr)
  end.

(** [Align.apply_shifts()]: the new value of [self.dco_corr.flux]. *)
Definition apply_shifts (self : t) (corr : matrix) : result matrix :=
  shift_frames self (seq 1 (length (dco_flux self) - 1)) corr.
End get_shift.

End Align.

(** ** Instances and sample data for the examples *)

(** A square root on the rationals: exact on the squares of rationals and
    rounded down to a multiple of the inverse denominator elsewhere. *)
Definition sqrt_floor (x : Qc) : Qc :=
  let q := this x in
  qz (Z.sqrt (Qnum q * Z.pos (Qden q))) / qz (Z.pos (Qden q)).

(** A curve through the knots for the parameter [bspline]: the broken line
    of [interp1d], continued beyond the last knot. *)
Definition broken_line (x y : list Qc) (x_new : Qc) : Qc :=
  match x, y with
  | x0 :: xs', y0 :: ys' => linear_piece x0 y0 xs' ys' x_new
  | _, _ => 0
  end.

Module Sample.

(** Two frames over four pixels, the second pixel without a wavelength. *)
Definition dco : Datacube.t :=
  Datacube.mk [Some 1; None; Some 2; Some (qz 3)]
    [[1; qz 100; 2; qz 3]; [qz 5; qz 100; qz 6; qz 7]]
    [[1; 1; 1; 1]; [1; 1; 1; 1]].

Definition dco_err : Datacube.t :=
  Datacube.mk (Datacube.wlt dco) (Datacube.flux dco)
    [[2; qz 3; qz 4; qz 5]; [qz 6; qz 7; qz 8; qz 9]].

(** A template sampled at 1/2, 1, 2, 3 and 7/2. *)
Definition template : Template.t :=
  Template.mk [dec 5 1; 1; 2; qz 3; dec 35 1] [0; 1; qz 5; 1; 0].

(** The same template less its mean 7/5. *)
Definition template_centered : Template.t :=
  Template.mk [dec 5 1; 1; 2; qz 3; dec 35 1]
    [dec (-14) 1; dec (-4) 1; dec 36 1; dec (-4) 1; dec (-14) 1].

(** Trial velocities -c/10, 0 and c/10. *)
Definition ccf : CCF.t :=
  CCF.init [qz (-29980); 0; qz 29980] template [].



(** One frame over the two pixels at wavelengths 1 and 3, and a template
    sampled at 1, 2 and 3; a single trial velocity 0. *)
Definition dco_coarse : Datacube.t :=
  Datacube.mk [Some 1; Some (qz 3)] [[1; 2]] [[1; 1]].

Definition ccf_coarse : CCF.t :=
  CCF.init [0] (Template.mk [1; 2; qz 3] [0; qz 3; 0]) [].

(** A map of two frames over the trial velocities -4 .. 4, and a planet
    whose two frames move by +-(Kp - 5)/2. *)
Definition ccf_map2 : CCF.t :=
  CCF.mk [qz (-4); qz (-3); -2; -1; 0; 1; 2; qz 3; qz 4] 1 template
    [[0; 0; 0; 1; qz 4; 1; 0; 0; 0]; [0; 0; 1; 2; qz 6; 2; 1; 0; 0]]
    0 6 false (Some "telluric").

Definition planet : Planet.t :=
  Planet.mk (qz 5) None (λ kp, [(kp - qz 5) / 2; (qz 5 - kp) / 2])
    [false; false].

Definition heap : store := {[ 1%positive := planet ]}.

(** A configured mapper on a coarse grid: four trial Kp, of which the two
    middle ones are within 10 km/s of the mean, and three rest velocities,
    of which the middle one is within 5 km/s of zero and the outer two are
    background. *)
Definition grid (m : matrix) : KpV.t :=
  KpV.mk ccf_map2 2%positive (qz 10)
    [qz 80; qz 90; qz 100; qz 110] [qz (-10); 0; qz 10] (qz 6) 6
    m None None None.

(** A surface with its largest value outside the window and a tie inside. *)
Definition kpv_tie : KpV.t :=
  grid [[1; qz 9; -1]; [-1; 2; 1]; [1; 2; -1]; [-1; 0; 1]].

(** The same with a single largest value inside the window. *)
Definition kpv_peak : KpV.t :=
  grid [[1; qz 9; -1]; [-1; qz 3; 1]; [1; 2; -1]; [-1; 0; 1]].

(** A surface whose largest value lies inside the window. *)
Definition kpv_centre : KpV.t :=
  grid [[1; 2; -1]; [-1; qz 9; 1]; [1; 2; -1]; [-1; 0; 1]].

(** A surface whose largest value is held by two cells. *)
Definition kpv_two_peaks : KpV.t :=
  grid [[1; qz 9; -1]; [-1; qz 9; 1]; [1; 2; -1]; [-1; 0; 1]].




(** Two frames of five pixels, of which two are nan in the first frame
    and one of these in the second: three pixels are valid in both. *)
Definition align : Align.t :=
  Align.mk
    [[Some 1; Some 2; None; None; Some 1];
     [Some 1; Some (qz 3); None; Some 2; Some 1]]
    [-1; 0; 1] [0; 1; 2; qz 3; qz 4] [0; 0]
    [[0; 0; 0]; [0; 0; 0]] (qz 30).

(** Two frames of six valid pixels. *)
Definition align_ok : Align.t :=
  Align.mk
    [[Some 1; Some 2; Some 1; Some 2; Some 1; Some 2];
     [Some 2; Some 1; Some 2; Some 1; Some 2; Some 1]]
    [0] [0; 1; 2; qz 3; qz 4; qz 5] [0; 0]
    [[0]; [0]] (qz 30).

(** The frames that are resampled for this aligner. *)
Definition corr_ok : matrix :=
  [[1; 2; 1; 2; 1; 2]; [2; 1; 2; 1; 2; 1]].

(** The sample datacube seen as the two orders of a 3-D cube. *)
Definition dco_shifted : Datacube.t :=
  Datacube.mk [Some 1; None; Some 2; Some (qz 3)]
    [[2; 0; 1; 1]; [0; 0; qz 4; 2]]
    [[1; 1; 1; 1]; [1; 1; 1; 1]].

(** A template of twelve samples at 1 .. 12 and one of three samples. *)
Definition template12 : Template.t :=
  Template.mk
    [1; 2; qz 3; qz 4; qz 5; qz 6; qz 7; qz 8; qz 9; qz 10; qz 11; qz 12]
    [1; 1; 2; qz 3; 2; 1; 1; 2; qz 3; 2; 1; 1].

Definition ccf_auto : CCF.t := CCF.init [0] template12 [].

Definition ccf_auto_small : CCF.t :=
  CCF.init [-1; 0; 1] (Template.mk [1; 2; qz 3] [1; 2; 1]) [].

(** A map of three frames whose columns have the medians 2, 4 and -2. *)
Definition ccf_norm : CCF.t :=
  CCF.mk [-1; 0; 1] 1 template
    [[1; 2; qz (-4)]; [qz 3; qz 6; -2]; [2; qz 4; -1]]
    0 6 false None.

(** A mapper on the sample map, with its own planet at the address 2: the
    trial values 3 .. 6 of [Kp] and the rest velocities -2 .. 2. *)
Definition heap2 : store := {[ 1%positive := planet; 2%positive := planet ]}.

Definition kpv_run : KpV.t :=
  KpV.mk ccf_map2 2%positive 1 [qz 3; qz 4; qz 5; qz 6] [-2; -1; 0; 1; 2]
    (dec 12 1) 6 [] None None None.

(** The same planet with both frames in eclipse. *)
Definition heap_eclipsed : store :=
  {[ 2%positive := Planet.mk (qz 5) None (Planet.RV_at planet) [true; true] ]}.

End Sample.

(** ** Statements about the program *)

(** C1 as the specification states it: each frame is centred on its own
    mean. *)
Definition centered_per_frame (dco : Datacube.t) : Prop :=
  ∀ i row, CCF.usable_flux dco !! i = Some row →
    CCF.centered_flux dco !! i = Some (map (λ x, x - np_mean row) row).

(** C7 as the specification states it: every row of the 2-D template has
    zero mean. *)
Definition rows_centered (g : matrix) : Prop :=
  ∀ row, row ∈ g → np_mean row = 0.


(** A curve passes through the points [(x_i, y_i)]. *)
Definition passes_through (curve : Qc → Qc) (x y : list Qc) : Prop :=
  ∀ i xi yi, x !! i = Some xi → y !! i = Some yi → curve xi = yi.

(** C8 as the specification states it: once [run] has returned, [Kp] of
    the ephemeris of the mapper is what it was before. *)
Definition Kp_not_persisted (h : store) (ccf : CCF.t) (planet : loc)
    (deltaRV : option Qc) (kp_radius vrest_max : Qc) (bkg : option Qc)
    (ignore_eclipse : bool) : Prop :=
  ∀ before after caller,
    Kp_around_run h ccf planet deltaRV kp_radius vrest_max bkg ignore_eclipse
    = Ok (before, after, caller) →
    after = before.

(** All the arrays of a list have one shape. *)
Definition one_shape (ms : list matrix) : Prop :=
  ∀ a b, a ∈ ms → b ∈ ms → map length a = map length b.


(** The number of pixels that are left to the spline fit of [get_shift]:
    those where neither frame is nan after clipping. *)
Definition valid_points (sqrt : Qc → Qc) (self : Align.t) (j : nat)
    : result nat :=
  r ← Align.clipped sqrt self j;
  let '(_, f, g) := r in
  Ok (length (select (Align.valid f g) (Align.pixels self))).

(** C9 as the specification states it: fewer than 4 valid points are
    reported as a [DegenerateInputError]. *)
Definition degenerate_input_signalled (sqrt : Qc → Qc)
    (bspline : list Qc → list Qc → Qc → Qc) (self : Align.t) (j : nat) : Prop :=
  ∀ n, valid_points sqrt self j = Ok n → (n < 4)%nat →
    Align.get_shift sqrt bspline self j = Raise DegenerateInputError.

(** The masks of the default peak search. *)
Definition mask_kp (self : KpV.t) : list bool :=
  map (λ k, Qc_ltb (Qcabs (k - np_mean (KpV.kpVec self))) (qz 10))
      (KpV.kpVec self).

Definition mask_dv (self : KpV.t) : list bool :=
  map (λ v, Qc_ltb (Qcabs v) (qz 5)) (KpV.vrestVec self).

(** The grid point [(i, j)] lies within 10 km/s of the mean of [kpVec] and
    within 5 km/s of zero in [vrestVec]. *)
Definition in_window (self : KpV.t) (i j : nat) : Prop :=
  ∃ k v, KpV.kpVec self !! i = Some k ∧ KpV.vrestVec self !! j = Some v
         ∧ Qcabs (k - np_mean (KpV.kpVec self)) < qz 10 ∧ Qcabs v < qz 5.

(** C3 as the specification states it: the default search returns a grid
    point of the window for every surface. *)
Definition peak_always_found (sqrt : Qc → Qc) (self : KpV.t) : Prop :=
  ∃ self' i j, KpV.snr_at_peak sqrt self = Ok self'
               ∧ KpV.ind self' = Some (i, j) ∧ in_window self i j.

(** The frames that [KpV.run] stacks: those with [ecl == False]. *)
Definition frames_used (p : Planet.t) (ignore_eclipse : bool) : list nat :=
  where_false (if ignore_eclipse then Planet.mask_eclipse p
               else map (λ _, false) (Planet.RV p)).

(** What frame [iObs] adds to the cell of the map at the rest velocity [v],
    for the planet velocities [pRV]: the row of the frame, interpolated at
    [v + pRV[iObs]]. *)
Definition resampled (self : KpV.t) (pRV : list Qc) (v : Qc) (iObs : nat)
    : result Qc :=
  s ← getitem pRV iObs;
  row ← getitem (CCF.flux (KpV.ccf self)) iObs;
  interp1d (CCF.rv (KpV.ccf self)) row (v + s).

(** The frames of the aligner once the first [k] of the frames [flux] have
    been clipped at three standard deviations. *)
Definition clipped_upto (sqrt : Qc → Qc) (k : nat)
    (flux : list (list (option Qc))) : list (list (option Qc)) :=
  map (λ f, Align.clip sqrt f (qz 3)) (take k flux) ++ drop k flux.

(** * Properties *)

(** Closed goals are decided by evaluation. *)
Ltac by_eval := apply (bool_decide_unpack _); vm_compute; exact I.

(** One step of a computation that is known to end well. *)
Tactic Notation "step_bind" hyp(H) "as" ident(E) :=
  match type of H with
  | (?m ≫= _) = Ok _ => destruct m eqn:E; cbn in H; [|discriminate H]
  end.

Tactic Notation "step_bind" hyp(H) "as" ident(E) "gives" simple_intropattern(x) :=
  match type of H with
  | (?m ≫= _) = Ok _ => destruct m as [x|] eqn:E; cbn in H; [|discriminate H]
  end.

Tactic Notation "step_bind" hyp(H) :=
  let E := fresh "E" in step_bind H as E.

(** ** Lists *)

Lemma map_fmap {A B} (f : A → B) (l : list A) : map f l = f <$> l.
Proof. induction l; [done|]. cbn. by f_equal. Qed.

Lemma lookup_map {A B} (f : A → B) (l : list A) (i : nat) :
  map f l !! i = f <$> l !! i.
Proof. rewrite map_fmap. apply list_lookup_fmap. Qed.

Lemma concat_map_map {A B} (f : A → B) (l : list (list A)) :
  concat (map (map f) l) = map f (concat l).
Proof.
  induction l as [|r l IH]; [done|].
  cbn [map concat]. by rewrite map_app, IH.
Qed.

(** ** Sums and means *)

Lemma qn_0 : qn 0 = 0.
Proof. apply Z2Qc_inj_0. Qed.

Lemma qn_S (n : nat) : qn (S n) = qn n + 1.
Proof.
  unfold qn. rewrite Nat2Z.inj_succ, <- Z.add_1_r, Z2Qc_inj_add.
  by rewrite Z2Qc_inj_1.
Qed.

Lemma qn_nonzero (n : nat) : n ≠ 0%nat → qn n ≠ 0.
Proof.
  intros Hn H. unfold qn in H. rewrite <- Z2Qc_inj_0 in H.
  apply Z2Qc_inj in H. lia.
Qed.

Lemma np_sum_nil : np_sum [] = 0.
Proof. reflexivity. Qed.

Lemma np_sum_cons (x : Qc) (a : list Qc) : np_sum (x :: a) = x + np_sum a.
Proof. reflexivity. Qed.

Lemma np_sum_app (a b : list Qc) : np_sum (a ++ b) = np_sum a + np_sum b.
Proof.
  induction a as [|x a IH]; cbn [app].
  - rewrite np_sum_nil. ring.
  - rewrite !np_sum_cons, IH. ring.
Qed.

Lemma np_sum_shift (m : Qc) (a : list Qc) :
  np_sum (map (λ x, x - m) a) = np_sum a - qn (length a) * m.
Proof.
  induction a as [|x a IH]; cbn [map length].
  - rewrite np_sum_nil, qn_0. ring.
  - rewrite !np_sum_cons, IH, qn_S. ring.
Qed.

(** Subtracting the mean leaves a sum of zero. *)
Lemma np_sum_centered (a : list Qc) :
  np_sum (map (λ x, x - np_mean a) a) = 0.
Proof.
  rewrite np_sum_shift. destruct a as [|x a].
  - cbn [length]. rewrite np_sum_nil, qn_0. ring.
  - unfold np_mean. field. apply qn_nonzero. cbn [length]. lia.
Qed.

Lemma np_mean_centered (a : list Qc) :
  np_mean (map (λ x, x - np_mean a) a) = 0.
Proof.
  unfold np_mean at 1. rewrite np_sum_centered.
  unfold Qcdiv. ring.
Qed.

(** ** Results *)

Lemma getitem_Ok {A} (l : list A) (i : nat) (x : A) :
  getitem l i = Ok x ↔ l !! i = Some x.
Proof.
  unfold getitem. destruct (l !! i); split; intros H; by simplify_eq.
Qed.

Lemma for_each_Ok {A B} (f : A → result B) (g : A → B) (l : list A) :
  (∀ x, x ∈ l → f x = Ok (g x)) → for_each f l = Ok (map g l).
Proof.
  induction l as [|x l IH]; intros H; [done|].
  cbn [for_each map]. rewrite (H x) by left. cbn.
  rewrite IH; [done|]. intros y Hy. apply H. by right.
Qed.

Lemma for_each_lookup {A B} (f : A → result B) (l : list A) (r : list B)
    (i : nat) (x : A) :
  for_each f l = Ok r → l !! i = Some x → ∃ y, f x = Ok y ∧ r !! i = Some y.
Proof.
  revert r i. induction l as [|a l IH]; intros r i Hr Hi; [done|].
  cbn [for_each] in Hr.
  destruct (f a) as [y|e] eqn:Ha; [|done]. cbn in Hr.
  destruct (for_each f l) as [ys|e] eqn:Hl; [|done]. cbn in Hr.
  injection Hr as <-.
  destruct i as [|i]; cbn in Hi.
  - injection Hi as <-. eauto.
  - destruct (IH ys i eq_refl Hi) as (z & Hz & Hlk). eauto.
Qed.

(** ** Linear interpolation *)

Lemma linear_piece_knot (xs ys : list Qc) (x0 y0 : Qc) (i : nat) (xi yi : Qc) :
  StronglySorted Qclt (x0 :: xs) →
  (x0 :: xs) !! i = Some xi →
  (y0 :: ys) !! i = Some yi →
  length xs = length ys →
  linear_piece x0 y0 xs ys xi = yi.
Proof.
  revert ys x0 y0 i.
  induction xs as [|x1 xs IH]; intros ys x0 y0 i Hs Hx Hy Hlen.
  - destruct ys; [|done]. destruct i; [|done].
    cbn in Hx, Hy. by simplify_eq.
  - destruct ys as [|y1 ys]; [done|].
    apply StronglySorted_inv in Hs as [Hs Hall].
    assert (x0 < x1) as H01 by (by inversion Hall).
    assert (x1 - x0 ≠ 0) as Hne.
    { intros H0. apply (Qclt_not_eq _ _ H01). symmetry.
      rewrite <- (Qcplus_0_l x0), <- H0. ring. }
    cbn [linear_piece]. unfold Qc_leb.
    destruct i as [|i]; cbn in Hx, Hy.
    + simplify_eq. rewrite bool_decide_eq_true_2 by by apply Qclt_le_weak.
      field. done.
    + destruct i as [|i]; cbn in Hx, Hy.
      * simplify_eq. rewrite bool_decide_eq_true_2 by apply Qcle_refl.
        field. done.
      * assert (x1 < xi) as H1i.
        { apply StronglySorted_inv in Hs as [_ Hall1].
          rewrite Forall_forall in Hall1. apply Hall1.
          by eapply list_elem_of_lookup_2. }
        rewrite bool_decide_eq_false_2 by by apply Qclt_not_le.
        apply (IH ys x1 y1 (S i)); [done|done|done|]. by simplify_eq/=.
Qed.

Lemma List_last_lookup {A} (l : list A) (d x : A) :
  last l = Some x → List.last l d = x.
Proof.
  induction l as [|a l IH]; [done|].
  destruct l as [|b l]; cbn; [by intros [= ->]|].
  intros H. by apply IH.
Qed.

(** ** The knots in increasing order *)

Lemma elem_of_insert_knot (x y : Qc) (k : list (Qc * Qc)) (p : Qc * Qc) :
  p ∈ insert_knot x y k ↔ p = (x, y) ∨ p ∈ k.
Proof.
  induction k as [|[x' y'] k IH]; cbn.
  - rewrite list_elem_of_singleton, elem_of_nil. tauto.
  - destruct (Qc_leb x x').
    + by rewrite elem_of_cons.
    + rewrite !elem_of_cons, IH. tauto.
Qed.

(** Sorting keeps the knots. *)
Lemma elem_of_sort_knots (xs ys : list Qc) (p : Qc * Qc) :
  p ∈ sort_knots xs ys → p.1 ∈ xs.
Proof.
  revert ys. induction xs as [|x xs IH]; intros [|y ys]; cbn;
    try by intros ?%elem_of_nil.
  rewrite elem_of_insert_knot. intros [->|H]; [left|right].
  by apply (IH ys).
Qed.

(** Knots that are already increasing stay as they are. *)
Lemma sort_knots_sorted (xs ys : list Qc) :
  StronglySorted Qclt xs → sort_knots xs ys = zip xs ys.
Proof.
  intros Hs. revert ys.
  induction Hs as [|x xs Hs IH Hall]; intros [|y ys]; try done.
  cbn [sort_knots]. rewrite IH.
  destruct xs as [|x' xs], ys as [|y' ys]; try done.
  cbn. unfold Qc_leb. rewrite bool_decide_eq_true_2; [done|].
  apply Qclt_le_weak. by inversion Hall.
Qed.

Lemma map_fst_zip (xs ys : list Qc) :
  length xs = length ys → map fst (zip xs ys) = xs.
Proof. intros H. rewrite map_fmap. apply fst_zip. lia. Qed.

Lemma map_snd_zip (xs ys : list Qc) :
  length xs = length ys → map snd (zip xs ys) = ys.
Proof. intros H. rewrite map_fmap. apply snd_zip. lia. Qed.

Lemma List_last_elem {A} (l : list A) (d : A) : List.last l d ∈ d :: l.
Proof.
  induction l as [|a l IH]; [left|].
  destruct l as [|b l]; [right; left|].
  change (List.last (a :: b :: l) d) with (List.last (b :: l) d).
  apply elem_of_cons in IH as [IH|IH]; [rewrite IH; left|by do 2 right].
Qed.

(** The least and the greatest knot are among the given ones. *)
Lemma sort_knots_ends (xs ys : list Qc) (x0 y0 : Qc) (k : list (Qc * Qc)) :
  sort_knots xs ys = (x0, y0) :: k →
  x0 ∈ xs ∧ List.last (map fst k) x0 ∈ xs.
Proof.
  intros H.
  assert (x0 ∈ xs) as H0.
  { apply (elem_of_sort_knots xs ys (x0, y0)). rewrite H. left. }
  split; [done|].
  pose proof (List_last_elem (map fst k) x0) as Hl.
  apply elem_of_cons in Hl as [->|Hl]; [done|].
  rewrite map_fmap in Hl |- *.
  apply list_elem_of_fmap in Hl as (p & -> & Hp).
  apply (elem_of_sort_knots xs ys p). rewrite H. by right.
Qed.

(** For increasing knots the interpolant walks them as they are given. *)
Lemma interp1d_sorted (x0 y0 : Qc) (xs ys : list Qc) (x : Qc) :
  StronglySorted Qclt (x0 :: xs) → length xs = length ys →
  interp1d (x0 :: xs) (y0 :: ys) x
  = if Qc_ltb x x0 || Qc_ltb (List.last xs x0) x then Raise ValueError
    else Ok (linear_piece x0 y0 xs ys x).
Proof.
  intros Hs Hlen. unfold interp1d.
  rewrite bool_decide_eq_true_2 by (cbn; by rewrite Hlen). cbn [negb].
  rewrite sort_knots_sorted by done. cbn [zip zip_with].
  fold (zip xs ys). by rewrite map_fst_zip, map_snd_zip.
Qed.

Lemma interp1d_fill_sorted (x0 y0 : Qc) (xs ys : list Qc) (fill x : Qc) :
  StronglySorted Qclt (x0 :: xs) → length xs = length ys →
  interp1d_fill (x0 :: xs) (y0 :: ys) fill x
  = if Qc_ltb x x0 || Qc_ltb (List.last xs x0) x then fill
    else linear_piece x0 y0 xs ys x.
Proof.
  intros Hs Hlen. unfold interp1d_fill.
  rewrite sort_knots_sorted by done. cbn [zip zip_with].
  fold (zip xs ys). by rewrite map_fst_zip, map_snd_zip.
Qed.

Lemma List_last_cons {A} (l : list A) (a x : A) :
  last (a :: l) = Some x → List.last l a = x.
Proof.
  destruct l as [|b l]; [by intros [= ->]|].
  rewrite last_cons_cons. apply List_last_lookup.
Qed.


(** ** The cross-correlation engine *)

Section ccf_properties.
Variable crop : Template.t → Qc → Qc → Qc → Template.t.
Variable bspline : list Qc → list Qc → Qc → Qc.

(** C1 (amended): every entry of the flux that enters the dot product is the
    usable flux minus the mean of all the usable entries of all the frames,
    and the centred entries sum to zero over the whole array. *)
Theorem centered_flux_grand_mean (dco : Datacube.t) (i j : nat)
    (row : list Qc) (x : Qc) :
  let flux := CCF.usable_flux dco in
  let m := np_sum (concat flux) / qn (length (concat flux)) in
  flux !! i = Some row →
  row !! j = Some x →
  (∃ row', CCF.centered_flux dco !! i = Some row' ∧ row' !! j = Some (x - m))
  ∧ np_sum (concat (CCF.centered_flux dco)) = 0.
Proof.
  intros flux m Hi Hj. split.
  - unfold CCF.centered_flux.
    exists (map (λ x, x - m) row). split.
    + rewrite lookup_map. fold flux. by rewrite Hi.
    + by rewrite lookup_map, Hj.
  - unfold CCF.centered_flux. fold flux.
    change (np_mean (concat flux)) with m.
    rewrite concat_map_map. apply np_sum_centered.
Qed.

Lemma divide_by_one (f : matrix) : CCF.divide f (CCF.Scalar 1) = f.
Proof.
  unfold CCF.divide. induction f as [|row f IH]; [done|].
  cbn [map]. rewrite IH. f_equal.
  induction row as [|x row IHr]; [done|].
  cbn [map]. rewrite IHr. f_equal. unfold Qcdiv. field. done.
Qed.

(** C4: with [noise='ones'] the map does not depend on the flux errors:
    two datacubes with the same wavelengths and the same flux give the same
    result, which is the plain product of the centred flux with the 2-D
    template. *)
Theorem ones_ignores_flux_err (self : CCF.t) (dco1 dco2 : Datacube.t) :
  Datacube.wlt dco1 = Datacube.wlt dco2 →
  Datacube.flux dco1 = Datacube.flux dco2 →
  CCF.cross_correlation crop bspline self dco1 "ones"
  = CCF.cross_correlation crop bspline self dco2 "ones"
  ∧ CCF.cross_correlation crop bspline self dco1 "ones"
    = (g ← CCF.shifted_template crop bspline self dco1;
       Ok (np_dot_T (CCF.centered_flux dco1) g)).
Proof.
  intros Hw Hf. destruct dco1 as [w1 f1 e1], dco2 as [w2 f2 e2].
  cbn in Hw, Hf. subst w2 f2. split; [reflexivity|].
  unfold CCF.cross_correlation.
  destruct (CCF.shifted_template crop bspline self _) as [g|e]; [|done].
  change (CCF.noise2 _ "ones") with (Ok (CCF.Scalar 1)).
  cbn [mbind result_bind]. by rewrite divide_by_one.
Qed.

Lemma beta_zero : 1 - 0 / CCF.c = 1.
Proof. unfold Qcdiv. ring. Qed.



(** C7 (amended): the cropped 1-D template is centred before it is shifted,
    so that its flux has zero sum and zero mean; the 2-D template is made of
    the rows obtained from it for each factor of [beta], and nothing is
    subtracted from these rows afterwards. *)
Theorem template_centered_before_shift (self : CCF.t) (dco : Datacube.t)
    (temp : Template.t) :
  CCF.cropped_template crop self dco = Ok temp →
  np_sum (Template.flux temp) = 0
  ∧ np_mean (Template.flux temp) = 0
  ∧ CCF.shifted_template crop bspline self dco
    = for_each (CCF.shifted_row bspline self temp (CCF.usable_wave dco))
        (CCF.beta self).
Proof.
  intros Hcrop. split; [|split].
  - unfold CCF.cropped_template in Hcrop.
    destruct (np_min _); [|done]. destruct (np_max _); [|done].
    cbn in Hcrop. injection Hcrop as <-. cbn. apply np_sum_centered.
  - unfold CCF.cropped_template in Hcrop.
    destruct (np_min _); [|done]. destruct (np_max _); [|done].
    cbn in Hcrop. injection Hcrop as <-. cbn.
    apply np_mean_centered.
  - unfold CCF.shifted_template. by rewrite Hcrop.
Qed.
End ccf_properties.

(** C1, counterexample: two frames with means 2 and 6; the first frame is
    lowered by the mean 4 of the whole array. *)
Lemma centered_per_frame_fails : ¬ centered_per_frame Sample.dco.
Proof.
  intros H. specialize (H 0%nat [1; 2; qz 3] eq_refl).
  revert H. by_eval.
Qed.

Lemma centered_flux_grand_mean_witness :
  (∃ row', CCF.centered_flux Sample.dco !! 0%nat = Some row'
     ∧ row' !! 0%nat
       = Some (1 - np_sum (concat (CCF.usable_flux Sample.dco))
                   / qn (length (concat (CCF.usable_flux Sample.dco)))))
  ∧ np_sum (concat (CCF.centered_flux Sample.dco)) = 0.
Proof.
  apply (centered_flux_grand_mean Sample.dco 0 0 [1; 2; qz 3] 1); reflexivity.
Defined.

(** C7, counterexample: the centred template is -1, 2, -1 at 1, 2, 3; at
    the wavelengths 1 and 3 of the data the row for velocity 0 is -1, -1. *)
Lemma rows_centered_fails :
  ∃ g, CCF.shifted_template crop_margin broken_line
         Sample.ccf_coarse Sample.dco_coarse = Ok g
       ∧ ¬ rows_centered g.
Proof.
  exists [[-1; -1]]. split; [by_eval|].
  assert (np_mean [-1; -1] ≠ 0) as Hne by by_eval.
  intros H. apply Hne, H. left.
Qed.

Lemma sample_cropped_template :
  CCF.cropped_template crop_margin Sample.ccf Sample.dco
  = Ok Sample.template_centered.
Proof. by_eval. Qed.



Lemma template_centered_before_shift_witness :
  np_sum (Template.flux Sample.template_centered) = 0
  ∧ np_mean (Template.flux Sample.template_centered) = 0.
Proof.
  destruct (template_centered_before_shift crop_margin broken_line
              Sample.ccf Sample.dco Sample.template_centered
              sample_cropped_template) as (H1 & H2 & _).
  split; [exact H1|exact H2].
Defined.

Lemma ones_ignores_flux_err_witness :
  CCF.cross_correlation crop_margin broken_line Sample.ccf Sample.dco "ones"
  = CCF.cross_correlation crop_margin broken_line Sample.ccf Sample.dco_err
      "ones".
Proof.
  refine (proj1 (ones_ignores_flux_err crop_margin broken_line Sample.ccf
                   Sample.dco Sample.dco_err _ _)); reflexivity.
Defined.

(** ** The Kp-Vsys mapper: construction *)

(** C10: the optional numbers of the constructor are tested for truth, so
    that a zero is replaced by the default like [None], each on its own and
    whatever the other argument is: [deltaRV=0] gives the [dRV] of the CCF
    and [bkg=0] gives [0.60 * vrest_max].  No argument makes the threshold
    zero unless the default is zero, and the resolution of a mapper is never
    zero. *)
Theorem init_zero_is_default (h : store) (ccf : CCF.t) (planet : loc)
    (kp_radius vrest_max : Qc) :
  (∀ bkg,
     KpV.init h ccf planet (Some 0) kp_radius vrest_max bkg
     = KpV.init h ccf planet None kp_radius vrest_max bkg)
  ∧ (∀ deltaRV,
       KpV.init h ccf planet deltaRV kp_radius vrest_max (Some 0)
       = KpV.init h ccf planet deltaRV kp_radius vrest_max None)
  ∧ (∀ bkg h' self,
       KpV.init h ccf planet (Some 0) kp_radius vrest_max bkg = Ok (h', self) →
       KpV.dRV self = CCF.dRV ccf)
  ∧ (∀ deltaRV h' self,
       KpV.init h ccf planet deltaRV kp_radius vrest_max (Some 0)
       = Ok (h', self) →
       KpV.bkg self = vrest_max * dec 60 2)
  ∧ (∀ deltaRV bkg h' self,
       KpV.init h ccf planet deltaRV kp_radius vrest_max bkg = Ok (h', self) →
       KpV.dRV self ≠ 0
       ∧ (KpV.bkg self = 0 → vrest_max * dec 60 2 = 0)).
Proof.
  split; [|split; [|split; [|split]]].
  - reflexivity.
  - reflexivity.
  - intros bkg h' self H.
    change (KpV.init h ccf planet (Some 0) kp_radius vrest_max bkg)
      with (KpV.init h ccf planet None kp_radius vrest_max bkg) in H.
    unfold KpV.init in H.
    step_bind H. destruct a as [h1 l]. step_bind H.
    step_bind H. step_bind H.
    injection H as _ <-. done.
  - intros deltaRV h' self H.
    change (KpV.init h ccf planet deltaRV kp_radius vrest_max (Some 0))
      with (KpV.init h ccf planet deltaRV kp_radius vrest_max None) in H.
    unfold KpV.init in H.
    step_bind H. destruct a as [h1 l]. step_bind H.
    step_bind H. step_bind H.
    injection H as _ <-. done.
  - intros deltaRV bkg h' self H. unfold KpV.init in H.
    step_bind H. destruct a as [h1 l]. step_bind H.
    step_bind H as Hk. step_bind H.
    injection H as _ <-. cbn. split.
    + intros H0. unfold np_arange in Hk. rewrite H0 in Hk.
      unfold Qc_eqb in Hk. by rewrite bool_decide_eq_true_2 in Hk.
    + unfold py_or, Qc_eqb. destruct bkg as [v|]; [|done].
      case_bool_decide; [done|]. intros ->. done.
Qed.

(** A mapper built with [deltaRV=0] and the threshold 1, and one built with
    the resolution 1/2 and [bkg=0]. *)
Lemma sample_init_zero :
  (λ _, ()) <$> KpV.init Sample.heap Sample.ccf_map2 1%positive (Some 0) 2 2
                  (Some 1)
  = Ok ()
  ∧ (λ _, ()) <$> KpV.init Sample.heap Sample.ccf_map2 1%positive
                    (Some (dec 5 1)) 2 2 (Some 0)
    = Ok ().
Proof. split; by_eval. Qed.

Lemma init_zero_is_default_witness :
  (∃ h' self,
     KpV.init Sample.heap Sample.ccf_map2 1%positive (Some 0) 2 2 (Some 1)
     = Ok (h', self)
     ∧ KpV.dRV self = CCF.dRV Sample.ccf_map2)
  ∧ (∃ h' self,
       KpV.init Sample.heap Sample.ccf_map2 1%positive (Some (dec 5 1)) 2 2
         (Some 0)
       = Ok (h', self)
       ∧ KpV.bkg self = 2 * dec 60 2).
Proof.
  pose proof sample_init_zero as [F G].
  pose proof (init_zero_is_default Sample.heap Sample.ccf_map2 1%positive 2 2)
    as (_ & _ & HdRV & Hbkg & _).
  split.
  - destruct (KpV.init Sample.heap Sample.ccf_map2 1%positive (Some 0) 2 2
                (Some 1)) as [[h' self]|e] eqn:E; [|discriminate F].
    exists h', self. split; [reflexivity|].
    exact (HdRV (Some 1) h' self E).
  - destruct (KpV.init Sample.heap Sample.ccf_map2 1%positive
                (Some (dec 5 1)) 2 2 (Some 0)) as [[h' self]|e] eqn:E;
      [|discriminate G].
    exists h', self. split; [reflexivity|].
    exact (Hbkg (Some (dec 5 1)) h' self E).
Defined.

(** ** The Kp-Vsys mapper: the ephemeris during [run] *)

Lemma deepcopy_fresh (h h1 : store) (l l' : loc) :
  deepcopy h l = Ok (h1, l') →
  h !! l' = None ∧ l' ≠ l ∧ ∃ p, h !! l = Some p ∧ h1 = <[l' := p]> h.
Proof.
  unfold deepcopy. destruct (h !! l) as [p|] eqn:Hl; [|done].
  intros [= <- <-].
  assert (h !! fresh (dom h) = None) as Hf.
  { apply not_elem_of_dom. apply is_fresh. }
  split; [done|]. split; [|eauto].
  intros Heq. rewrite Heq in Hf. by rewrite Hf in Hl.
Qed.

(** The constructor works on a copy of the planet: the object of the
    caller is not the one of the mapper, and it is left as it was. *)
Lemma init_copies_planet (h h1 : store) (ccf : CCF.t) (planet : loc)
    (deltaRV bkg : option Qc) (kp_radius vrest_max : Qc) (self : KpV.t) :
  KpV.init h ccf planet deltaRV kp_radius vrest_max bkg = Ok (h1, self) →
  KpV.planet self ≠ planet
  ∧ h !! KpV.planet self = None
  ∧ (∀ l, l ≠ KpV.planet self → h1 !! l = h !! l)
  ∧ ∃ p0 p, h !! planet = Some p0 ∧ h1 !! KpV.planet self = Some p
            ∧ Planet.Kp p = Planet.Kp p0.
Proof.
  intros H. unfold KpV.init in H.
  step_bind H as Hc. destruct a as [h0 l].
  apply deepcopy_fresh in Hc as (Hnew & Hne & p0 & Hp0 & ->).
  unfold deref in H. rewrite lookup_insert_eq in H. cbn in H.
  step_bind H. step_bind H. injection H as <- <-. cbn.
  split; [done|]. split; [done|]. split.
  - intros l' Hl'. destruct (CCF.frame ccf).
    + by rewrite !lookup_insert_ne.
    + by rewrite lookup_insert_ne.
  - exists p0. destruct (CCF.frame ccf).
    + eexists. split; [done|]. split; [apply lookup_insert_eq|done].
    + eexists. split; [done|]. split; [apply lookup_insert_eq|done].
Qed.

(** The loop of [run] writes [Kp] of the planet of the mapper and nothing
    else, and leaves it at the last trial value. *)
Lemma run_loop_store (self : KpV.t) (frames : list nat) (kps : list Qc)
    (h h' : store) (rows : matrix) (p0 : Planet.t) :
  KpV.run_loop self frames kps h = Ok (h', rows) →
  h !! KpV.planet self = Some p0 →
  (∀ l, l ≠ KpV.planet self → h' !! l = h !! l)
  ∧ ∃ p, h' !! KpV.planet self = Some p
         ∧ Planet.Kp p = default (Planet.Kp p0) (last kps).
Proof.
  revert h h' rows p0.
  induction kps as [|kp kps IH]; intros h h' rows p0 H Hp0.
  - cbn in H. injection H as <- <-. eauto.
  - cbn [KpV.run_loop] in H. unfold deref in H. rewrite Hp0 in H. cbn in H.
    step_bind H. step_bind H as Hl. destruct a0 as [h'' rows'].
    injection H as <- <-.
    eapply IH in Hl as (Hother & p & Hp & HKp);
      [|apply lookup_insert_eq].
    split.
    + intros l Hne. rewrite Hother by done. by rewrite lookup_insert_ne.
    + exists p. split; [done|]. rewrite HKp.
      destruct kps as [|kp' kps]; [done|]. rewrite last_cons_cons.
      destruct (last (kp' :: kps)) eqn:El; [done|].
      by apply last_None in El.
Qed.

(** C8 (amended): the assignments to [Kp] made by [run] go to the copy of
    the ephemeris that the constructor made.  The ephemeris of the caller,
    and every other object, is after [run] what it was before the mapper was
    built; the copy of the mapper is left with the last trial value
    [kpVec[-1]] as its [Kp]. *)
Theorem run_writes_Kp_of_own_copy (h h1 h2 : store) (ccf : CCF.t)
    (planet : loc) (deltaRV bkg : option Qc) (kp_radius vrest_max : Qc)
    (ignore_eclipse : bool) (self self' : KpV.t) :
  KpV.init h ccf planet deltaRV kp_radius vrest_max bkg = Ok (h1, self) →
  KpV.run h1 self ignore_eclipse = Ok (h2, self') →
  KpV.planet self ≠ planet
  ∧ h2 !! planet = h !! planet
  ∧ (∀ l, l ≠ KpV.planet self → h2 !! l = h !! l)
  ∧ ∃ p0, h !! planet = Some p0
          ∧ planet_Kp h2 (KpV.planet self)
            = Some (default (Planet.Kp p0) (last (KpV.kpVec self))).
Proof.
  intros Hinit Hrun.
  apply init_copies_planet in Hinit as (Hne & Hnew & Hother & p0 & p & Hp0 & Hp & HKp).
  unfold KpV.run, deref in Hrun. rewrite Hp in Hrun. cbn in Hrun.
  step_bind Hrun as Hl. destruct a as [h' m]. injection Hrun as <- <-.
  eapply run_loop_store in Hl as (Hother' & p' & Hp' & HKp'); [|done].
  split; [done|]. split; [|split].
  - rewrite Hother' by done. by apply Hother.
  - intros l Hl. rewrite Hother' by done. by apply Hother.
  - exists p0. split; [done|]. unfold planet_Kp. rewrite Hp'. cbn.
    by rewrite HKp', HKp.
Qed.

(** A session on the sample: a planet with [Kp = 5] and the trial values
    3, 4, 5, 6. *)
Lemma sample_session :
  Kp_around_run Sample.heap Sample.ccf_map2 1%positive None 2 2 None true
  = Ok (Some (qz 5), Some (qz 6), Some (qz 5)).
Proof. by_eval. Qed.

(** C8, counterexample: after [run] the planet of the mapper has [Kp = 6],
    the last trial value, where it had 5 before; the planet of the caller
    still has 5. *)
Lemma Kp_of_copy_persists :
  ¬ Kp_not_persisted Sample.heap Sample.ccf_map2 1%positive None 2 2 None true.
Proof.
  intros Hc. specialize (Hc _ _ _ sample_session).
  revert Hc. by_eval.
Qed.

Lemma run_writes_Kp_of_own_copy_witness :
  ∃ h1 self h2 self',
    KpV.init Sample.heap Sample.ccf_map2 1%positive None 2 2 None = Ok (h1, self)
    ∧ KpV.run h1 self true = Ok (h2, self')
    ∧ h2 !! 1%positive = Sample.heap !! 1%positive
    ∧ ∃ p0, Sample.heap !! 1%positive = Some p0
            ∧ planet_Kp h2 (KpV.planet self)
              = Some (default (Planet.Kp p0) (last (KpV.kpVec self))).
Proof.
  pose proof sample_session as F. unfold Kp_around_run in F.
  destruct (KpV.init Sample.heap Sample.ccf_map2 1%positive None 2 2 None)
    as [[h1 self]|e] eqn:E; [|discriminate F].
  cbn in F.
  destruct (KpV.run h1 self true) as [[h2 self']|e] eqn:E'; [|discriminate F].
  exists h1, self, h2, self'. split; [reflexivity|]. split; [exact E'|].
  destruct (run_writes_Kp_of_own_copy _ _ _ _ _ _ _ _ _ _ _ _ E E')
    as (_ & H1 & _ & H2).
  split; [exact H1|exact H2].
Defined.

(** ** The Kp-Vsys mapper: noise, baseline and SNR *)

Lemma select_agree {A} (mask : list bool) (r1 r2 : list A) :
  length r1 = length r2 →
  (∀ j, mask !! j = Some true → r1 !! j = r2 !! j) →
  select mask r1 = select mask r2.
Proof.
  revert r1 r2. induction mask as [|b mask IH]; intros r1 r2 Hlen H; [done|].
  destruct r1 as [|x1 r1], r2 as [|x2 r2]; try done.
  cbn [select]. injection Hlen as Hlen.
  assert (select mask r1 = select mask r2) as ->.
  { apply IH; [done|]. intros j Hj. apply (H (S j) Hj). }
  destruct b; [|done].
  specialize (H 0%nat eq_refl). cbn in H. by injection H as ->.
Qed.

Lemma map_select_agree (mask : list bool) (m1 m2 : matrix) :
  length m1 = length m2 →
  (∀ i r1 r2, m1 !! i = Some r1 → m2 !! i = Some r2 →
     length r1 = length r2
     ∧ ∀ j, mask !! j = Some true → r1 !! j = r2 !! j) →
  map (select mask) m1 = map (select mask) m2.
Proof.
  revert m2. induction m1 as [|r1 m1 IH]; intros m2 Hlen H;
    destruct m2 as [|r2 m2]; try done.
  cbn [map]. injection Hlen as Hlen. f_equal.
  - destruct (H 0%nat r1 r2 eq_refl eq_refl) as [Hl Hj].
    by apply select_agree.
  - apply IH; [done|]. intros i. apply (H (S i)).
Qed.

Section snr_properties.
Variable sqrt : Qc → Qc.

(** C2: the SNR surface is [(ccf_map - baseline) / noise], and [noise] and
    [baseline] are the same for two maps of the same mapper that agree on
    the columns with [|vrestVec| > bkg]. *)
Theorem snr_uses_background_only (self : KpV.t) (m1 m2 : matrix) :
  let self1 := KpV.set_ccf_map m1 self in
  let self2 := KpV.set_ccf_map m2 self in
  length m1 = length m2 →
  (∀ i r1 r2, m1 !! i = Some r1 → m2 !! i = Some r2 →
     length r1 = length r2
     ∧ ∀ j v, KpV.vrestVec self !! j = Some v → KpV.bkg self < Qcabs v →
         r1 !! j = r2 !! j) →
  KpV.snr sqrt self1
  = map (map (λ x, (x - KpV.baseline self1) / KpV.noise sqrt self1)) m1
  ∧ KpV.noise sqrt self1 = KpV.noise sqrt self2
  ∧ KpV.baseline self1 = KpV.baseline self2.
Proof.
  intros self1 self2 Hlen Hagree.
  assert (KpV.background self1 = KpV.background self2) as Hbg.
  { unfold KpV.background. f_equal. cbn.
    apply map_select_agree; [done|].
    intros i r1 r2 H1 H2. destruct (Hagree i r1 r2 H1 H2) as [Hl Hj].
    split; [done|]. intros j Hm. unfold KpV.noise_region in Hm.
    rewrite lookup_map in Hm. cbn in Hm.
    destruct (KpV.vrestVec self !! j) as [v|] eqn:Hv; [|done].
    cbn in Hm. injection Hm as Hm. unfold Qc_ltb in Hm.
    apply bool_decide_eq_true_1 in Hm. by apply (Hj j v). }
  split; [reflexivity|].
  unfold KpV.noise, KpV.baseline. by rewrite Hbg.
Qed.
End snr_properties.

Lemma snr_uses_background_only_witness :
  KpV.noise sqrt_floor Sample.kpv_tie = KpV.noise sqrt_floor Sample.kpv_peak
  ∧ KpV.baseline Sample.kpv_tie = KpV.baseline Sample.kpv_peak.
Proof.
  refine (proj2 (snr_uses_background_only sqrt_floor (Sample.grid [])
                   (KpV.ccf_map Sample.kpv_tie) (KpV.ccf_map Sample.kpv_peak)
                   eq_refl _)).
  intros i r1 r2 H1 H2.
  destruct i as [|[|[|[|i]]]]; cbn in H1, H2; try discriminate H1;
    injection H1 as <-; injection H2 as <-; (split; [reflexivity|]);
    intros j v Hj Hv;
    destruct j as [|[|[|j]]]; cbn in Hj; try discriminate Hj;
    try reflexivity;
    injection Hj as <-; exfalso; revert Hv; by_eval.
Defined.

(** ** The Kp-Vsys mapper: merging maps *)

Lemma zip_with_swap {A} (f : A → A → A) (a b c : list A) :
  (∀ x y z, f x (f y z) = f y (f x z)) →
  zip_with f a (zip_with f b c) = zip_with f b (zip_with f a c).
Proof.
  intros Hf. revert b c.
  induction a as [|x a IH]; intros [|y b] [|z c]; try done.
  cbn. by rewrite Hf, IH.
Qed.

Lemma madd_swap (a b c : matrix) : madd a (madd b c) = madd b (madd a c).
Proof.
  apply zip_with_swap. intros x y z. apply zip_with_swap.
  intros u v w. ring.
Qed.











Lemma shape_check_spec (m0 : matrix) (ms : list matrix) :
  m0 ∈ ms →
  forallb (λ m, bool_decide (map length m = map length m0)) ms = true
  ↔ one_shape ms.
Proof.
  intros H0. rewrite forallb_forall. split.
  - intros H a b Ha Hb.
    apply list_elem_of_In, H, bool_decide_eq_true_1 in Ha.
    apply list_elem_of_In, H, bool_decide_eq_true_1 in Hb. congruence.
  - intros H a Ha. apply bool_decide_eq_true_2, H; [|done].
    by apply list_elem_of_In.
Qed.

Lemma zeros_shape (a b : matrix) :
  map length a = map length b →
  map (map (λ _ : Qc, 0)) a = map (map (λ _ : Qc, 0)) b.
Proof.
  revert b. induction a as [|r a IH]; intros [|s b] H; try done.
  cbn in H. injection H as Hl H. cbn [map]. f_equal; [|by apply IH].
  clear -Hl. revert s Hl. induction r as [|x r IH]; intros [|y s] Hl; try done.
  cbn in Hl. injection Hl as Hl. cbn. f_equal. by apply IH.
Qed.

Lemma np_sum_axis0_perm (ms ms' : list matrix) :
  ms ≡ₚ ms' → np_sum_axis0 ms = np_sum_axis0 ms'.
Proof.
  intros Hp. unfold np_sum_axis0.
  destruct ms as [|m0 ms0] eqn:Ems, ms' as [|m0' ms0'] eqn:Ems'; [done| | |].
  - by apply Permutation_nil_cons in Hp.
  - symmetry in Hp. by apply Permutation_nil_cons in Hp.
  - rewrite <- Ems, <- Ems' in *.
    assert (m0 ∈ ms) as H0 by (rewrite Ems; left).
    assert (m0' ∈ ms') as H0' by (rewrite Ems'; left).
    assert (one_shape ms ↔ one_shape ms') as Hsh.
    { unfold one_shape. by setoid_rewrite Hp. }
    destruct (forallb _ ms) eqn:Hc.
    + apply shape_check_spec in Hc as Hone; [|done].
      assert (forallb (λ m, bool_decide (map length m = map length m0')) ms'
              = true) as ->.
      { apply shape_check_spec; [done|]. by apply Hsh. }
      f_equal. rewrite (zeros_shape m0 m0').
      * apply (foldr_permutation (=)); [apply _| |done].
        intros. apply madd_swap.
      * apply Hone; [done|]. by rewrite Hp.
    + destruct (forallb _ ms') eqn:Hc'; [|done].
      apply shape_check_spec in Hc'; [|done].
      apply Hsh, (shape_check_spec m0) in Hc'; [|done]. congruence.
Qed.








(** ** Frame alignment *)

Section align_properties.
Variable sqrt : Qc → Qc.
Variable bspline : list Qc → list Qc → Qc → Qc.

Lemma getitem_exn {A} (l : list A) (i : nat) (e : exn) :
  getitem l i = Raise e → e = IndexError.
Proof. unfold getitem. destruct (l !! i); [done|]. by intros [= <-]. Qed.

Lemma clipped_exn (self : Align.t) (j : nat) (e : exn) :
  Align.clipped sqrt self j = Raise e → e = IndexError.
Proof.
  unfold Align.clipped. intros H.
  repeat match type of H with
  | (getitem ?l ?i ≫= _) = Raise _ =>
      let E := fresh "E" in
      destruct (getitem l i) eqn:E; cbn in H;
        [|injection H as <-; by apply getitem_exn in E]
  end.
  done.
Qed.

(** C9 (amended): [get_shift] does not look at the number of valid points.
    With fewer than 4 of them it ends with the [TypeError] that [splrep]
    raises for too few points, and no input makes it raise a
    [DegenerateInputError]. *)
Theorem get_shift_too_few_points (self : Align.t) (j n : nat) :
  valid_points sqrt self j = Ok n →
  (n < 4)%nat →
  Align.get_shift sqrt bspline self j = Raise TypeError
  ∧ ∀ self' j',
      Align.get_shift sqrt bspline self' j' ≠ Raise DegenerateInputError.
Proof.
  intros Hn Hlt. split.
  - unfold valid_points in Hn. unfold Align.get_shift.
    destruct (Align.clipped sqrt self j) as [[[flux2 f] g]|] eqn:Hc; [|done].
    cbn in Hn. injection Hn as <-. cbn. unfold splrep.
    rewrite bool_decide_eq_true_2 by lia. done.
  - intros self' j' H. unfold Align.get_shift in H.
    destruct (Align.clipped sqrt self' j') as [[[flux2 f] g]|e] eqn:Hc;
      cbn in H.
    + unfold splrep in H. by destruct (bool_decide _).
    + injection H as ->. by apply clipped_exn in Hc.
Qed.
End align_properties.

(** C9, counterexample: three pixels are valid in both frames, and the
    exception is the [TypeError] of [splrep]. *)
Lemma too_few_points_not_signalled :
  valid_points sqrt_floor Sample.align 1 = Ok 3%nat
  ∧ Align.get_shift sqrt_floor broken_line Sample.align 1 = Raise TypeError
  ∧ ¬ degenerate_input_signalled sqrt_floor broken_line Sample.align 1.
Proof.
  assert (valid_points sqrt_floor Sample.align 1 = Ok 3%nat) as Hn by by_eval.
  assert (Align.get_shift sqrt_floor broken_line Sample.align 1
          = Raise TypeError) as Hg by (vm_compute; reflexivity).
  split; [done|]. split; [done|].
  intros H. specialize (H 3%nat Hn). rewrite Hg in H.
  assert (3 < 4)%nat as Hlt by lia. by specialize (H Hlt).
Qed.

Lemma get_shift_too_few_points_witness :
  Align.get_shift sqrt_floor broken_line Sample.align 1 = Raise TypeError.
Proof.
  refine (proj1 (get_shift_too_few_points sqrt_floor broken_line
                   Sample.align 1 3 _ _)).
  - vm_compute. reflexivity.
  - lia.
Defined.

(** ** Minimum, maximum and search in a 2-D array *)

Lemma Qc_min_spec (x y : Qc) :
  (Qc_min x y = x ∨ Qc_min x y = y) ∧ Qc_min x y ≤ x ∧ Qc_min x y ≤ y.
Proof.
  unfold Qc_min, Qc_leb. case_bool_decide as H.
  - split; [by left|]. split; [apply Qcle_refl|done].
  - split; [by right|]. split; [|apply Qcle_refl].
    apply Qclt_le_weak. by apply Qcnot_le_lt.
Qed.

Lemma Qc_max_spec (x y : Qc) :
  (Qc_max x y = x ∨ Qc_max x y = y) ∧ x ≤ Qc_max x y ∧ y ≤ Qc_max x y.
Proof.
  unfold Qc_max, Qc_leb. case_bool_decide as H.
  - split; [by right|]. split; [done|apply Qcle_refl].
  - split; [by left|]. split; [apply Qcle_refl|].
    apply Qclt_le_weak. by apply Qcnot_le_lt.
Qed.

Lemma np_min_spec (a : list Qc) (m : Qc) :
  np_min a = Ok m → m ∈ a ∧ ∀ x, x ∈ a → m ≤ x.
Proof.
  destruct a as [|x0 a]; [done|]. cbn. intros [= <-].
  induction a as [|y a [IHin IHle]]; cbn.
  - split; [left|]. intros x ->%list_elem_of_singleton. apply Qcle_refl.
  - destruct (Qc_min_spec y (foldr Qc_min x0 a)) as ([->| ->] & Hy & Hr).
    + split; [right; left|]. intros x Hx.
      apply elem_of_cons in Hx as [->|Hx]; [|apply elem_of_cons in Hx as [->|Hx]].
      * eapply Qcle_trans; [exact Hr|]. apply IHle. left.
      * apply Qcle_refl.
      * eapply Qcle_trans; [exact Hr|]. apply IHle. by right.
    + split.
      * apply elem_of_cons in IHin as [Heq|Hin]; [rewrite Heq; left|].
        right. by right.
      * intros x Hx.
        apply elem_of_cons in Hx as [->|Hx]; [|apply elem_of_cons in Hx as [->|Hx]].
        -- apply IHle. left.
        -- done.
        -- apply IHle. by right.
Qed.

Lemma np_max_spec (a : list Qc) (m : Qc) :
  np_max a = Ok m → m ∈ a ∧ ∀ x, x ∈ a → x ≤ m.
Proof.
  destruct a as [|x0 a]; [done|]. cbn. intros [= <-].
  induction a as [|y a [IHin IHle]]; cbn.
  - split; [left|]. intros x ->%list_elem_of_singleton. apply Qcle_refl.
  - destruct (Qc_max_spec y (foldr Qc_max x0 a)) as ([->| ->] & Hy & Hr).
    + split; [right; left|]. intros x Hx.
      apply elem_of_cons in Hx as [->|Hx]; [|apply elem_of_cons in Hx as [->|Hx]].
      * eapply Qcle_trans; [|exact Hr]. apply IHle. left.
      * apply Qcle_refl.
      * eapply Qcle_trans; [|exact Hr]. apply IHle. by right.
    + split.
      * apply elem_of_cons in IHin as [Heq|Hin]; [rewrite Heq; left|].
        right. by right.
      * intros x Hx.
        apply elem_of_cons in Hx as [->|Hx]; [|apply elem_of_cons in Hx as [->|Hx]].
        -- apply IHle. left.
        -- done.
        -- apply IHle. by right.
Qed.

Lemma np_min_is_Ok (a : list Qc) (x : Qc) : x ∈ a → ∃ m, np_min a = Ok m.
Proof. destruct a; [by intros ?%elem_of_nil|]. cbn. eauto. Qed.

Lemma np_max_is_Ok (a : list Qc) (x : Qc) : x ∈ a → ∃ m, np_max a = Ok m.
Proof. destruct a; [by intros ?%elem_of_nil|]. cbn. eauto. Qed.

(** The entries of the flattened array are the cells. *)
Lemma elem_of_concat_cell (s : matrix) (x : Qc) :
  x ∈ concat s ↔ ∃ i j, cell s i j = Some x.
Proof.
  unfold cell. rewrite list_elem_of_In, in_concat. split.
  - intros (row & Hrow & Hx).
    apply list_elem_of_In, list_elem_of_lookup in Hrow as [i Hi].
    apply list_elem_of_In, list_elem_of_lookup in Hx as [j Hj].
    exists i, j. by rewrite Hi.
  - intros (i & j & H). destruct (s !! i) as [row|] eqn:Hi; [|done].
    cbn in H. exists row. split; apply list_elem_of_In.
    + by eapply list_elem_of_lookup_2.
    + by eapply list_elem_of_lookup_2.
Qed.

Lemma cell_map_map (f : Qc → Qc) (s : matrix) (i j : nat) :
  cell (map (map f) s) i j = f <$> cell s i j.
Proof.
  unfold cell. rewrite lookup_map. destruct (s !! i); [|done].
  cbn. by rewrite lookup_map.
Qed.

Lemma lookup_assign {A} (mask : list bool) (v : A) (a : list A) (j : nat) :
  assign mask v a !! j
  = match mask !! j with
    | Some true => (λ _, v) <$> a !! j
    | _ => a !! j
    end.
Proof.
  revert a j. induction mask as [|b mask IH]; intros a j; [done|].
  destruct a as [|x a]; cbn [assign].
  - by destruct ((b :: mask) !! j) as [[]|].
  - destruct j as [|j]; cbn; [by destruct b|]. apply IH.
Qed.

Lemma cell_assign_cols (mask : list bool) (v : Qc) (s : matrix) (i j : nat) :
  cell (assign_cols mask v s) i j
  = match mask !! j with
    | Some true => (λ _, v) <$> cell s i j
    | _ => cell s i j
    end.
Proof.
  unfold cell, assign_cols. rewrite lookup_map.
  destruct (s !! i) as [row|]; cbn.
  - apply lookup_assign.
  - by destruct (mask !! j) as [[]|].
Qed.

Lemma cell_assign_rows (mask : list bool) (v : Qc) (s : matrix) (i j : nat) :
  cell (assign_rows mask v s) i j
  = match mask !! i with
    | Some true => (λ _, v) <$> cell s i j
    | _ => cell s i j
    end.
Proof.
  unfold cell. revert s i. induction mask as [|b mask IH]; intros s i; [done|].
  destruct s as [|row s]; cbn [assign_rows].
  - by destruct ((b :: mask) !! i) as [[]|].
  - destruct i as [|i]; cbn.
    + destruct b; [|done]. by rewrite lookup_map.
    + apply IH.
Qed.

Lemma elem_of_where_row (i j : nat) (row : list Qc) (v : Qc) (a b : nat) :
  (a, b) ∈ where_row i j row v
  ↔ a = i ∧ (j ≤ b)%nat ∧ row !! (b - j)%nat = Some v.
Proof.
  revert j. induction row as [|x row IH]; intros j; cbn [where_row].
  - split; [by intros ?%elem_of_nil|]. by intros (_ & _ & ?).
  - rewrite elem_of_app, IH. unfold Qc_eqb. split.
    + intros [H|(-> & Hle & Hl)].
      * case_bool_decide as Hx; [|by apply elem_of_nil in H].
        apply list_elem_of_singleton in H as [= -> ->].
        rewrite Nat.sub_diag. cbn. by rewrite Hx.
      * split; [done|]. split; [lia|].
        replace (b - j)%nat with (S (b - S j)) by lia. done.
    + intros (-> & Hle & Hl).
      destruct (decide (b = j)) as [->|Hne].
      * left. rewrite Nat.sub_diag in Hl. cbn in Hl. injection Hl as ->.
        rewrite bool_decide_eq_true_2 by done. left.
      * right. split; [done|]. split; [lia|].
        replace (b - j)%nat with (S (b - S j)) in Hl by lia. done.
Qed.

Lemma elem_of_where_from (i : nat) (s : matrix) (v : Qc) (a b : nat) :
  (a, b) ∈ where_from i s v
  ↔ (i ≤ a)%nat ∧ cell s (a - i) b = Some v.
Proof.
  unfold cell. revert i. induction s as [|row s IH]; intros i; cbn [where_from].
  - split; [by intros ?%elem_of_nil|]. by intros (_ & ?).
  - rewrite elem_of_app, elem_of_where_row, IH. split.
    + intros [(-> & _ & Hl)|(Hle & Hl)].
      * rewrite Nat.sub_diag. cbn. rewrite Nat.sub_0_r in Hl. done.
      * split; [lia|].
        replace (a - i)%nat with (S (a - S i)) by lia. done.
    + intros (Hle & Hl). destruct (decide (a = i)) as [->|Hne].
      * left. rewrite Nat.sub_diag in Hl. cbn in Hl.
        rewrite Nat.sub_0_r. split; [done|]. split; [lia|done].
      * right. split; [lia|].
        replace (a - i)%nat with (S (a - S i)) in Hl by lia. done.
Qed.

Lemma elem_of_where_eq (s : matrix) (v : Qc) (a b : nat) :
  (a, b) ∈ where_eq s v ↔ cell s a b = Some v.
Proof.
  unfold where_eq. rewrite elem_of_where_from, Nat.sub_0_r.
  split; [by intros [_ ?]|]. intros H. split; [lia|done].
Qed.

Lemma NoDup_where_row (i j : nat) (row : list Qc) (v : Qc) :
  NoDup (where_row i j row v).
Proof.
  revert j. induction row as [|x row IH]; intros j; cbn [where_row].
  - constructor.
  - destruct (Qc_eqb x v); cbn; [|apply IH].
    constructor; [|apply IH].
    rewrite elem_of_where_row. intros (_ & Hle & _). lia.
Qed.

Lemma NoDup_where_from (i : nat) (s : matrix) (v : Qc) :
  NoDup (where_from i s v).
Proof.
  revert i. induction s as [|row s IH]; intros i; cbn [where_from].
  - constructor.
  - apply NoDup_app. split; [apply NoDup_where_row|]. split; [|apply IH].
    intros [a b]. rewrite elem_of_where_row, elem_of_where_from.
    intros (-> & _) (Hle & _). lia.
Qed.

(** A list without repetition whose only possible element is [a]. *)
Lemma NoDup_singleton_eq {A} (l : list A) (a : A) :
  NoDup l → a ∈ l → (∀ y, y ∈ l → y = a) → l = [a].
Proof.
  intros Hnd Ha Hall. destruct l as [|x l]; [by apply elem_of_nil in Ha|].
  assert (x = a) as -> by (apply Hall; left).
  destruct l as [|y l]; [done|].
  assert (y = a) as -> by (apply Hall; right; left).
  apply NoDup_cons in Hnd as [Hn _]. exfalso. apply Hn. left.
Qed.

(** The single hit of a search. *)
Lemma where_eq_single (s : matrix) (v : Qc) (i j : nat) :
  cell s i j = Some v →
  (∀ a b, cell s a b = Some v → (a, b) = (i, j)) →
  where_eq s v = [(i, j)].
Proof.
  intros Hc Hu. apply NoDup_singleton_eq.
  - apply NoDup_where_from.
  - by apply elem_of_where_eq.
  - intros [a b] H. apply Hu. by apply elem_of_where_eq.
Qed.

(** ** The Kp-Vsys mapper: the default peak search *)

(** The two assignments of [snr_at_peak] on a surface [s]: the rows
    outside [kp_ok] are set to the minimum [m1] of [s], then the columns
    outside [dv_ok] to the minimum [m2] of the result. *)
Section clamp.
Variable s : matrix.
Variables kp_ok dv_ok : list bool.
Variables m1 m2 mx : Qc.
Abbreviation s1 := (clamp_rows kp_ok m1 s).
Abbreviation s2 := (clamp_cols dv_ok m2 s1).
Hypothesis Hm1 : np_min (concat s) = Ok m1.
Hypothesis Hm2 : np_min (concat s1) = Ok m2.
Hypothesis Hmx : np_max (concat s2) = Ok mx.

Lemma clamp_cell1 (i j : nat) :
  cell s1 i j
  = (λ x, if default true (kp_ok !! i) then x else m1) <$> cell s i j.
Proof.
  unfold clamp_rows. rewrite cell_assign_rows, lookup_map.
  destruct (kp_ok !! i) as [[]|]; cbn; by destruct (cell s i j).
Qed.

Lemma clamp_cell2 (i j : nat) :
  cell s2 i j
  = (λ x, if default true (dv_ok !! j) then x else m2) <$> cell s1 i j.
Proof.
  unfold clamp_cols. rewrite cell_assign_cols, lookup_map.
  destruct (dv_ok !! j) as [[]|]; cbn; by destruct (cell s1 i j).
Qed.

Lemma clamp_ge_m1 (a b : nat) (y : Qc) : cell s1 a b = Some y → m1 ≤ y.
Proof.
  rewrite clamp_cell1. destruct (cell s a b) as [x|] eqn:Hx; [|done].
  cbn. intros [= <-]. destruct (default true (kp_ok !! a)).
  - apply (np_min_spec _ _ Hm1), elem_of_concat_cell. eauto.
  - apply Qcle_refl.
Qed.

Lemma clamp_m1_le_m2 : m1 ≤ m2.
Proof.
  destruct (np_min_spec _ _ Hm2) as [Hin _].
  apply elem_of_concat_cell in Hin as (a & b & Hab).
  by apply (clamp_ge_m1 a b).
Qed.

Lemma clamp_ge_m2 (a b : nat) (y : Qc) : cell s2 a b = Some y → m2 ≤ y.
Proof.
  rewrite clamp_cell2. destruct (cell s1 a b) as [x|] eqn:Hx; [|done].
  cbn. intros [= <-]. destruct (default true (dv_ok !! b)).
  - apply (np_min_spec _ _ Hm2), elem_of_concat_cell. eauto.
  - apply Qcle_refl.
Qed.

Lemma clamp_le_mx (a b : nat) (y : Qc) : cell s2 a b = Some y → y ≤ mx.
Proof.
  intros H. apply (np_max_spec _ _ Hmx), elem_of_concat_cell. eauto.
Qed.

(** When the maximum sits on a cell outside the window, the whole
    surface is flat. *)
Lemma clamp_flat (i j : nat) :
  cell s2 i j = Some mx →
  kp_ok !! i = Some false ∨ dv_ok !! j = Some false →
  ∀ a b y, cell s2 a b = Some y → y = mx.
Proof.
  intros Hij Hout a b y Hy.
  apply Qcle_antisym; [by apply (clamp_le_mx a b)|].
  assert (mx = m2 ∨ mx = m1) as [-> | ->].
  { rewrite clamp_cell2, clamp_cell1 in Hij.
    destruct (cell s i j) as [x|]; [|done]. cbn in Hij.
    destruct (dv_ok !! j) as [[]|] eqn:Hdv; cbn in Hij.
    - destruct Hout as [Hk|?]; [|done]. rewrite Hk in Hij. cbn in Hij.
      injection Hij as <-. by right.
    - injection Hij as <-. by left.
    - destruct Hout as [Hk|?]; [|done]. rewrite Hk in Hij. cbn in Hij.
      injection Hij as <-. by right. }
  - by apply (clamp_ge_m2 a b).
  - eapply Qcle_trans; [apply clamp_m1_le_m2|]. by apply (clamp_ge_m2 a b).
Qed.

(** A cell of the window that is above every other cell of the window,
    and above some cell of the surface, is the only maximum. *)
Lemma clamp_unique_max (i j : nat) (x : Qc) :
  cell s i j = Some x →
  kp_ok !! i = Some true → dv_ok !! j = Some true →
  (∀ a b y, cell s a b = Some y →
     is_Some (kp_ok !! a) ∧ is_Some (dv_ok !! b)) →
  (∀ a b y, kp_ok !! a = Some true → dv_ok !! b = Some true →
     cell s a b = Some y → (a, b) ≠ (i, j) → y < x) →
  (∃ a b y, cell s a b = Some y ∧ y < x) →
  mx = x ∧ where_eq s2 mx = [(i, j)].
Proof.
  intros Hx Hk Hv Hfull Hbest (a0 & b0 & y0 & Hy0 & Hlt0).
  assert (m1 < x) as Hm1x.
  { eapply Qcle_lt_trans; [|exact Hlt0].
    apply (np_min_spec _ _ Hm1), elem_of_concat_cell. eauto. }
  assert (m2 < x) as Hm2x.
  { destruct (cell s1 a0 b0) as [z|] eqn:Hz.
    - eapply Qcle_lt_trans.
      + apply (np_min_spec _ _ Hm2), elem_of_concat_cell. eauto.
      + rewrite clamp_cell1, Hy0 in Hz. cbn in Hz. injection Hz as <-.
        by destruct (default true (kp_ok !! a0)).
    - by rewrite clamp_cell1, Hy0 in Hz. }
  assert (cell s2 i j = Some x) as Hx2.
  { by rewrite clamp_cell2, clamp_cell1, Hx, Hk, Hv. }
  assert (∀ a b y, cell s2 a b = Some y → (a, b) ≠ (i, j) → y < x) as Hlow.
  { intros a b y Hy Hne. rewrite clamp_cell2, clamp_cell1 in Hy.
    destruct (cell s a b) as [z|] eqn:Hz; [|done]. cbn in Hy.
    destruct (Hfull a b z Hz) as [[bk Hbk] [bv Hbv]].
    rewrite Hbk, Hbv in Hy. cbn in Hy. injection Hy as <-.
    destruct bv; [|done]. destruct bk; [|done]. by apply (Hbest a b). }
  assert (mx = x) as ->.
  { destruct (np_max_spec _ _ Hmx) as [Hin Hle].
    apply elem_of_concat_cell in Hin as (a & b & Hab).
    destruct (decide ((a, b) = (i, j))) as [[= -> ->]|Hne]; [congruence|].
    exfalso. apply (Qclt_not_le _ _ (Hlow a b mx Hab Hne)).
    apply Hle, elem_of_concat_cell. eauto. }
  split; [done|]. apply where_eq_single; [done|].
  intros a b Hab. destruct (decide ((a, b) = (i, j))) as [|Hne]; [done|].
  exfalso. by apply (Qclt_not_eq _ _ (Hlow a b x Hab Hne)).
Qed.
End clamp.

Lemma mask_kp_lookup (self : KpV.t) (i : nat) (b : bool) :
  mask_kp self !! i = Some b
  ↔ ∃ k, KpV.kpVec self !! i = Some k
         ∧ b = Qc_ltb (Qcabs (k - np_mean (KpV.kpVec self))) (qz 10).
Proof.
  unfold mask_kp. rewrite lookup_map.
  destruct (KpV.kpVec self !! i) as [k|]; cbn; split.
  - intros [= <-]. eauto.
  - by intros (k' & [= <-] & ->).
  - done.
  - by intros (k' & ? & _).
Qed.

Lemma mask_dv_lookup (self : KpV.t) (j : nat) (b : bool) :
  mask_dv self !! j = Some b
  ↔ ∃ v, KpV.vrestVec self !! j = Some v ∧ b = Qc_ltb (Qcabs v) (qz 5).
Proof.
  unfold mask_dv. rewrite lookup_map.
  destruct (KpV.vrestVec self !! j) as [v|]; cbn; split.
  - intros [= <-]. eauto.
  - by intros (v' & [= <-] & ->).
  - done.
  - by intros (v' & ? & _).
Qed.

Lemma in_window_masks (self : KpV.t) (i j : nat) :
  in_window self i j
  ↔ mask_kp self !! i = Some true ∧ mask_dv self !! j = Some true.
Proof.
  unfold in_window. rewrite mask_kp_lookup, mask_dv_lookup. unfold Qc_ltb.
  split.
  - intros (k & v & Hk & Hv & H1 & H2). split.
    + exists k. split; [done|]. symmetry. by apply bool_decide_eq_true_2.
    + exists v. split; [done|]. symmetry. by apply bool_decide_eq_true_2.
  - intros [(k & Hk & H1) (v & Hv & H2)]. exists k, v.
    symmetry in H1, H2.
    apply bool_decide_eq_true_1 in H1. apply bool_decide_eq_true_1 in H2.
    done.
Qed.

(** The cells of a map of the shape of the grid. *)
Lemma shape_ok_rows (self : KpV.t) :
  KpV.shape_ok self = true →
  length (KpV.ccf_map self) = length (KpV.kpVec self)
  ∧ Forall (λ r, length r = length (KpV.vrestVec self)) (KpV.ccf_map self).
Proof.
  unfold KpV.shape_ok. intros [Hr Hc]%andb_prop.
  apply bool_decide_eq_true_1 in Hr. split; [done|].
  rewrite Forall_forall. intros r Hin. rewrite forallb_forall in Hc.
  apply list_elem_of_In, Hc in Hin. by apply bool_decide_eq_true_1 in Hin.
Qed.

Lemma shape_ok_cell (self : KpV.t) (a b : nat) :
  KpV.shape_ok self = true →
  is_Some (cell (KpV.ccf_map self) a b)
  ↔ (a < length (KpV.kpVec self))%nat ∧ (b < length (KpV.vrestVec self))%nat.
Proof.
  intros [Hr Hc]%shape_ok_rows. rewrite Forall_forall in Hc.
  unfold cell. rewrite <- Hr. split.
  - intros [y Hy]. destruct (KpV.ccf_map self !! a) as [row|] eqn:Ha; [|done].
    cbn in Hy. split; [by eapply lookup_lt_Some|].
    rewrite <- (Hc row) by (by eapply list_elem_of_lookup_2).
    by eapply lookup_lt_Some.
  - intros [Ha Hb]. apply lookup_lt_is_Some_2 in Ha as [row Ha].
    rewrite Ha. cbn. apply lookup_lt_is_Some_2.
    by rewrite (Hc row) by (by eapply list_elem_of_lookup_2).
Qed.

Lemma length_select {A} (mask : list bool) (r : list A) :
  (length (select mask r) ≤ length r)%nat.
Proof.
  revert r. induction mask as [|b mask IH]; intros [|x r]; cbn; try lia.
  specialize (IH r). destruct b; cbn; lia.
Qed.

Lemma length_concat_select (mask : list bool) (m : matrix) (n : nat) :
  Forall (λ r, length r = n) m →
  (length (concat (map (select mask) m)) ≤ length m * n)%nat.
Proof.
  induction 1 as [|r m Hr _ IH]; cbn; [lia|].
  rewrite length_app. pose proof (length_select mask r). lia.
Qed.

Lemma np_var_singleton (c : Qc) : np_var [c] = 0.
Proof.
  unfold np_var, np_mean. cbn [map length].
  rewrite !np_sum_cons, !np_sum_nil, qn_S, qn_0. field. done.
Qed.

Section peak_search.
Variable sqrt : Qc → Qc.
Hypothesis sqrt_0 : sqrt 0 = 0.

Lemma cell_snr (self : KpV.t) (a b : nat) :
  cell (KpV.snr sqrt self) a b
  = (λ x, (x - KpV.baseline self) / KpV.noise sqrt self)
      <$> cell (KpV.ccf_map self) a b.
Proof. unfold KpV.snr. apply cell_map_map. Qed.

(** A grid with a single cell has no spread in its background. *)
Lemma single_cell_has_nan (self : KpV.t) (i j : nat) :
  KpV.shape_ok self = true →
  (∀ a b, is_Some (cell (KpV.ccf_map self) a b) → (a, b) = (i, j)) →
  KpV.snr_has_nan sqrt self = true.
Proof.
  intros Hshape Hone.
  assert (∀ a b, (a < length (KpV.kpVec self))%nat →
            (b < length (KpV.vrestVec self))%nat → (a, b) = (i, j)) as Hidx.
  { intros a b Ha Hb. by apply Hone, shape_ok_cell. }
  assert (length (KpV.kpVec self) * length (KpV.vrestVec self) ≤ 1)%nat as Hn.
  { destruct (le_lt_dec (length (KpV.kpVec self)
                         * length (KpV.vrestVec self)) 1) as [|Hgt]; [done|].
    exfalso.
    assert ((0, 0) = (i, j))%nat as [= <- <-] by (apply Hidx; lia).
    destruct (decide (2 ≤ length (KpV.kpVec self))%nat).
    - assert ((1, 0) = (0, 0))%nat by (apply Hidx; lia). done.
    - assert ((0, 1) = (0, 0))%nat by (apply Hidx; nia). done. }
  assert (length (KpV.background self) ≤ 1)%nat as Hb.
  { unfold KpV.background. etrans; [|exact Hn].
    apply shape_ok_rows in Hshape as [Hr Hc]. rewrite <- Hr.
    by apply length_concat_select. }
  unfold KpV.snr_has_nan, KpV.noise, KpV.np_std.
  destruct (KpV.background self) as [|c [|c' bg]]; [done| |cbn in Hb; lia].
  rewrite np_var_singleton, sqrt_0. unfold Qc_eqb.
  rewrite (bool_decide_eq_true_2 (Q2Qc 0 = Q2Qc 0)) by done.
  apply orb_true_r.
Qed.

(** The surface after the two assignments has a cell wherever the map
    has one. *)
Lemma clamped_cell_is_Some (self : KpV.t) (m1 m2 : Qc) (a b : nat) :
  is_Some (cell (KpV.ccf_map self) a b) →
  is_Some (cell (clamp_cols (mask_dv self) m2
                   (clamp_rows (mask_kp self) m1 (KpV.snr sqrt self))) a b).
Proof.
  intros [y Hy]. rewrite clamp_cell2, clamp_cell1, cell_snr, Hy. by eexists.
Qed.

(** Whatever the default search returns lies inside the window. *)
Lemma peak_in_window (self self' : KpV.t) :
  KpV.snr_at_peak sqrt self = Ok self' →
  ∃ i j k v x,
    self' = KpV.set_peak i j (v, k) x self
    ∧ in_window self i j
    ∧ KpV.kpVec self !! i = Some k ∧ KpV.vrestVec self !! j = Some v
    ∧ cell (KpV.snr sqrt self) i j = Some x.
Proof.
  intros H. unfold KpV.snr_at_peak in H.
  destruct (KpV.shape_ok self) eqn:Hshape; cbn [negb] in H; [|done].
  cbv zeta in H.
  step_bind H as Hm1 gives m1. step_bind H as Hm2 gives m2.
  step_bind H as Hmx gives mx.
  destruct (KpV.snr_has_nan sqrt self) eqn:Hnan; [done|].
  destruct (where_eq _ mx) as [|[i j] [|? ?]] eqn:Hw; try done.
  step_bind H as Hv gives v. step_bind H as Hk gives k.
  step_bind H as Hrow gives row. step_bind H as Hx gives x.
  injection H as <-.
  apply getitem_Ok in Hv, Hk, Hrow, Hx.
  exists i, j, k, v, x. split; [done|].
  assert (cell (KpV.snr sqrt self) i j = Some x) as Hcell.
  { unfold cell. by rewrite Hrow. }
  split; [|done].
  apply in_window_masks.
  pose proof (proj2 (mask_kp_lookup self i _) (ex_intro _ k (conj Hk eq_refl)))
    as Hmk.
  pose proof (proj2 (mask_dv_lookup self j _) (ex_intro _ v (conj Hv eq_refl)))
    as Hmv.
  destruct (Qc_ltb (Qcabs (k - np_mean (KpV.kpVec self))) (qz 10)) eqn:Bk,
           (Qc_ltb (Qcabs v) (qz 5)) eqn:Bv; [done| | |]; exfalso.
  all: assert (KpV.snr_has_nan sqrt self = true) as Hn;
    [|by rewrite Hn in Hnan].
  all: apply (single_cell_has_nan self i j Hshape); intros a b Hab.
  all: apply (clamped_cell_is_Some self m1 m2) in Hab as [y Hy].
  all: assert (y = mx) as ->;
    [|apply (elem_of_where_eq _ mx) in Hy; unfold mask_kp, mask_dv in Hy;
      rewrite Hw in Hy; by apply list_elem_of_singleton in Hy].
  all: refine (clamp_flat (KpV.snr sqrt self) (mask_kp self) (mask_dv self)
                 m1 m2 mx Hm1 Hm2 Hmx i j _ _ a b y Hy);
    [apply elem_of_where_eq; unfold mask_kp, mask_dv; rewrite Hw; left|auto].
Qed.

(** A cell of the window that is strictly above every other cell of the
    window, and above some cell of the surface, is what the default search
    returns. *)
Lemma peak_found (self : KpV.t) (i j : nat) (k v x : Qc) :
  KpV.shape_ok self = true →
  KpV.snr_has_nan sqrt self = false →
  KpV.kpVec self !! i = Some k → KpV.vrestVec self !! j = Some v →
  Qcabs (k - np_mean (KpV.kpVec self)) < qz 10 → Qcabs v < qz 5 →
  cell (KpV.snr sqrt self) i j = Some x →
  (∀ a b y, in_window self a b → cell (KpV.snr sqrt self) a b = Some y →
     (a, b) ≠ (i, j) → y < x) →
  (∃ a b y, cell (KpV.snr sqrt self) a b = Some y ∧ y < x) →
  KpV.snr_at_peak sqrt self = Ok (KpV.set_peak i j (v, k) x self).
Proof.
  intros Hshape Hnan Hk Hv Hwk Hwv Hx Hbest Hlow.
  assert (in_window self i j) as Hin by (exists k, v; done).
  apply in_window_masks in Hin as [Hmk Hmv].
  destruct (np_min_is_Ok (concat (KpV.snr sqrt self)) x) as [m1 Hm1].
  { apply elem_of_concat_cell. eauto. }
  set (s1 := clamp_rows (mask_kp self) m1 (KpV.snr sqrt self)).
  assert (cell s1 i j = Some x) as Hx1.
  { unfold s1. by rewrite clamp_cell1, Hx, Hmk. }
  destruct (np_min_is_Ok (concat s1) x) as [m2 Hm2].
  { apply elem_of_concat_cell. eauto. }
  set (s2 := clamp_cols (mask_dv self) m2 s1).
  assert (cell s2 i j = Some x) as Hx2.
  { unfold s2, s1. by rewrite clamp_cell2, clamp_cell1, Hx, Hmk, Hmv. }
  destruct (np_max_is_Ok (concat s2) x) as [mx Hmx].
  { apply elem_of_concat_cell. eauto. }
  destruct (clamp_unique_max (KpV.snr sqrt self) (mask_kp self) (mask_dv self)
              m1 m2 mx Hm1 Hm2 Hmx i j x Hx Hmk Hmv) as [-> Hw].
  - intros a b y Hy. rewrite cell_snr in Hy.
    assert (is_Some (cell (KpV.ccf_map self) a b)) as Hs.
    { destruct (cell (KpV.ccf_map self) a b); [by eexists|done]. }
    apply shape_ok_cell in Hs as [Ha Hb]; [|done]. unfold mask_kp, mask_dv.
    rewrite !lookup_map. split.
    + apply lookup_lt_is_Some_2 in Ha as [? ->]. by eexists.
    + apply lookup_lt_is_Some_2 in Hb as [? ->]. by eexists.
  - intros a b y Ha Hb Hy Hne. apply (Hbest a b); [|done|done].
    by apply in_window_masks.
  - done.
  - subst s2 s1. unfold KpV.snr_at_peak. rewrite Hshape. cbn [negb]. cbv zeta.
    fold (mask_kp self) (mask_dv self).
    rewrite Hm1. cbn [mbind result_bind].
    rewrite Hm2. cbn [mbind result_bind].
    rewrite Hmx. cbn [mbind result_bind].
    rewrite Hnan, Hw.
    rewrite (proj2 (getitem_Ok _ _ _) Hv). cbn [mbind result_bind].
    rewrite (proj2 (getitem_Ok _ _ _) Hk). cbn [mbind result_bind].
    unfold cell in Hx.
    destruct (KpV.snr sqrt self !! i) as [row|] eqn:Hrow; [|done]. cbn in Hx.
    rewrite (proj2 (getitem_Ok _ _ _) Hrow). cbn [mbind result_bind].
    rewrite (proj2 (getitem_Ok _ _ _) Hx). done.
Qed.
End peak_search.

(** The default search never returns a grid point outside the window
    [|Kp - mean(kpVec)| < 10], [|Vrest| < 5]; and when a cell of the window
    is strictly above the other cells of the window and above some cell of
    the surface, the search returns that cell, whatever the values outside
    the window are. *)
Lemma default_peak_in_window (sqrt : Qc → Qc) (self : KpV.t) :
  sqrt 0 = 0 →
  (∀ self', KpV.snr_at_peak sqrt self = Ok self' →
     ∃ i j k v,
       KpV.ind self' = Some (i, j) ∧ KpV.peak_pos self' = Some (v, k)
       ∧ KpV.kpVec self !! i = Some k ∧ KpV.vrestVec self !! j = Some v
       ∧ in_window self i j)
  ∧ (∀ i j x,
       KpV.shape_ok self = true →
       KpV.snr_has_nan sqrt self = false →
       in_window self i j →
       cell (KpV.snr sqrt self) i j = Some x →
       (∀ a b y, in_window self a b →
          cell (KpV.snr sqrt self) a b = Some y → (a, b) ≠ (i, j) → y < x) →
       (∃ a b y, cell (KpV.snr sqrt self) a b = Some y ∧ y < x) →
       ∃ self', KpV.snr_at_peak sqrt self = Ok self'
                ∧ KpV.ind self' = Some (i, j) ∧ KpV.peak_snr self' = Some x).
Proof.
  intros sqrt_0. split.
  - intros self' H.
    apply (peak_in_window sqrt sqrt_0) in H
      as (i & j & k & v & x & -> & Hin & Hk & Hv & _).
    by exists i, j, k, v.
  - intros i j x Hshape Hnan (k & v & Hk & Hv & Hwk & Hwv) Hx Hbest Hlow.
    eexists. split; [by apply (peak_found sqrt self i j k v x)|done].
Qed.

(** C3: on the surface [Sample.kpv_tie] the SNR is the map itself.  The
    two cells of the window, at [Kp = 90] and [Kp = 100] with [Vrest = 0],
    both hold 2, the largest value of the window (a 9 lies outside).  The
    clamped surface then reaches its maximum twice, [np.where] has two hits
    and [int(indh)] raises [TypeError]: no grid point is returned. *)
Theorem default_peak_tie_raises :
  KpV.snr sqrt_floor Sample.kpv_tie = KpV.ccf_map Sample.kpv_tie
  ∧ in_window Sample.kpv_tie 1 1 ∧ in_window Sample.kpv_tie 2 1
  ∧ cell (KpV.snr sqrt_floor Sample.kpv_tie) 1 1 = Some 2
  ∧ cell (KpV.snr sqrt_floor Sample.kpv_tie) 2 1 = Some 2
  ∧ (∀ a b y, in_window Sample.kpv_tie a b →
       cell (KpV.snr sqrt_floor Sample.kpv_tie) a b = Some y → y ≤ 2)
  ∧ KpV.snr_at_peak sqrt_floor Sample.kpv_tie = Raise TypeError
  ∧ ¬ peak_always_found sqrt_floor Sample.kpv_tie.
Proof.
  assert (KpV.snr_at_peak sqrt_floor Sample.kpv_tie = Raise TypeError) as Hr
    by (vm_compute; reflexivity).
  split; [by_eval|].
  split; [exists (qz 90), 0; repeat split; by_eval|].
  split; [exists (qz 100), 0; repeat split; by_eval|].
  split; [by_eval|]. split; [by_eval|]. split; [|split; [exact Hr|]].
  - intros a b y Hw Hc.
    destruct a as [|[|[|[|a]]]]; destruct b as [|[|[|b]]];
      vm_compute in Hc; try discriminate Hc; injection Hc as <-;
      first
        [ by_eval
        | destruct Hw as (k & v & Hk & Hv & H1 & H2); cbn in Hk, Hv;
          injection Hk as <-; injection Hv as <-; exfalso;
          first [ revert H1; by_eval | revert H2; by_eval ] ].
  - intros (self' & i & j & H & _). rewrite Hr in H. discriminate H.
Qed.

Lemma default_peak_in_window_witness :
  ∃ self', KpV.snr_at_peak sqrt_floor Sample.kpv_peak = Ok self'
           ∧ KpV.ind self' = Some (1, 1)%nat
           ∧ KpV.peak_snr self' = Some (qz 3).
Proof.
  assert (sqrt_floor 0 = 0) as H0 by by_eval.
  apply (proj2 (default_peak_in_window sqrt_floor Sample.kpv_peak H0)
           1%nat 1%nat (qz 3)).
  - vm_compute. reflexivity.
  - vm_compute. reflexivity.
  - exists (qz 90), 0. repeat split; by_eval.
  - by_eval.
  - intros a b y Hw Hc Hne.
    destruct a as [|[|[|[|a]]]]; destruct b as [|[|[|b]]];
      vm_compute in Hc; try discriminate Hc; try (by destruct Hne);
      injection Hc as <-;
      first
        [ by_eval
        | destruct Hw as (k & v & Hk & Hv & H1 & H2); cbn in Hk, Hv;
          injection Hk as <-; injection Hv as <-; exfalso;
          first [ revert H1; by_eval | revert H2; by_eval ] ].
  - exists 0%nat, 0%nat, 1. split; by_eval.
Defined.

(** * Further properties *)

(** ** Results of comprehensions *)

Lemma for_each_length {A B} (f : A → result B) (l : list A) (r : list B) :
  for_each f l = Ok r → length r = length l.
Proof.
  revert r. induction l as [|x l IH]; intros r H; cbn in H.
  - by injection H as <-.
  - step_bind H. step_bind H as El gives ys. injection H as <-.
    cbn. f_equal. by apply IH.
Qed.

Lemma for_each_Ok_iff {A B} (f : A → result B) (l : list A) (r : list B) :
  for_each f l = Ok r ↔ Forall2 (λ x y, f x = Ok y) l r.
Proof.
  revert r. induction l as [|x l IH]; intros r; cbn.
  - split; [intros [= <-]; constructor|by inversion 1].
  - split.
    + intros H. step_bind H as Ex gives y. step_bind H as El gives ys.
      injection H as <-. constructor; [done|]. by apply IH.
    + inversion 1 as [|? y ? ys Hx Hl]; subst. rewrite Hx. cbn.
      apply IH in Hl. by rewrite Hl.
Qed.

Lemma for_each_perm {A B} (f : A → result B) (l l' : list A) (r : list B) :
  for_each f l = Ok r → l ≡ₚ l' →
  ∃ r', for_each f l' = Ok r' ∧ r ≡ₚ r'.
Proof.
  intros Hr Hp. revert r Hr.
  induction Hp as [|x l l' Hp IH|x y l|l l' l'' Hp IH Hp' IH']; intros r Hr.
  - exists r. by split.
  - cbn in Hr. step_bind Hr as Ex gives y. step_bind Hr as El gives ys.
    injection Hr as <-. destruct (IH ys eq_refl) as (ys' & Hys & Hperm).
    exists (y :: ys'). cbn. rewrite Ex. cbn. rewrite Hys. cbn.
    split; [done|]. by constructor.
  - cbn in Hr. step_bind Hr as Ey gives v. step_bind Hr as Exl gives r1.
    step_bind Exl as Ex gives u. step_bind Exl as El gives ys.
    injection Exl as <-. injection Hr as <-.
    exists (u :: v :: ys). cbn. rewrite Ex. cbn. rewrite Ey. cbn.
    rewrite El. cbn. split; [done|]. constructor.
  - destruct (IH r Hr) as (r1 & H1 & Hp1).
    destruct (IH' r1 H1) as (r2 & H2 & Hp2).
    exists r2. split; [done|]. by etrans.
Qed.

(** ** The cross-correlation engine: shape, errors and coverage *)

(** Values are only interpolated between the least and the greatest
    knot, in whatever order the knots are given. *)
Lemma interp1d_Ok_range (xs ys : list Qc) (x y : Qc) :
  interp1d xs ys x = Ok y →
  ∃ lo hi, np_min xs = Ok lo ∧ np_max xs = Ok hi ∧ lo ≤ x ∧ x ≤ hi.
Proof.
  unfold interp1d. destruct (negb _); [done|].
  destruct (sort_knots xs ys) as [|[x0 y0] k] eqn:Hk; [done|].
  destruct (Qc_ltb x x0) eqn:H1; [done|].
  destruct (Qc_ltb (List.last (map fst k) x0) x) eqn:H2; [done|].
  intros _. unfold Qc_ltb in H1, H2.
  apply bool_decide_eq_false_1, Qcnot_lt_le in H1.
  apply bool_decide_eq_false_1, Qcnot_lt_le in H2.
  destruct (sort_knots_ends xs ys x0 y0 k Hk) as [Hx0 Hxl].
  destruct (np_min_is_Ok xs x0 Hx0) as [lo Hlo].
  destruct (np_max_is_Ok xs x0 Hx0) as [hi Hhi].
  exists lo, hi. split; [done|]. split; [done|]. split.
  - eapply Qcle_trans; [|exact H1]. by apply (np_min_spec xs lo Hlo).
  - eapply Qcle_trans; [exact H2|]. by apply (np_max_spec xs hi Hhi).
Qed.

Section ccf_more.
Variable crop : Template.t → Qc → Qc → Qc → Template.t.
Variable bspline : list Qc → list Qc → Qc → Qc.

(** X1: for a grid of at least one trial velocity, the map of a single
    order has one row per frame and one column per trial velocity. *)
Theorem cross_correlation_shape (self : CCF.t) (dco : Datacube.t)
    (noise : string) (m : matrix) :
  CCF.rv self ≠ [] →
  CCF.cross_correlation crop bspline self dco noise = Ok m →
  length m = length (Datacube.flux dco)
  ∧ Forall (λ row, length row = length (CCF.rv self)) m.
Proof.
  intros _ H. unfold CCF.cross_correlation in H.
  step_bind H as Hg gives g. step_bind H as Hn gives w. injection H as <-.
  assert (length g = length (CCF.rv self)) as Hlen.
  { unfold CCF.shifted_template in Hg. step_bind Hg as Ht gives temp.
    apply for_each_length in Hg. unfold CCF.beta in Hg.
    by rewrite length_map in Hg. }
  unfold np_dot_T. split.
  - rewrite length_map. unfold CCF.centered_flux, CCF.usable_flux.
    destruct w; cbn; by rewrite !length_map.
  - rewrite Forall_forall. intros row Hrow.
    rewrite map_fmap in Hrow. apply list_elem_of_fmap in Hrow as (fi & -> & _).
    by rewrite length_map.
Qed.


(** X3: with linear interpolation a map is only produced when every
    wavelength of the data, shifted by every trial velocity, lies between
    the least and the greatest wavelength of the cropped template. *)
Theorem cross_correlation_needs_coverage (self : CCF.t) (dco : Datacube.t)
    (noise : string) (m : matrix) (w v : Qc) :
  CCF.spline self = false →
  CCF.cross_correlation crop bspline self dco noise = Ok m →
  w ∈ CCF.usable_wave dco → v ∈ CCF.rv self →
  ∃ temp lo hi,
    CCF.cropped_template crop self dco = Ok temp
    ∧ np_min (Template.wlt temp) = Ok lo ∧ np_max (Template.wlt temp) = Ok hi
    ∧ lo ≤ w * (1 - v / CCF.c) ∧ w * (1 - v / CCF.c) ≤ hi.
Proof.
  intros Hs H Hw Hv. unfold CCF.cross_correlation in H.
  step_bind H as Hg gives g. clear H.
  unfold CCF.shifted_template in Hg. step_bind Hg as Ht gives temp.
  exists temp.
  apply list_elem_of_lookup in Hv as [k Hk].
  assert (CCF.beta self !! k = Some (1 - v / CCF.c)) as Hb.
  { unfold CCF.beta. by rewrite lookup_map, Hk. }
  destruct (for_each_lookup _ _ _ _ _ Hg Hb) as (row & Hrow & _).
  unfold CCF.shifted_row in Hrow. rewrite Hs in Hrow.
  apply list_elem_of_lookup in Hw as [j Hj].
  destruct (for_each_lookup _ _ _ _ _ Hrow Hj) as (y & Hy & _).
  apply interp1d_Ok_range in Hy as (lo & hi & ? & ? & ? & ?).
  by exists lo, hi.
Qed.
End ccf_more.

(** ** The resolution of a grid of trial velocities *)

Lemma np_diff_telescope (x0 xl : Qc) (a : list Qc) :
  last (x0 :: a) = Some xl →
  np_sum (np_diff (x0 :: a)) = xl - x0
  ∧ length (np_diff (x0 :: a)) = length a.
Proof.
  revert x0. induction a as [|x1 a IH]; intros x0 Hl.
  - cbn in Hl. injection Hl as <-. cbn [np_diff]. rewrite np_sum_nil.
    split; [ring|done].
  - rewrite last_cons_cons in Hl. destruct (IH x1 Hl) as [Hs Hn].
    cbn [np_diff]. cbn [np_diff] in Hs, Hn.
    rewrite np_sum_cons. cbn [length]. rewrite Hn. split; [|done].
    rewrite Hs. ring.
Qed.

(** X4: for a grid of at least two trial velocities, the resolution [dRV]
    that the constructor derives from the grid is the span of the grid (its
    last value less its first) over the number of its steps; when the grid
    was made by [np.arange] it is the step of the grid. *)
Theorem dRV_of_grid (rv : list Qc) (template : Template.t) (flux : matrix) :
  (2 ≤ length rv)%nat →
  (∀ x0 xl, head rv = Some x0 → last rv = Some xl →
     CCF.dRV (CCF.init rv template flux) = (xl - x0) / qn (length rv - 1))
  ∧ (∀ start stop step, np_arange start stop step = Ok rv →
       CCF.dRV (CCF.init rv template flux) = step).
Proof.
  intros Hn.
  assert (∀ x0 xl, head rv = Some x0 → last rv = Some xl →
            CCF.dRV (CCF.init rv template flux)
            = (xl - x0) / qn (length rv - 1)) as Hspan.
  { intros x0 xl Hh Hl. destruct rv as [|x rv']; [done|].
    cbn in Hh. injection Hh as ->. cbn [CCF.init CCF.dRV].
    destruct (np_diff_telescope x0 xl rv' Hl) as [Hs Hlen].
    unfold np_mean. rewrite Hs, Hlen. cbn [length].
    do 2 f_equal. lia. }
  split; [done|]. intros start stop step Hrv.
  unfold np_arange in Hrv. destruct (Qc_eqb step 0); [done|].
  injection Hrv as Hrv.
  set (n := Z.to_nat (Qceiling ((stop - start) / step))) in *.
  assert (length rv = n) as Hlen.
  { by rewrite <- Hrv, length_map, length_seq. }
  clearbody n.
  assert (2 ≤ n)%nat as Hn2 by (rewrite <- Hlen; exact Hn).
  rewrite (Hspan (start + qn 0 * step) (start + qn (n - 1) * step)).
  - rewrite Hlen, qn_0. field. apply qn_nonzero. lia.
  - rewrite <- Hrv. destruct n as [|n']; [lia|]. done.
  - rewrite last_lookup, Hlen, <- Hrv, lookup_map.
    rewrite lookup_seq_lt by (clear -Hn2; lia). cbn. do 4 f_equal.
    clear -Hn2. lia.
Qed.

Lemma dRV_of_grid_witness :
  CCF.dRV (CCF.init [-1; 0; 1; qz 3] Sample.template [])
  = (qz 3 - -1) / qn (4 - 1)
  ∧ CCF.dRV (CCF.init [-1; 0; 1; 2] Sample.template []) = 1.
Proof.
  split.
  - refine (proj1 (dRV_of_grid [-1; 0; 1; qz 3] Sample.template [] _)
              (-1) (qz 3) _ _); [cbn; lia|reflexivity..].
  - refine (proj2 (dRV_of_grid [-1; 0; 1; 2] Sample.template [] _)
              (-1) (dec 25 1) 1 _); [cbn; lia|by_eval].
Defined.

Lemma sample_cross_correlation :
  (λ _, ()) <$> CCF.cross_correlation crop_margin broken_line Sample.ccf
                  Sample.dco "var"
  = Ok ().
Proof. by_eval. Qed.

Lemma cross_correlation_shape_witness :
  ∃ m, CCF.cross_correlation crop_margin broken_line Sample.ccf Sample.dco "var"
       = Ok m
       ∧ length m = 2%nat ∧ Forall (λ row, length row = 3%nat) m.
Proof.
  pose proof sample_cross_correlation as F.
  destruct (CCF.cross_correlation crop_margin broken_line Sample.ccf
              Sample.dco "var") as [m|e] eqn:E; [|discriminate F].
  exists m. split; [reflexivity|].
  apply (cross_correlation_shape crop_margin broken_line Sample.ccf
           Sample.dco "var" m); [discriminate|exact E].
Defined.


Lemma cross_correlation_needs_coverage_witness :
  ∃ temp lo hi,
    CCF.cropped_template crop_margin Sample.ccf Sample.dco = Ok temp
    ∧ np_min (Template.wlt temp) = Ok lo ∧ np_max (Template.wlt temp) = Ok hi
    ∧ lo ≤ qz 3 * (1 - qz 29980 / CCF.c)
    ∧ qz 3 * (1 - qz 29980 / CCF.c) ≤ hi.
Proof.
  pose proof sample_cross_correlation as F.
  destruct (CCF.cross_correlation crop_margin broken_line Sample.ccf
              Sample.dco "var") as [m|e] eqn:E; [|discriminate F].
  apply (cross_correlation_needs_coverage crop_margin broken_line Sample.ccf
           Sample.dco "var" m (qz 3) (qz 29980) eq_refl E).
  - do 2 right. left.
  - do 2 right. left.
Defined.

(** ** The map of several orders *)

Lemma zip_with_plus_zeros (row : list Qc) :
  zip_with Qcplus row (map (λ _, 0) row) = row.
Proof.
  induction row as [|x row IH]; [done|].
  cbn. rewrite IH. f_equal. ring.
Qed.

Lemma madd_zeros (m : matrix) : madd m (map (map (λ _, 0)) m) = m.
Proof.
  unfold madd. induction m as [|row m IH]; [done|].
  cbn. by rewrite IH, zip_with_plus_zeros.
Qed.

Lemma np_sum_axis0_single (m : matrix) : np_sum_axis0 [m] = Ok m.
Proof.
  unfold np_sum_axis0. cbn [forallb].
  rewrite bool_decide_eq_true_2 by done. cbn. by rewrite madd_zeros.
Qed.

Section ccf_run.
Variable crop : Template.t → Qc → Qc → Qc → Template.t.
Variable bspline : list Qc → list Qc → Qc → Qc.

(** X5: the map of a cube of several orders does not depend on the order in
    which the orders are stored: any rearrangement of them gives the same
    result. *)
Theorem run_any_order_of_orders (self r : CCF.t) (d d' : Datacube.t)
    (ds ds' : list Datacube.t) (dc_frame noise : string) :
  d :: ds ≡ₚ d' :: ds' →
  CCF.run crop bspline self (CCF.Orders d ds) dc_frame noise = Ok r →
  CCF.run crop bspline self (CCF.Orders d' ds') dc_frame noise = Ok r.
Proof.
  intros Hp H. unfold CCF.run in *.
  step_bind H as Hf gives flux. step_bind Hf as Ho gives output.
  destruct (for_each_perm _ _ _ _ Ho Hp) as (output' & Ho' & Hperm).
  rewrite Ho'. cbn. rewrite <- (np_sum_axis0_perm _ _ Hperm), Hf. exact H.
Qed.

(** A cube with a single order gives the map of that order: summing over
    the orders changes nothing when there is one. *)
Lemma run_single_order (self : CCF.t) (d : Datacube.t)
    (dc_frame noise : string) :
  CCF.run crop bspline self (CCF.Orders d []) dc_frame noise
  = CCF.run crop bspline self (CCF.Order d) dc_frame noise.
Proof.
  unfold CCF.run. cbn [for_each].
  destruct (CCF.cross_correlation crop bspline self d noise) as [m|e]; [|done].
  cbn -[np_sum_axis0]. by rewrite np_sum_axis0_single.
Qed.
End ccf_run.

Lemma sample_run_orders :
  (λ _, ()) <$> CCF.run crop_margin broken_line Sample.ccf
                  (CCF.Orders Sample.dco [Sample.dco_shifted]) "telluric" "var"
  = Ok ().
Proof. by_eval. Qed.

Lemma run_any_order_of_orders_witness :
  ∃ r, CCF.run crop_margin broken_line Sample.ccf
         (CCF.Orders Sample.dco [Sample.dco_shifted]) "telluric" "var" = Ok r
       ∧ CCF.run crop_margin broken_line Sample.ccf
           (CCF.Orders Sample.dco_shifted [Sample.dco]) "telluric" "var" = Ok r.
Proof.
  pose proof sample_run_orders as F.
  destruct (CCF.run crop_margin broken_line Sample.ccf
              (CCF.Orders Sample.dco [Sample.dco_shifted]) "telluric" "var")
    as [r|e] eqn:E; [|discriminate F].
  exists r. split; [reflexivity|].
  apply (run_any_order_of_orders crop_margin broken_line Sample.ccf r
           Sample.dco Sample.dco_shifted [Sample.dco_shifted] [Sample.dco]
           "telluric" "var"); [apply perm_swap|exact E].
Defined.

(** ** Sorted knots *)

Lemma sorted_lookup_lt (l : list Qc) (i j : nat) (x y : Qc) :
  StronglySorted Qclt l → l !! i = Some x → l !! j = Some y → (i < j)%nat →
  x < y.
Proof.
  intros Hs. revert i j.
  induction Hs as [|a l Hs IH Hall]; intros i j Hi Hj Hlt; [done|].
  destruct j as [|j]; [lia|]. cbn in Hj.
  destruct i as [|i]; cbn in Hi.
  - injection Hi as <-. rewrite Forall_forall in Hall. apply Hall.
    by eapply list_elem_of_lookup_2.
  - apply (IH i j); [done|done|lia].
Qed.

Lemma sorted_bounds (l : list Qc) (i : nat) (lo hi x : Qc) :
  StronglySorted Qclt l → head l = Some lo → last l = Some hi →
  l !! i = Some x → lo ≤ x ∧ x ≤ hi.
Proof.
  intros Hs Hlo Hhi Hi. split.
  - destruct i as [|i].
    + rewrite <- head_lookup, Hlo in Hi. injection Hi as <-. apply Qcle_refl.
    + apply Qclt_le_weak. rewrite head_lookup in Hlo.
      apply (sorted_lookup_lt l 0 (S i)); [done|done|done|lia].
  - rewrite last_lookup in Hhi.
    destruct (decide (i = pred (length l))) as [->|Hne].
    + rewrite Hhi in Hi. injection Hi as <-. apply Qcle_refl.
    + apply Qclt_le_weak.
      apply (sorted_lookup_lt l i (pred (length l))); [done|done|done|].
      apply lookup_lt_Some in Hi. lia.
Qed.

Lemma broken_line_knot (xs ys : list Qc) (i : nat) (x y : Qc) :
  StronglySorted Qclt xs → length xs = length ys →
  xs !! i = Some x → ys !! i = Some y →
  broken_line xs ys x = y.
Proof.
  intros Hs Hlen Hx Hy. unfold broken_line.
  destruct xs as [|x0 xs]; [done|]. destruct ys as [|y0 ys]; [done|].
  apply (linear_piece_knot xs ys x0 y0 i); [done|done|done|].
  cbn in Hlen. lia.
Qed.

Lemma interp1d_knot (xs ys : list Qc) (i : nat) (x y yi : Qc) :
  StronglySorted Qclt xs → interp1d xs ys x = Ok y →
  xs !! i = Some x → ys !! i = Some yi → y = yi.
Proof.
  intros Hs H Hx Hy.
  assert (length xs = length ys) as Hlen.
  { unfold interp1d in H. by case_bool_decide. }
  destruct xs as [|x0 xs]; [done|]. destruct ys as [|y0 ys]; [done|].
  cbn in Hlen. rewrite interp1d_sorted in H by (done || lia).
  destruct (_ || _); [done|]. injection H as <-.
  apply (linear_piece_knot xs ys x0 y0 i); [done|done|done|lia].
Qed.

(** ** Interpolation with a fill value *)

Lemma interp1d_fill_in_range (xs ys : list Qc) (fill lo hi x : Qc) :
  StronglySorted Qclt xs →
  length xs = length ys →
  head xs = Some lo → last xs = Some hi → lo ≤ x → x ≤ hi →
  interp1d_fill xs ys fill x = broken_line xs ys x.
Proof.
  intros Hs Hlen Hlo Hhi H1 H2. unfold broken_line.
  destruct xs as [|x0 xs]; [done|]. destruct ys as [|y0 ys]; [done|].
  cbn in Hlo. injection Hlo as ->.
  rewrite interp1d_fill_sorted by (done || (cbn in Hlen; lia)).
  rewrite (List_last_cons _ lo hi Hhi). unfold Qc_ltb.
  rewrite !bool_decide_eq_false_2; [done| |]; by apply Qcle_not_lt.
Qed.

(** Beyond the least or the greatest knot the fill value is returned, in
    whatever order the knots are given. *)
Lemma interp1d_fill_outside (xs ys : list Qc) (fill lo hi x : Qc) :
  np_min xs = Ok lo → np_max xs = Ok hi → x < lo ∨ hi < x →
  interp1d_fill xs ys fill x = fill.
Proof.
  intros Hlo Hhi Hout. unfold interp1d_fill.
  destruct (sort_knots xs ys) as [|[x0 y0] k] eqn:Hk; [done|].
  destruct (sort_knots_ends xs ys x0 y0 k Hk) as [Hx0 Hxl].
  unfold Qc_ltb. destruct Hout as [H|H].
  - rewrite (bool_decide_eq_true_2 (x < x0)); [done|].
    eapply Qclt_le_trans; [exact H|]. by apply (np_min_spec xs lo Hlo).
  - rewrite (bool_decide_eq_true_2 (List.last (map fst k) x0 < x)).
    + by rewrite orb_true_r.
    + eapply Qcle_lt_trans; [|exact H]. by apply (np_max_spec xs hi Hhi).
Qed.

Lemma interp1d_fill_knot (xs ys : list Qc) (fill : Qc) (i : nat) (x y : Qc) :
  StronglySorted Qclt xs → length xs = length ys →
  xs !! i = Some x → ys !! i = Some y →
  interp1d_fill xs ys fill x = y.
Proof.
  intros Hs Hlen Hx Hy.
  destruct (head xs) as [lo|] eqn:Hlo;
    [|apply head_None in Hlo; by rewrite Hlo in Hx].
  destruct (last xs) as [hi|] eqn:Hhi;
    [|apply last_None in Hhi; by rewrite Hhi in Hx].
  destruct (sorted_bounds xs i lo hi x Hs Hlo Hhi Hx) as [H1 H2].
  rewrite (interp1d_fill_in_range xs ys fill lo hi x); [|done..].
  by apply (broken_line_knot xs ys i).
Qed.

(** ** Masks *)

Lemma select_sublist {A} (mask : list bool) (a : list A) :
  select mask a `sublist_of` a.
Proof.
  revert a. induction mask as [|b mask IH]; intros [|x a]; cbn;
    try apply sublist_nil_l.
  destruct b; [by apply sublist_skip|by apply sublist_cons].
Qed.

Lemma select_same_length {A B} (mask : list bool) (a : list A) (b : list B) :
  length a = length b → length (select mask a) = length (select mask b).
Proof.
  revert a b. induction mask as [|m mask IH]; intros [|x a] [|y b] H;
    try done.
  cbn in H. injection H as H. cbn. destruct m; cbn; by rewrite (IH a b).
Qed.

Lemma Forall_select {A} (P : A → Prop) (mask : list bool) (a : list A) :
  Forall P a → Forall P (select mask a).
Proof.
  intros H. revert mask. induction H as [|x a Hx _ IH]; intros [|b mask];
    cbn; try constructor.
  destruct b; [constructor; [done|apply IH]|apply IH].
Qed.

Lemma Forall_select_test {A} (t : A → bool) (a : list A) :
  Forall (λ x, t x = true) (select (map t a) a).
Proof.
  induction a as [|x a IH]; cbn; [constructor|].
  destruct (t x) eqn:Hx; [by constructor|done].
Qed.

Lemma select_filter {A} (P : A → Prop) `{!∀ x, Decision (P x)}
    (a : list A) :
  select (map (λ x, bool_decide (P x)) a) a = filter P a.
Proof.
  induction a as [|x a IH]; [done|]. cbn [map select].
  rewrite filter_cons, IH. by case_bool_decide; rewrite decide_bool_decide;
    [rewrite bool_decide_eq_true_2|rewrite bool_decide_eq_false_2].
Qed.

(** ** The map in the rest frame of the planet *)

Lemma for_each_seq {B} (f : nat → result B) (l : list B) (k : nat) :
  (∀ i y, l !! i = Some y → f (k + i)%nat = Ok y) →
  for_each f (seq k (length l)) = Ok l.
Proof.
  revert k. induction l as [|y l IH]; intros k H; [done|].
  cbn [length seq for_each].
  pose proof (H 0%nat y eq_refl) as H0. rewrite Nat.add_0_r in H0.
  rewrite H0. cbn. rewrite IH; [done|].
  intros i z Hz. rewrite Nat.add_succ_comm. by apply H.
Qed.

Lemma interpolate_to_planet_Ok (self : CCF.t) (RV : list Qc) (i : nat)
    (row : list Qc) (v : Qc) :
  CCF.rv self ≠ [] →
  CCF.flux self !! i = Some row → length row = length (CCF.rv self) →
  RV !! i = Some v →
  CCF.interpolate_to_planet self RV i
  = Ok (map (λ x, interp1d_fill (CCF.rv self) row 0 (x + v)) (CCF.rv self)).
Proof.
  intros Hne Hrow Hlen Hv. unfold CCF.interpolate_to_planet, getitem.
  rewrite Hrow, Hv. cbn. unfold interp1d_check.
  destruct (CCF.rv self) as [|x0 xs] eqn:Hrv; [done|].
  by rewrite bool_decide_eq_true_2.
Qed.

(** X6: with one shift per frame, and a map of at least one frame that has
    one column per trial velocity, the change to the rest frame of the
    planet never fails, however large the shifts are.  The result keeps the
    frames, keeps exactly those trial velocities whose absolute value is
    below the median of the absolute values, in their order, and has one
    column for each of them. *)
Theorem to_planet_frame_shape (self : CCF.t) (RV : list Qc) :
  CCF.rv self ≠ [] →
  CCF.flux self ≠ [] →
  Forall (λ row, length row = length (CCF.rv self)) (CCF.flux self) →
  (length (CCF.flux self) ≤ length RV)%nat →
  ∃ r, CCF.to_planet_frame self RV = Ok r
       ∧ CCF.frame r = Some "planet"
       ∧ length (CCF.flux r) = length (CCF.flux self)
       ∧ Forall (λ row, length row = length (CCF.rv r)) (CCF.flux r)
       ∧ CCF.rv r
         = filter (λ v, Qcabs v < np_median (map Qcabs (CCF.rv self)))
             (CCF.rv self).
Proof.
  intros Hne Hfl Hrows HRV. unfold CCF.to_planet_frame.
  set (rows := imap (λ i row,
                 map (λ x, interp1d_fill (CCF.rv self) row 0
                             (x + default 0 (RV !! i))) (CCF.rv self))
                 (CCF.flux self)).
  assert (length rows = length (CCF.flux self)) as Hlen
    by apply length_imap.
  rewrite <- Hlen, (for_each_seq _ rows).
  - cbn [mbind result_bind]. rewrite bool_decide_eq_false_2.
    2:{ intros Hnil. rewrite Hnil in Hlen. by destruct (CCF.flux self). }
    eexists. split; [done|]. cbn.
    split; [done|]. split; [by rewrite length_map|]. split.
    + rewrite Forall_forall. intros row Hrow.
      rewrite map_fmap in Hrow.
      apply list_elem_of_fmap in Hrow as (row0 & -> & Hrow0).
      apply select_same_length.
      apply list_elem_of_lookup in Hrow0 as [i Hi]. unfold rows in Hi.
      rewrite list_lookup_imap in Hi.
      destruct (CCF.flux self !! i); [|done]. cbn in Hi.
      injection Hi as <-. by rewrite length_map.
    + apply (select_filter
               (λ v, Qcabs v < np_median (map Qcabs (CCF.rv self)))).
  - intros i y Hy. cbn [Nat.add]. unfold rows in Hy.
    rewrite list_lookup_imap in Hy.
    destruct (CCF.flux self !! i) as [row|] eqn:Hrow; [|done].
    cbn in Hy. injection Hy as <-.
    assert (i < length RV)%nat as Hi.
    { apply lookup_lt_Some in Hrow. lia. }
    apply lookup_lt_is_Some_2 in Hi as [v Hv]. rewrite Hv. cbn.
    apply interpolate_to_planet_Ok; [done|done| |done].
    rewrite Forall_forall in Hrows. apply Hrows.
    by eapply list_elem_of_lookup_2.
Qed.

(** X7: for a planet at rest in the frame of the data (all shifts zero),
    trial velocities in increasing order and a map of at least one frame,
    the change of frame does not alter a single value of the map: it only
    drops the columns of the trial velocities that are not kept. *)
Theorem to_planet_frame_at_rest (self : CCF.t) (RV : list Qc) :
  StronglySorted Qclt (CCF.rv self) →
  CCF.rv self ≠ [] →
  CCF.flux self ≠ [] →
  Forall (λ row, length row = length (CCF.rv self)) (CCF.flux self) →
  (∀ i, (i < length (CCF.flux self))%nat → RV !! i = Some 0) →
  let mask :=
    map (λ v, Qc_ltb (Qcabs v) (np_median (map Qcabs (CCF.rv self))))
        (CCF.rv self) in
  ∃ r, CCF.to_planet_frame self RV = Ok r
       ∧ CCF.rv r = select mask (CCF.rv self)
       ∧ CCF.flux r = map (select mask) (CCF.flux self).
Proof.
  intros Hs Hne Hfl Hrows HRV mask. unfold CCF.to_planet_frame.
  rewrite (for_each_seq _ (CCF.flux self)).
  - cbn [mbind result_bind]. rewrite bool_decide_eq_false_2 by done.
    eexists. split; [done|]. by cbn.
  - intros i row Hrow. cbn [Nat.add].
    assert (length row = length (CCF.rv self)) as Hlen.
    { rewrite Forall_forall in Hrows. apply Hrows.
      by eapply list_elem_of_lookup_2. }
    rewrite (interpolate_to_planet_Ok self RV i row 0); [|done|done|done|].
    + f_equal. apply list_eq. intros j. rewrite lookup_map.
      destruct (CCF.rv self !! j) as [x|] eqn:Hx; cbn.
      * assert (j < length row)%nat as Hj.
        { rewrite Hlen. by eapply lookup_lt_Some. }
        apply lookup_lt_is_Some_2 in Hj as [y Hy]. rewrite Hy. f_equal.
        rewrite Qcplus_0_r.
        by apply (interp1d_fill_knot _ _ _ j).
      * symmetry. apply lookup_ge_None. rewrite Hlen.
        by apply lookup_ge_None.
    + apply HRV. by eapply lookup_lt_Some.
Qed.


(** X8: a frame whose shift moves every trial velocity off the grid of the
    map, below its least or above its greatest value, is a row of zeros in
    the rest frame of the planet. *)
Theorem to_planet_frame_far (self r : CCF.t) (RV : list Qc) (i : nat)
    (v lo hi : Qc) (row : list Qc) :
  CCF.to_planet_frame self RV = Ok r →
  RV !! i = Some v →
  np_min (CCF.rv self) = Ok lo → np_max (CCF.rv self) = Ok hi →
  Forall (λ x, x + v < lo ∨ hi < x + v) (CCF.rv self) →
  CCF.flux r !! i = Some row →
  Forall (λ y, y = 0) row.
Proof.
  intros H Hv Hlo Hhi Hfar Hrow. unfold CCF.to_planet_frame in H.
  step_bind H as Hf gives flux_i.
  destruct (bool_decide (flux_i = [])); [done|].
  injection H as <-. cbn in Hrow.
  rewrite lookup_map in Hrow.
  destruct (flux_i !! i) as [row0|] eqn:Hrow0; [|done].
  cbn in Hrow. injection Hrow as <-. apply Forall_select.
  assert (i < length (CCF.flux self))%nat as Hi.
  { apply for_each_length in Hf. rewrite length_seq in Hf.
    rewrite <- Hf. by eapply lookup_lt_Some. }
  destruct (for_each_lookup _ _ _ i i Hf) as (y & Hy & Hyi).
  { by apply lookup_seq_lt. }
  rewrite Hrow0 in Hyi. injection Hyi as <-.
  unfold CCF.interpolate_to_planet in Hy.
  step_bind Hy as E1 gives row1. step_bind Hy as E2.
  step_bind Hy as E3 gives v'. injection Hy as <-.
  apply getitem_Ok in E3. rewrite Hv in E3. injection E3 as <-.
  rewrite Forall_forall. intros y Hy. rewrite map_fmap in Hy.
  apply list_elem_of_fmap in Hy as (x & -> & Hx).
  rewrite Forall_forall in Hfar.
  apply (interp1d_fill_outside _ _ _ lo hi); [done|done|]. by apply Hfar.
Qed.

(** ** The auto-correlation of the template *)

Lemma py_trim_lookup {A} (edge : nat) (a : list A) (j : nat) (x : A) :
  py_trim edge a !! j = Some x → a !! (edge + j)%nat = Some x.
Proof.
  destruct edge as [|e]; [done|]. unfold py_trim. intros H.
  apply lookup_take_Some in H as [H _]. by rewrite lookup_drop in H.
Qed.

Lemma py_trim_same_length {A B} (edge : nat) (a : list A) (b : list B) :
  length a = length b → length (py_trim edge a) = length (py_trim edge b).
Proof.
  intros H. destruct edge as [|e]; [done|]. unfold py_trim.
  rewrite !length_take, !length_drop. lia.
Qed.

(** X9: a template of fewer than ten samples has an empty trimmed part
    ([edge] is 0 and the slice [[0:-0]] is empty): the auto-correlation then
    succeeds and every one of its entries is nan. *)
Theorem autoccf_short_template (self : CCF.t) :
  let twlt := Template.wlt (CCF.template self) in
  let tflux := Template.flux (CCF.template self) in
  (0 < length twlt < 10)%nat → length twlt = length tflux →
  CCF.rv self ≠ [] →
  CCF.autoccf self = Ok (map (λ _, None) (CCF.rv self)).
Proof.
  intros twlt tflux Hn Hlen Hne. unfold CCF.autoccf. fold twlt tflux.
  rewrite Nat.div_small by lia. cbn [py_trim].
  assert (interp1d_check twlt tflux = Ok ()) as ->.
  { unfold interp1d_check. destruct twlt; [cbn in Hn; lia|].
    by rewrite bool_decide_eq_true_2. }
  cbn. rewrite (for_each_Ok _ (λ _, [])) by done. cbn.
  rewrite bool_decide_eq_false_2.
  - f_equal. rewrite !map_map. done.
  - destruct (CCF.rv self); [done|]. done.
Qed.

(** X10: the entry of the auto-correlation at the trial velocity 0, for a
    template with increasing wavelengths, is the sum of the squares of the
    trimmed template flux over its sum; when that sum is zero the entry is
    not a finite number (nan or an infinity, which [None] stands for). *)
Theorem autoccf_zero_velocity (self : CCF.t) (r : list (option Qc))
    (k : nat) :
  let twlt := Template.wlt (CCF.template self) in
  let tflux := Template.flux (CCF.template self) in
  let f := py_trim (length twlt / 10) tflux in
  StronglySorted Qclt twlt →
  CCF.autoccf self = Ok r →
  CCF.rv self !! k = Some 0 →
  r !! k = Some (if Qc_eqb (np_sum f) 0 then None
                 else Some (np_dot1 f f / np_sum f)).
Proof.
  intros twlt tflux f Hs H Hk. unfold CCF.autoccf in H. fold twlt tflux in H.
  step_bind H as Hc. step_bind H as Hg gives g.
  destruct (bool_decide (g = [])); [done|]. injection H as <-.
  assert (length twlt = length tflux) as Hlen.
  { unfold interp1d_check in Hc. destruct twlt; [done|].
    by case_bool_decide. }
  destruct (for_each_lookup _ _ _ k (1 - 0 / CCF.c) Hg) as (row & Hrow & Hgk).
  { by rewrite lookup_map, Hk. }
  rewrite lookup_map, Hgk. cbn. rewrite beta_zero in Hrow.
  assert (row = f) as ->; [|done].
  pose proof (for_each_length _ _ _ Hrow) as Hlr.
  pose proof (py_trim_same_length (length twlt / 10) twlt tflux Hlen) as Hlf.
  apply list_eq. intros j.
  destruct (py_trim (length twlt / 10) twlt !! j) as [w|] eqn:Hw.
  - destruct (for_each_lookup _ _ _ j w Hrow Hw) as (y & Hy & ->).
    assert (j < length f)%nat as Hj.
    { unfold f. rewrite <- Hlf. by eapply lookup_lt_Some. }
    apply lookup_lt_is_Some_2 in Hj as [yi Hyi]. rewrite Hyi. f_equal.
    rewrite Qcmult_1_r in Hy.
    apply py_trim_lookup in Hw. apply py_trim_lookup in Hyi.
    by apply (interp1d_knot twlt tflux (length twlt / 10 + j) w).
  - apply lookup_ge_None in Hw.
    rewrite (lookup_ge_None_2 row) by (rewrite Hlr; exact Hw).
    symmetry. apply lookup_ge_None. unfold f. by rewrite <- Hlf.
Qed.

Lemma to_planet_frame_shape_witness :
  ∃ r, CCF.to_planet_frame Sample.ccf_map2 [1; qz 20] = Ok r
       ∧ CCF.frame r = Some "planet"
       ∧ length (CCF.flux r) = 2%nat
       ∧ Forall (λ row, length row = length (CCF.rv r)) (CCF.flux r)
       ∧ CCF.rv r
         = filter
             (λ v, Qcabs v < np_median (map Qcabs (CCF.rv Sample.ccf_map2)))
             (CCF.rv Sample.ccf_map2).
Proof.
  apply (to_planet_frame_shape Sample.ccf_map2 [1; qz 20]).
  - discriminate.
  - discriminate.
  - repeat constructor.
  - cbn. lia.
Defined.

Lemma sample_rv_sorted : StronglySorted Qclt (CCF.rv Sample.ccf_map2).
Proof. by_eval. Qed.

Lemma to_planet_frame_at_rest_witness :
  ∃ r, CCF.to_planet_frame Sample.ccf_map2 [0; 0] = Ok r
       ∧ CCF.rv r = [-1; 0; 1]
       ∧ CCF.flux r = [[1; qz 4; 1]; [2; qz 6; 2]].
Proof.
  destruct (to_planet_frame_at_rest Sample.ccf_map2 [0; 0])
    as (r & Hr & Hrv & Hflux).
  - exact sample_rv_sorted.
  - discriminate.
  - discriminate.
  - repeat constructor.
  - intros [|[|i]] Hi; [reflexivity|reflexivity|cbn in Hi; lia].
  - exists r. split; [exact Hr|]. split.
    + rewrite Hrv. by_eval.
    + rewrite Hflux. by_eval.
Defined.


Lemma sample_to_planet_frame :
  CCF.flux <$> CCF.to_planet_frame Sample.ccf_map2 [1; qz 20]
  = Ok [[qz 4; 1; 0]; [0; 0; 0]].
Proof. by_eval. Qed.

Lemma to_planet_frame_far_witness :
  ∃ r row, CCF.to_planet_frame Sample.ccf_map2 [1; qz 20] = Ok r
           ∧ CCF.flux r !! 1%nat = Some row ∧ Forall (λ y, y = 0) row.
Proof.
  pose proof sample_to_planet_frame as F.
  destruct (CCF.to_planet_frame Sample.ccf_map2 [1; qz 20]) as [r|e] eqn:E;
    [|discriminate F].
  cbn in F. injection F as F.
  exists r, [0; 0; 0]. split; [reflexivity|].
  assert (CCF.flux r !! 1%nat = Some [0; 0; 0]) as Hrow
    by (rewrite F; reflexivity).
  split; [exact Hrow|].
  apply (to_planet_frame_far Sample.ccf_map2 r [1; qz 20] 1 (qz 20)
           (qz (-4)) (qz 4) [0; 0; 0] E);
    [reflexivity|by_eval|by_eval| |exact Hrow].
  repeat constructor; right; by_eval.
Defined.

Lemma autoccf_short_template_witness :
  CCF.autoccf Sample.ccf_auto_small = Ok [None; None; None].
Proof.
  apply (autoccf_short_template Sample.ccf_auto_small).
  - cbn. lia.
  - reflexivity.
  - discriminate.
Defined.

Lemma sample_template12_sorted :
  StronglySorted Qclt (Template.wlt Sample.template12).
Proof. by_eval. Qed.

Lemma sample_autoccf :
  CCF.autoccf Sample.ccf_auto = Ok [Some (qz 19 / qz 9)].
Proof. by_eval. Qed.

Lemma autoccf_zero_velocity_witness :
  [Some (qz 19 / qz 9)] !! 0%nat
  = Some (if Qc_eqb (np_sum (py_trim 1 (Template.flux Sample.template12))) 0
          then None
          else Some (np_dot1 (py_trim 1 (Template.flux Sample.template12))
                       (py_trim 1 (Template.flux Sample.template12))
                     / np_sum (py_trim 1 (Template.flux Sample.template12)))).
Proof.
  apply (autoccf_zero_velocity Sample.ccf_auto [Some (qz 19 / qz 9)] 0).
  - exact sample_template12_sorted.
  - exact sample_autoccf.
  - reflexivity.
Defined.

(** ** The Kp-Vsys map *)

Lemma elem_of_where_from_imap (ecl : list bool) (g : nat → nat) (x : nat) :
  x ∈ omap id (imap (λ (i : nat) (b : bool), if b then None else Some (g i)) ecl)
  ↔ ∃ i, ecl !! i = Some false ∧ x = g i.
Proof.
  revert g. induction ecl as [|b ecl IH]; intros g.
  - cbn. split; [by intros ?%elem_of_nil|]. by intros (i & ? & _).
  - rewrite imap_cons. cbn [omap list_omap].
    specialize (IH (g ∘ S)). destruct b; cbn.
    + rewrite IH. split.
      * intros (i & Hi & ->). by exists (S i).
      * intros ([|i] & Hi & ->); [done|]. by exists i.
    + rewrite elem_of_cons, IH. split.
      * intros [->|(i & Hi & ->)]; [by exists 0%nat|by exists (S i)].
      * intros ([|i] & Hi & ->); [by left|]. right. by exists i.
Qed.

Lemma elem_of_where_false (ecl : list bool) (i : nat) :
  i ∈ where_false ecl ↔ ecl !! i = Some false.
Proof.
  unfold where_false. rewrite (elem_of_where_from_imap ecl id). split.
  - by intros (j & Hj & ->).
  - intros H. by exists i.
Qed.

Lemma where_false_all_true (ecl : list bool) :
  Forall (λ b, b = true) ecl → where_false ecl = [].
Proof.
  intros H. destruct (where_false ecl) as [|i l] eqn:E; [done|].
  assert (i ∈ where_false ecl) as Hi by (rewrite E; left).
  apply elem_of_where_false in Hi. rewrite Forall_forall in H.
  apply list_elem_of_lookup_2, H in Hi. done.
Qed.

Lemma shifted_row_lookup (self : KpV.t) (pRV : list Qc) (iObs : nat)
    (r : list Qc) (iv : nat) (v : Qc) :
  KpV.shifted_row self pRV iObs = Ok r →
  KpV.vrestVec self !! iv = Some v →
  ∃ y, resampled self pRV v iObs = Ok y ∧ r !! iv = Some y.
Proof.
  intros H Hv. unfold KpV.shifted_row in H. unfold resampled.
  step_bind H as E1 gives s. step_bind H as E2 gives row.
  destruct (for_each_lookup _ _ _ _ _ H Hv) as (y & Hy & Hr).
  exists y. by cbn.
Qed.

Lemma shifted_row_length (self : KpV.t) (pRV : list Qc) (iObs : nat)
    (r : list Qc) :
  KpV.shifted_row self pRV iObs = Ok r →
  length r = length (KpV.vrestVec self).
Proof.
  intros H. unfold KpV.shifted_row in H.
  step_bind H. step_bind H. by apply for_each_length in H.
Qed.

Lemma stack_frames_length (self : KpV.t) (pRV : list Qc) (frames : list nat)
    (acc out : list Qc) :
  KpV.stack_frames self pRV frames acc = Ok out →
  length acc = length (KpV.vrestVec self) →
  length out = length (KpV.vrestVec self).
Proof.
  revert acc. induction frames as [|i frames IH]; intros acc H Hacc.
  - cbn in H. by injection H as <-.
  - cbn [KpV.stack_frames] in H. step_bind H as Er gives r.
    apply (IH _ H). apply shifted_row_length in Er.
    rewrite length_zip_with. lia.
Qed.

(** The accumulator of a row after the frames: each entry has grown by the
    sum of what the frames add to it. *)
Lemma stack_frames_cell (self : KpV.t) (pRV : list Qc) (frames : list nat)
    (acc out : list Qc) (iv : nat) (v a : Qc) :
  KpV.stack_frames self pRV frames acc = Ok out →
  KpV.vrestVec self !! iv = Some v → acc !! iv = Some a →
  ∃ vals, for_each (resampled self pRV v) frames = Ok vals
          ∧ out !! iv = Some (a + np_sum vals).
Proof.
  revert acc a. induction frames as [|i frames IH]; intros acc a H Hv Ha.
  - cbn in H. injection H as <-. exists []. split; [done|].
    rewrite Ha, np_sum_nil. f_equal. ring.
  - cbn [KpV.stack_frames] in H. step_bind H as Er gives r.
    destruct (shifted_row_lookup _ _ _ _ _ _ Er Hv) as (y & Hy & Hry).
    destruct (IH (zip_with Qcplus acc r) (a + y) H Hv) as (vals & Hvals & Hout).
    { by rewrite lookup_zip_with, Ha, Hry. }
    exists (y :: vals). split.
    + cbn [for_each]. rewrite Hy. cbn. by rewrite Hvals.
    + rewrite Hout, np_sum_cons. f_equal. ring.
Qed.

(** The rows of the map: one for each trial value of [Kp], built from the
    planet velocities for that value. *)
Lemma run_loop_rows (self : KpV.t) (frames : list nat) (kps : list Qc)
    (h h' : store) (rows : matrix) (p : Planet.t) :
  KpV.run_loop self frames kps h = Ok (h', rows) →
  h !! KpV.planet self = Some p →
  Forall2 (λ kp row,
      KpV.stack_frames self (Planet.RV_at p kp) frames
        (map (λ _, 0) (KpV.vrestVec self)) = Ok row) kps rows.
Proof.
  revert h h' rows p. induction kps as [|kp kps IH]; intros h h' rows p H Hp.
  - cbn in H. injection H as <- <-. constructor.
  - cbn [KpV.run_loop] in H. unfold deref in H. rewrite Hp in H. cbn in H.
    step_bind H as Erow gives row. step_bind H as Hl gives [h'' rows'].
    injection H as <- <-. constructor; [exact Erow|].
    apply (IH _ _ _ (Planet.set_Kp kp p)) in Hl; [exact Hl|].
    apply lookup_insert_eq.
Qed.

Lemma run_rows (h h' : store) (self self' : KpV.t) (ignore_eclipse : bool)
    (p : Planet.t) :
  KpV.run h self ignore_eclipse = Ok (h', self') →
  h !! KpV.planet self = Some p →
  Forall2 (λ kp row,
      KpV.stack_frames self (Planet.RV_at p kp) (frames_used p ignore_eclipse)
        (map (λ _, 0) (KpV.vrestVec self)) = Ok row)
    (KpV.kpVec self) (KpV.ccf_map self').
Proof.
  intros H Hp. unfold KpV.run, deref in H. rewrite Hp in H. cbn in H.
  step_bind H as Hl gives [h'' rows]. injection H as <- <-. cbn.
  by apply (run_loop_rows _ _ _ _ _ _ _ Hl).
Qed.

(** X11: the map that [run] produces has the shape of the grid: one row for
    each trial value of [Kp] and one column for each rest velocity. *)
Theorem run_map_shape (h h' : store) (self self' : KpV.t)
    (ignore_eclipse : bool) :
  KpV.run h self ignore_eclipse = Ok (h', self') →
  length (KpV.ccf_map self') = length (KpV.kpVec self)
  ∧ Forall (λ row, length row = length (KpV.vrestVec self))
      (KpV.ccf_map self').
Proof.
  intros H.
  destruct (h !! KpV.planet self) as [p|] eqn:Hp.
  - pose proof (run_rows _ _ _ _ _ _ H Hp) as Hrows. split.
    + symmetry. by eapply Forall2_length.
    + eapply Forall2_Forall_r; [exact Hrows|].
      apply Forall_forall. intros kp _ row Hrow.
      apply (stack_frames_length _ _ _ _ _ Hrow). by rewrite length_map.
  - unfold KpV.run, deref in H. by rewrite Hp in H.
Qed.

(** X12: every cell of the map is the sum, over the frames out of eclipse,
    of the cross-correlation of the frame interpolated linearly at the rest
    velocity of the column plus the velocity of the planet in that frame,
    for the trial value of [Kp] of the row. *)
Theorem run_cell_is_sum (h h' : store) (self self' : KpV.t)
    (ignore_eclipse : bool) (p : Planet.t) (ikp iv : nat) (kp v : Qc) :
  KpV.run h self ignore_eclipse = Ok (h', self') →
  h !! KpV.planet self = Some p →
  KpV.kpVec self !! ikp = Some kp → KpV.vrestVec self !! iv = Some v →
  ∃ vals,
    for_each (resampled self (Planet.RV_at p kp) v)
      (frames_used p ignore_eclipse) = Ok vals
    ∧ cell (KpV.ccf_map self') ikp iv = Some (np_sum vals).
Proof.
  intros H Hp Hkp Hv.
  pose proof (run_rows _ _ _ _ _ _ H Hp) as Hrows.
  destruct (Forall2_lookup_l _ _ _ _ _ Hrows Hkp) as (row & Hrow & Hst).
  destruct (stack_frames_cell _ _ _ _ _ iv v 0 Hst Hv) as (vals & Hvals & Hc).
  { by rewrite lookup_map, Hv. }
  exists vals. split; [done|]. unfold cell. rewrite Hrow. cbn.
  rewrite Hc. f_equal. ring.
Qed.

(** X13: a map is only produced when, for every trial value of [Kp], every
    frame out of eclipse and every rest velocity, the rest velocity plus
    the velocity of the planet lies between the least and the greatest
    trial velocity of the cross-correlation; the interpolation raises an
    error otherwise. *)
Theorem run_needs_coverage (h h' : store) (self self' : KpV.t)
    (ignore_eclipse : bool) (p : Planet.t) (kp v : Qc) (iObs : nat) :
  KpV.run h self ignore_eclipse = Ok (h', self') →
  h !! KpV.planet self = Some p →
  kp ∈ KpV.kpVec self → v ∈ KpV.vrestVec self →
  iObs ∈ frames_used p ignore_eclipse →
  ∃ s lo hi,
    Planet.RV_at p kp !! iObs = Some s
    ∧ np_min (CCF.rv (KpV.ccf self)) = Ok lo
    ∧ np_max (CCF.rv (KpV.ccf self)) = Ok hi
    ∧ lo ≤ v + s ∧ v + s ≤ hi.
Proof.
  intros H Hp Hkp Hv Hi.
  pose proof (run_rows _ _ _ _ _ _ H Hp) as Hrows.
  apply list_elem_of_lookup in Hkp as [ikp Hkp].
  apply list_elem_of_lookup in Hv as [iv Hv].
  apply list_elem_of_lookup in Hi as [n Hn].
  destruct (Forall2_lookup_l _ _ _ _ _ Hrows Hkp) as (row & Hrow & Hst).
  destruct (stack_frames_cell _ _ _ _ _ iv v 0 Hst Hv) as (vals & Hvals & _).
  { by rewrite lookup_map, Hv. }
  destruct (for_each_lookup _ _ _ _ _ Hvals Hn) as (y & Hy & _).
  unfold resampled in Hy.
  step_bind Hy as E1 gives s. step_bind Hy as E2 gives r.
  apply getitem_Ok in E1.
  apply interp1d_Ok_range in Hy as (lo & hi & ? & ? & ? & ?).
  by exists s, lo, hi.
Qed.

(** X14: when the eclipse mask leaves no frame, [run] interpolates nothing
    and cannot fail on the planet of the mapper: the map is all zeros. *)
Theorem run_all_eclipsed (h : store) (self : KpV.t) (p : Planet.t) :
  h !! KpV.planet self = Some p →
  Forall (λ b, b = true) (Planet.mask_eclipse p) →
  ∃ h', KpV.run h self true
        = Ok (h', KpV.set_ccf_map
                    (map (λ _, map (λ _, 0) (KpV.vrestVec self))
                       (KpV.kpVec self)) self).
Proof.
  intros Hp Hecl. unfold KpV.run, deref. rewrite Hp. cbn.
  rewrite (where_false_all_true _ Hecl).
  assert (∀ kps h0 p0, h0 !! KpV.planet self = Some p0 →
            ∃ h1, KpV.run_loop self [] kps h0
                  = Ok (h1, map (λ _, map (λ _, 0) (KpV.vrestVec self)) kps))
    as Hloop.
  { induction kps as [|kp kps IH]; intros h0 p0 Hp0; [by eexists|].
    cbn [KpV.run_loop]. unfold deref. rewrite Hp0. cbn.
    destruct (IH (<[KpV.planet self := Planet.set_Kp kp p0]> h0)
                (Planet.set_Kp kp p0)) as [h1 Hh1];
      [apply lookup_insert_eq|].
    rewrite Hh1. cbn. by eexists. }
  destruct (Hloop (KpV.kpVec self) h p Hp) as [h1 Hh1].
  rewrite Hh1. cbn. by eexists.
Qed.

Lemma sample_kpv_run :
  (λ _, ()) <$> KpV.run Sample.heap2 Sample.kpv_run true = Ok ().
Proof. by_eval. Qed.

Lemma sample_heap2_planet :
  Sample.heap2 !! KpV.planet Sample.kpv_run = Some Sample.planet.
Proof. reflexivity. Qed.

Lemma run_map_shape_witness :
  ∃ h' self',
    KpV.run Sample.heap2 Sample.kpv_run true = Ok (h', self')
    ∧ length (KpV.ccf_map self') = 4%nat
    ∧ Forall (λ row, length row = 5%nat) (KpV.ccf_map self').
Proof.
  pose proof sample_kpv_run as F.
  destruct (KpV.run Sample.heap2 Sample.kpv_run true)
    as [[h' self']|e] eqn:E; [|discriminate F].
  exists h', self'. split; [reflexivity|].
  apply (run_map_shape Sample.heap2 h' Sample.kpv_run self' true E).
Defined.

Lemma run_cell_is_sum_witness :
  ∃ h' self' vals,
    KpV.run Sample.heap2 Sample.kpv_run true = Ok (h', self')
    ∧ for_each (resampled Sample.kpv_run (Planet.RV_at Sample.planet (qz 3)) 1)
        (frames_used Sample.planet true) = Ok vals
    ∧ cell (KpV.ccf_map self') 0 3 = Some (np_sum vals).
Proof.
  pose proof sample_kpv_run as F.
  destruct (KpV.run Sample.heap2 Sample.kpv_run true)
    as [[h' self']|e] eqn:E; [|discriminate F].
  destruct (run_cell_is_sum Sample.heap2 h' Sample.kpv_run self' true
              Sample.planet 0 3 (qz 3) 1 E sample_heap2_planet
              eq_refl eq_refl) as (vals & Hvals & Hcell).
  exists h', self', vals. split; [reflexivity|]. split; [exact Hvals|exact Hcell].
Defined.

Lemma run_needs_coverage_witness :
  ∃ s lo hi,
    Planet.RV_at Sample.planet (qz 3) !! 1%nat = Some s
    ∧ np_min (CCF.rv Sample.ccf_map2) = Ok lo
    ∧ np_max (CCF.rv Sample.ccf_map2) = Ok hi
    ∧ lo ≤ 2 + s ∧ 2 + s ≤ hi.
Proof.
  pose proof sample_kpv_run as F.
  destruct (KpV.run Sample.heap2 Sample.kpv_run true)
    as [[h' self']|e] eqn:E; [|discriminate F].
  apply (run_needs_coverage Sample.heap2 h' Sample.kpv_run self' true
           Sample.planet (qz 3) 2 1 E sample_heap2_planet).
  - left.
  - do 4 right. left.
  - right. left.
Defined.

Lemma sample_heap_eclipsed_planet :
  Sample.heap_eclipsed !! KpV.planet Sample.kpv_run
  = Some (Planet.mk (qz 5) None (Planet.RV_at Sample.planet) [true; true]).
Proof. reflexivity. Qed.

Lemma run_all_eclipsed_witness :
  ∃ h', KpV.run Sample.heap_eclipsed Sample.kpv_run true
        = Ok (h', KpV.set_ccf_map
                    (map (λ _, map (λ _, 0) (KpV.vrestVec Sample.kpv_run))
                       (KpV.kpVec Sample.kpv_run)) Sample.kpv_run).
Proof.
  apply (run_all_eclipsed Sample.heap_eclipsed Sample.kpv_run _
           sample_heap_eclipsed_planet).
  repeat constructor.
Defined.

(** ** The grids of the mapper *)

Lemma this_qz (z : Z) : (this (qz z) == inject_Z z)%Q.
Proof. reflexivity. Qed.

Lemma qn_nonneg (i : nat) : 0 ≤ qn i.
Proof.
  unfold Qcle, qn. fold (qz (Z.of_nat i)). rewrite this_qz.
  change (this 0) with (inject_Z 0). rewrite <- Zle_Qle. lia.
Qed.

Lemma qn_lt_ceiling (i : nat) (q : Qc) :
  (i < Z.to_nat (Qceiling q))%nat → qn i < q.
Proof.
  intros Hi. unfold Qclt, qn. fold (qz (Z.of_nat i)). rewrite this_qz.
  apply Qle_lt_trans with (inject_Z (Qceiling q - 1)); [|apply Qceiling_lt].
  rewrite <- Zle_Qle. lia.
Qed.

Lemma le_qn_ceiling (q : Qc) : q ≤ qn (Z.to_nat (Qceiling q)).
Proof.
  unfold Qcle, qn. fold (qz (Z.of_nat (Z.to_nat (Qceiling q)))).
  rewrite this_qz.
  apply Qle_trans with (inject_Z (Qceiling q)); [apply Qle_ceiling|].
  rewrite <- Zle_Qle. lia.
Qed.

(** Comparisons that differ by a rearrangement of their terms. *)
Lemma Qclt_rearrange (a b c d : Qc) : b - a = d - c → a < b → c < d.
Proof.
  intros Heq H. apply Qclt_minus_iff. apply Qclt_minus_iff in H.
  by replace (d + - c) with (b + - a).
Qed.

Lemma Qcle_rearrange (a b c d : Qc) : b - a = d - c → a ≤ b → c ≤ d.
Proof.
  intros Heq H. apply Qcle_minus_iff. apply Qcle_minus_iff in H.
  by replace (d + - c) with (b + - a).
Qed.

(** The length of [np.arange] is computed on the fractions behind the
    numbers; it is the ceiling of the quotient. *)
Lemma Qc_div_sub_this (a b c : Qc) :
  (this ((a - b) / c) == (this a - this b) / this c)%Q.
Proof.
  unfold Qcdiv, Qcmult, Qcinv, Qcminus, Qcplus, Qcopp, Q2Qc. cbn [this].
  rewrite !Qred_correct. reflexivity.
Qed.

Lemma np_arange_Ok (start stop step : Qc) (l : list Qc) :
  np_arange start stop step = Ok l →
  l = map (λ i, start + qn i * step)
        (seq 0 (Z.to_nat (Qceiling (this ((stop - start) / step))))).
Proof.
  unfold np_arange. destruct (Qc_eqb step 0); [done|]. intros [= <-].
  by rewrite Qc_div_sub_this.
Qed.

(** The values of [np.arange] for a positive step: equally spaced from
    [start] on, below [stop], and the last of them within one step of
    [stop]. *)
Lemma np_arange_spec (start stop step : Qc) (l : list Qc) :
  np_arange start stop step = Ok l → 0 < step →
  l = map (λ i, start + qn i * step) (seq 0 (length l))
  ∧ Forall (λ x, start ≤ x ∧ x < stop) l
  ∧ (∀ x, last l = Some x → stop - step ≤ x).
Proof.
  intros H Hstep. apply np_arange_Ok in H.
  remember (Z.to_nat (Qceiling (this ((stop - start) / step)))) as n eqn:En.
  assert (step ≠ 0) as Hne.
  { intros ->. exact (Qclt_not_eq _ _ Hstep eq_refl). }
  assert (length l = n) as Hlen by (by rewrite H, length_map, length_seq).
  split; [by rewrite Hlen|]. split.
  - rewrite H, Forall_forall. intros x Hx. rewrite map_fmap in Hx.
    apply list_elem_of_fmap in Hx as (i & -> & Hi).
    apply elem_of_seq in Hi as [_ Hi]. cbn in Hi. split.
    + apply (Qcle_rearrange 0 (qn i * step)); [ring|].
      rewrite <- (Qcmult_0_l step).
      apply Qcmult_le_compat_r; [apply qn_nonneg|by apply Qclt_le_weak].
    + apply (Qclt_rearrange (qn i * step) ((stop - start) / step * step));
        [field; done|].
      apply Qcmult_lt_compat_r; [done|]. apply qn_lt_ceiling.
      by rewrite <- En.
  - intros x Hx. rewrite last_lookup, Hlen, H, lookup_map in Hx.
    destruct n as [|n']; [done|]. cbn [pred] in Hx.
    rewrite lookup_seq_lt in Hx by lia. cbn in Hx. injection Hx as <-.
    apply (Qcle_rearrange ((stop - start) / step * step)
             (qn (S n') * step)); [rewrite qn_S; field; done|].
    apply Qcmult_le_compat_r; [|by apply Qclt_le_weak].
    rewrite En. apply le_qn_ceiling.
Qed.

(** X15: for a positive resolution the grids of the mapper are equally
    spaced with that resolution.  The trial values of [Kp] lie in
    [[Kp - kp_radius, Kp + kp_radius)], the upper end is never reached; the
    rest velocities lie in [[-vrest_max, vrest_max + dRV)] and their last one
    is at least [vrest_max]. *)
Theorem init_grids_within (h h1 : store) (ccf : CCF.t) (planet : loc)
    (deltaRV bkg : option Qc) (kp_radius vrest_max : Qc) (self : KpV.t)
    (p0 : Planet.t) :
  KpV.init h ccf planet deltaRV kp_radius vrest_max bkg = Ok (h1, self) →
  h !! planet = Some p0 →
  0 < KpV.dRV self →
  KpV.kpVec self
  = map (λ i, Planet.Kp p0 - kp_radius + qn i * KpV.dRV self)
      (seq 0 (length (KpV.kpVec self)))
  ∧ KpV.vrestVec self
    = map (λ i, - vrest_max + qn i * KpV.dRV self)
        (seq 0 (length (KpV.vrestVec self)))
  ∧ Forall (λ k, Planet.Kp p0 - kp_radius ≤ k ∧ k < Planet.Kp p0 + kp_radius)
      (KpV.kpVec self)
  ∧ Forall (λ v, - vrest_max ≤ v ∧ v < vrest_max + KpV.dRV self)
      (KpV.vrestVec self)
  ∧ (∀ v, last (KpV.vrestVec self) = Some v → vrest_max ≤ v).
Proof.
  intros H Hp0 Hpos. unfold KpV.init in H.
  step_bind H as Hc gives [h0 l].
  apply deepcopy_fresh in Hc as (Hnew & Hne & p & Hp & ->).
  rewrite Hp0 in Hp. injection Hp as <-.
  unfold deref in H. rewrite lookup_insert_eq in H. cbn in H.
  step_bind H as Hks gives ks. step_bind H as Hvs gives vs.
  injection H as <- <-. cbn in *.
  set (dRV := py_or deltaRV (CCF.dRV ccf)) in *.
  destruct (np_arange_spec _ _ _ _ Hks Hpos) as (Eks & Bks & _).
  destruct (np_arange_spec _ _ _ _ Hvs Hpos) as (Evs & Bvs & Lvs).
  split; [|split; [|split; [|split]]].
  - rewrite length_map. rewrite Eks at 1. rewrite map_map.
    apply map_ext. intros i. ring.
  - done.
  - rewrite Forall_forall. intros k Hk. rewrite map_fmap in Hk.
    apply list_elem_of_fmap in Hk as (x & -> & Hx).
    rewrite Forall_forall in Bks. destruct (Bks x Hx) as [H1 H2]. split.
    + apply (Qcle_rearrange (- kp_radius) x); [ring|done].
    + apply (Qclt_rearrange x kp_radius); [ring|done].
  - done.
  - intros v Hv. apply Lvs in Hv.
    apply (Qcle_rearrange (vrest_max + dRV - dRV) v); [ring|done].
Qed.

Lemma sample_init_dRV :
  (λ r, KpV.dRV r.2)
    <$> KpV.init Sample.heap Sample.ccf_map2 1%positive None 2 2 None
  = Ok 1.
Proof. by_eval. Qed.

Lemma init_grids_within_witness :
  ∃ h1 self,
    KpV.init Sample.heap Sample.ccf_map2 1%positive None 2 2 None
    = Ok (h1, self)
    ∧ Forall (λ k, Planet.Kp Sample.planet - 2 ≤ k
                   ∧ k < Planet.Kp Sample.planet + 2) (KpV.kpVec self)
    ∧ Forall (λ v, - (2) ≤ v ∧ v < 2 + KpV.dRV self) (KpV.vrestVec self)
    ∧ (∀ v, last (KpV.vrestVec self) = Some v → 2 ≤ v).
Proof.
  pose proof sample_init_dRV as F.
  destruct (KpV.init Sample.heap Sample.ccf_map2 1%positive None 2 2 None)
    as [[h1 self]|e] eqn:E; [|discriminate F].
  cbn in F. injection F as F.
  exists h1, self. split; [reflexivity|].
  destruct (init_grids_within Sample.heap h1 Sample.ccf_map2 1%positive
              None None 2 2 self Sample.planet E eq_refl)
    as (_ & _ & H1 & H2 & H3).
  - rewrite F. by_eval.
  - split; [exact H1|]. split; [exact H2|exact H3].
Defined.

(** ** Statistics that do not see an offset *)

Lemma select_map {A B} (f : A → B) (mask : list bool) (a : list A) :
  select mask (map f a) = map f (select mask a).
Proof.
  revert a. induction mask as [|b mask IH]; intros [|x a]; cbn; try done.
  destruct b; cbn; by rewrite IH.
Qed.

Lemma np_mean_offset (c : Qc) (a : list Qc) :
  a ≠ [] → np_mean (map (λ x, x + c) a) = np_mean a + c.
Proof.
  intros Ha. unfold np_mean. rewrite length_map.
  assert (np_sum (map (λ x, x + c) a) = np_sum a + qn (length a) * c) as ->.
  { clear Ha. induction a as [|x a IH]; cbn [map length].
    - rewrite np_sum_nil, qn_0. ring.
    - rewrite !np_sum_cons, IH, qn_S. ring. }
  field. apply qn_nonzero. by destruct a.
Qed.

Lemma np_var_offset (c : Qc) (a : list Qc) :
  np_var (map (λ x, x + c) a) = np_var a.
Proof.
  destruct (decide (a = [])) as [->|Ha]; [done|].
  unfold np_var. rewrite np_mean_offset by done. rewrite map_map.
  f_equal. apply map_ext. intros x. ring.
Qed.

Lemma merge_sort_offset (c : Qc) (a : list Qc) :
  merge_sort Qcle (map (λ x, x + c) a)
  = map (λ x, x + c) (merge_sort Qcle a).
Proof.
  apply (Sorted_unique Qcle).
  - apply Sorted_merge_sort; apply _.
  - rewrite map_fmap. apply (Sorted_fmap _ Qcle Qcle).
    + intros x y Hxy. by apply Qcplus_le_mono_r.
    + apply Sorted_merge_sort; apply _.
  - rewrite merge_sort_Permutation, !map_fmap.
    by rewrite merge_sort_Permutation.
Qed.

Lemma np_median_offset (c : Qc) (a : list Qc) :
  a ≠ [] → np_median (map (λ x, x + c) a) = np_median a + c.
Proof.
  intros Ha. unfold np_median. rewrite merge_sort_offset, length_map.
  set (s := merge_sort Qcle a). set (n := length a).
  assert (length s = n) as Hs.
  { unfold s, n. by rewrite merge_sort_Permutation. }
  assert (0 < n)%nat as Hn by (unfold n; destruct a; [done|cbn; lia]).
  assert (∀ i, (i < n)%nat →
            default 0 (map (λ x, x + c) s !! i) = default 0 (s !! i) + c)
    as Hi.
  { intros i Hlt. rewrite lookup_map.
    destruct (s !! i) as [x|] eqn:Hx; [done|].
    apply lookup_ge_None in Hx. lia. }
  assert (n / 2 < n)%nat as Hhalf by (apply Nat.div_lt; lia).
  destruct (Nat.even n).
  - rewrite !Hi by lia. field. done.
  - by rewrite Hi.
Qed.

Section kpv_statistics.
Variable sqrt : Qc → Qc.

Lemma background_offset (c : Qc) (self : KpV.t) :
  KpV.background
    (KpV.set_ccf_map (map (map (λ x, x + c)) (KpV.ccf_map self)) self)
  = map (λ x, x + c) (KpV.background self).
Proof.
  unfold KpV.background, KpV.noise_region. cbn.
  rewrite <- concat_map_map, !map_map. f_equal.
  apply map_ext. intros row. apply select_map.
Qed.

Lemma baseline_offset (c : Qc) (self : KpV.t) :
  KpV.background self ≠ [] →
  KpV.baseline
    (KpV.set_ccf_map (map (map (λ x, x + c)) (KpV.ccf_map self)) self)
  = KpV.baseline self + c.
Proof.
  intros Hbg. unfold KpV.baseline. rewrite background_offset.
  by apply np_median_offset.
Qed.

Lemma noise_offset (c : Qc) (self : KpV.t) :
  KpV.noise sqrt
    (KpV.set_ccf_map (map (map (λ x, x + c)) (KpV.ccf_map self)) self)
  = KpV.noise sqrt self.
Proof.
  unfold KpV.noise, KpV.np_std. by rewrite background_offset, np_var_offset.
Qed.

Lemma snr_unfold (self : KpV.t) :
  KpV.snr sqrt self
  = map (map (λ x, (x - KpV.baseline self) / KpV.noise sqrt self))
      (KpV.ccf_map self).
Proof. reflexivity. Qed.

(** X17: for a map with one column per rest velocity, adding a constant
    to every cell moves the baseline by that constant and changes neither
    the noise nor any value of the signal-to-noise surface (the background
    columns must not be empty, or the baseline is nan). *)
Theorem snr_ignores_offset (c : Qc) (self : KpV.t) :
  Forall (λ row, length row = length (KpV.vrestVec self)) (KpV.ccf_map self) →
  KpV.background self ≠ [] →
  let shifted :=
    KpV.set_ccf_map (map (map (λ x, x + c)) (KpV.ccf_map self)) self in
  KpV.baseline shifted = KpV.baseline self + c
  ∧ KpV.noise sqrt shifted = KpV.noise sqrt self
  ∧ KpV.snr sqrt shifted = KpV.snr sqrt self.
Proof.
  intros _ Hbg shifted. unfold shifted.
  split; [by apply baseline_offset|]. split; [apply noise_offset|].
  rewrite !snr_unfold, baseline_offset, noise_offset by done.
  cbn [KpV.ccf_map KpV.set_ccf_map]. rewrite map_map. apply map_ext.
  intros row. rewrite map_map. apply map_ext. intros x. f_equal. ring.
Qed.

(** X18: merging a list of one mapper, whose map has one column per rest
    velocity and a background that is not empty, subtracts the baseline of
    its map: the result has the baseline 0, the same noise and the same
    signal-to-noise surface as the mapper that went in. *)
Theorem merge_single_keeps_snr (h h' : store) (k k' : KpV.t) :
  Forall (λ row, length row = length (KpV.vrestVec k)) (KpV.ccf_map k) →
  KpV.background k ≠ [] →
  KpV.merge_kpvs h [k] = Ok (h', k') →
  KpV.ccf_map k' = map (map (λ x, x - KpV.baseline k)) (KpV.ccf_map k)
  ∧ KpV.baseline k' = 0
  ∧ KpV.noise sqrt k' = KpV.noise sqrt k
  ∧ KpV.snr sqrt k' = KpV.snr sqrt k.
Proof.
  intros _ Hbg H. unfold KpV.merge_kpvs in H.
  change (getitem [k] 0) with (Ok k) in H.
  cbn -[np_sum_axis0 KpV.copy KpV.baseline] in H.
  destruct (KpV.copy h k) as [h1 k1] eqn:Hcopy.
  rewrite np_sum_axis0_single in H. cbn in H. injection H as <- <-.
  assert (∃ l, k1 = KpV.set_planet l k) as [l ->].
  { unfold KpV.copy in Hcopy.
    destruct (deepcopy h (KpV.planet k)) as [[? l]|].
    - injection Hcopy as <- <-. by exists l.
    - injection Hcopy as <- <-. exists (KpV.planet k). by destruct k. }
  set (b := KpV.baseline k).
  set (k' := KpV.set_ccf_map _ _).
  assert (KpV.baseline k' = 0) as Hb.
  { etrans; [apply (baseline_offset (- b) k Hbg)|]. unfold b. ring. }
  assert (KpV.noise sqrt k' = KpV.noise sqrt k) as Hn
    by apply (noise_offset (- b) k).
  split; [done|]. split; [done|]. split; [done|].
  rewrite !snr_unfold, Hb, Hn. unfold k'. cbn [KpV.ccf_map KpV.set_ccf_map].
  rewrite map_map. apply map_ext.
  intros row. rewrite map_map. apply map_ext. intros x. f_equal.
  fold b. ring.
Qed.

(** ** The largest value of the surface *)

Lemma snr_max_hit (self : KpV.t) (v k s : Qc) :
  KpV.snr_max sqrt self = Ok (v, k, s) →
  np_max (concat (KpV.snr sqrt self)) = Ok s
  ∧ KpV.snr_has_nan sqrt self = false
  ∧ ∃ i j, where_eq (KpV.snr sqrt self) s = [(i, j)]
           ∧ KpV.vrestVec self !! j = Some v ∧ KpV.kpVec self !! i = Some k.
Proof.
  intros H. unfold KpV.snr_max in H.
  destruct (negb _); [done|].
  step_bind H as Hmax gives best.
  destruct (KpV.snr_has_nan sqrt self); [done|].
  destruct (where_eq (KpV.snr sqrt self) best) as [|[i j] [|? ?]] eqn:Hw;
    [done| |done].
  step_bind H as Ev gives bv. step_bind H as Ek gives bk.
  injection H as <- <- <-.
  apply getitem_Ok in Ev. apply getitem_Ok in Ek.
  split; [done|]. split; [done|]. by exists i, j.
Qed.

(** X19: what [snr_max] returns is the largest value of the
    signal-to-noise surface together with the rest velocity and the [Kp] of
    the one cell that holds it: every other cell is strictly smaller. *)
Theorem snr_max_is_the_maximum (self : KpV.t) (v k s : Qc) :
  KpV.snr_max sqrt self = Ok (v, k, s) →
  ∃ i j,
    KpV.vrestVec self !! j = Some v ∧ KpV.kpVec self !! i = Some k
    ∧ cell (KpV.snr sqrt self) i j = Some s
    ∧ ∀ a b x, cell (KpV.snr sqrt self) a b = Some x →
        x ≤ s ∧ ((a, b) ≠ (i, j) → x < s).
Proof.
  intros H.
  apply snr_max_hit in H as (Hmax & _ & i & j & Hw & Hv & Hk).
  exists i, j. split; [done|]. split; [done|].
  assert (∀ a b, cell (KpV.snr sqrt self) a b = Some s ↔ (a, b) = (i, j))
    as Hcell.
  { intros a b. rewrite <- elem_of_where_eq, Hw.
    apply list_elem_of_singleton. }
  split; [by apply Hcell|].
  intros a b x Hx. apply np_max_spec in Hmax as [_ Hle].
  assert (x ≤ s) as Hxs.
  { apply Hle, elem_of_concat_cell. by exists a, b. }
  split; [done|]. intros Hne.
  destruct (Qcle_lt_or_eq _ _ Hxs) as [Hlt|Heq]; [done|].
  subst x. by apply Hcell in Hx.
Qed.

(** X20: when the largest value of a surface with one column per rest
    velocity is held by two cells, [snr_max] raises [TypeError]: the two
    positions cannot be converted to one number. *)
Theorem snr_max_tie_fails (self : KpV.t) (a b a' b' : nat) (x : Qc) :
  Forall (λ row, length row = length (KpV.vrestVec self)) (KpV.ccf_map self) →
  cell (KpV.snr sqrt self) a b = Some x →
  cell (KpV.snr sqrt self) a' b' = Some x →
  (a, b) ≠ (a', b') →
  (∀ i j y, cell (KpV.snr sqrt self) i j = Some y → y ≤ x) →
  KpV.snr_max sqrt self = Raise TypeError.
Proof.
  intros Hshape Hx Hx' Hne Hle. unfold KpV.snr_max.
  assert (forallb (λ row, bool_decide (length row = length (KpV.vrestVec self)))
            (KpV.ccf_map self) = true) as ->.
  { apply forallb_forall. intros row Hrow. apply bool_decide_eq_true_2.
    rewrite Forall_forall in Hshape. by apply Hshape, list_elem_of_In. }
  cbn [negb].
  destruct (np_max (concat (KpV.snr sqrt self))) as [s|e] eqn:Hmax.
  - cbn. destruct (KpV.snr_has_nan sqrt self); [done|].
    destruct (where_eq (KpV.snr sqrt self) s) as [|[i j] [|? ?]] eqn:Hw;
      [done| |done].
    exfalso. apply np_max_spec in Hmax as [Hin Hge].
    assert (s = x) as ->.
    { apply Qcle_antisym.
      - apply elem_of_concat_cell in Hin as (i0 & j0 & Hs). by eapply Hle.
      - apply Hge, elem_of_concat_cell. by exists a, b. }
    apply elem_of_where_eq in Hx, Hx'. rewrite Hw in Hx, Hx'.
    apply list_elem_of_singleton in Hx, Hx'. congruence.
  - exfalso.
    destruct (np_max_is_Ok (concat (KpV.snr sqrt self)) x) as [m Hm].
    + apply elem_of_concat_cell. by exists a, b.
    + by rewrite Hm in Hmax.
Qed.

(** ** The value of the map at a position *)

Lemma argmin_from_spec (pre a : list Qc) (bi : nat) (best : Qc) :
  (pre ++ a) !! bi = Some best → (bi < length pre)%nat →
  (∀ j x, pre !! j = Some x → best ≤ x) →
  (∀ j x, pre !! j = Some x → (j < bi)%nat → best < x) →
  let k := argmin_from (length pre) bi best a in
  ∃ m, (pre ++ a) !! k = Some m
       ∧ (∀ j x, (pre ++ a) !! j = Some x → m ≤ x)
       ∧ (∀ j x, (pre ++ a) !! j = Some x → (j < k)%nat → m < x).
Proof.
  revert pre bi best. induction a as [|y a IH]; intros pre bi best Hb Hbi Hle Hlt.
  - cbn. rewrite app_nil_r in *. by exists best.
  - cbn [argmin_from]. unfold Qc_ltb. case_bool_decide as Hy.
    + specialize (IH (pre ++ [y]) (length pre) y).
      rewrite <- app_assoc, length_app in IH. cbn [app length] in IH.
      rewrite Nat.add_1_r in IH. apply IH.
      * by rewrite lookup_app_r, Nat.sub_diag.
      * lia.
      * intros j x Hj. apply lookup_app_Some in Hj as [Hj|[_ Hj]].
        -- apply Qclt_le_weak. eapply Qclt_le_trans; [exact Hy|by eapply Hle].
        -- apply list_lookup_singleton_Some in Hj as [_ ->]. apply Qcle_refl.
      * intros j x Hj Hjl. apply lookup_app_Some in Hj as [Hj|[Hge _]]; [|lia].
        eapply Qclt_le_trans; [exact Hy|by eapply Hle].
    + apply Qcnot_lt_le in Hy.
      specialize (IH (pre ++ [y]) bi best).
      rewrite <- app_assoc, length_app in IH. cbn [app length] in IH.
      rewrite Nat.add_1_r in IH. apply IH.
      * done.
      * lia.
      * intros j x Hj. apply lookup_app_Some in Hj as [Hj|[_ Hj]].
        -- by eapply Hle.
        -- by apply list_lookup_singleton_Some in Hj as [_ ->].
      * intros j x Hj Hjl. apply lookup_app_Some in Hj as [Hj|[Hge _]].
        -- by eapply Hlt.
        -- apply lookup_lt_Some in Hb. lia.
Qed.

(** [argmin]: the first index of a least entry. *)
Lemma np_argmin_spec (a : list Qc) (k : nat) :
  np_argmin a = Ok k →
  ∃ m, a !! k = Some m
       ∧ (∀ j x, a !! j = Some x → m ≤ x)
       ∧ (∀ j x, a !! j = Some x → (j < k)%nat → m < x).
Proof.
  destruct a as [|x0 a]; [done|]. cbn. intros [= <-].
  apply (argmin_from_spec [x0] a 0 x0); [done|cbn; lia| |].
  - intros j x Hj. apply list_lookup_singleton_Some in Hj as [_ ->].
    apply Qcle_refl.
  - intros j x _ Hj. lia.
Qed.

(** X21: [loc] returns the cell of the map at the grid point nearest to the
    position asked for: no rest velocity of the grid is nearer to [dv] and
    no trial [Kp] is nearer to [kp] than those of the cell, and among
    equally near ones the first is taken. *)
Theorem loc_is_nearest_cell (self : KpV.t) (dv kp x : Qc) :
  KpV.loc self dv kp = Ok x →
  ∃ indh indv gk gv,
    KpV.kpVec self !! indh = Some gk ∧ KpV.vrestVec self !! indv = Some gv
    ∧ cell (KpV.ccf_map self) indh indv = Some x
    ∧ (∀ j v, KpV.vrestVec self !! j = Some v →
         Qcabs (gv - dv) ≤ Qcabs (v - dv)
         ∧ ((j < indv)%nat → Qcabs (gv - dv) < Qcabs (v - dv)))
    ∧ (∀ i k, KpV.kpVec self !! i = Some k →
         Qcabs (gk - kp) ≤ Qcabs (k - kp)
         ∧ ((i < indh)%nat → Qcabs (gk - kp) < Qcabs (k - kp))).
Proof.
  intros H. unfold KpV.loc in H.
  step_bind H as Ev gives indv. step_bind H as Eh gives indh.
  step_bind H as Er gives row.
  apply getitem_Ok in Er, H.
  apply np_argmin_spec in Ev as (mv & Hmv & Hvle & Hvlt).
  apply np_argmin_spec in Eh as (mh & Hmh & Hhle & Hhlt).
  rewrite lookup_map in Hmv, Hmh.
  destruct (KpV.vrestVec self !! indv) as [gv|] eqn:Hgv; [|done].
  destruct (KpV.kpVec self !! indh) as [gk|] eqn:Hgk; [|done].
  cbn in Hmv, Hmh. injection Hmv as <-. injection Hmh as <-.
  exists indh, indv, gk, gv. split; [done|]. split; [done|]. split.
  { unfold cell. by rewrite Er. }
  split.
  - intros j v Hj. split.
    + apply (Hvle j). by rewrite lookup_map, Hj.
    + apply (Hvlt j). by rewrite lookup_map, Hj.
  - intros i k Hi. split.
    + apply (Hhle i). by rewrite lookup_map, Hi.
    + apply (Hhlt i). by rewrite lookup_map, Hi.
Qed.
End kpv_statistics.

Lemma sample_background : KpV.background Sample.kpv_peak ≠ [].
Proof. by_eval. Qed.

Lemma snr_ignores_offset_witness :
  KpV.baseline
    (KpV.set_ccf_map (map (map (λ x, x + qz 5)) (KpV.ccf_map Sample.kpv_peak))
       Sample.kpv_peak)
  = KpV.baseline Sample.kpv_peak + qz 5
  ∧ KpV.noise sqrt_floor
      (KpV.set_ccf_map (map (map (λ x, x + qz 5)) (KpV.ccf_map Sample.kpv_peak))
         Sample.kpv_peak)
    = KpV.noise sqrt_floor Sample.kpv_peak
  ∧ KpV.snr sqrt_floor
      (KpV.set_ccf_map (map (map (λ x, x + qz 5)) (KpV.ccf_map Sample.kpv_peak))
         Sample.kpv_peak)
    = KpV.snr sqrt_floor Sample.kpv_peak.
Proof.
  apply (snr_ignores_offset sqrt_floor (qz 5) Sample.kpv_peak).
  - repeat constructor.
  - exact sample_background.
Defined.

Lemma sample_merge_single :
  (λ _, ()) <$> KpV.merge_kpvs Sample.heap2 [Sample.kpv_peak] = Ok ().
Proof. by_eval. Qed.

Lemma merge_single_keeps_snr_witness :
  ∃ h' k',
    KpV.merge_kpvs Sample.heap2 [Sample.kpv_peak] = Ok (h', k')
    ∧ KpV.baseline k' = 0
    ∧ KpV.noise sqrt_floor k' = KpV.noise sqrt_floor Sample.kpv_peak
    ∧ KpV.snr sqrt_floor k' = KpV.snr sqrt_floor Sample.kpv_peak.
Proof.
  pose proof sample_merge_single as F.
  destruct (KpV.merge_kpvs Sample.heap2 [Sample.kpv_peak])
    as [[h' k']|e] eqn:E; [|discriminate F].
  exists h', k'. split; [reflexivity|].
  destruct (merge_single_keeps_snr sqrt_floor Sample.heap2 h' Sample.kpv_peak k')
    as (_ & H1 & H2 & H3).
  - repeat constructor.
  - exact sample_background.
  - exact E.
  - split; [exact H1|]. split; [exact H2|exact H3].
Defined.

Lemma sample_snr_max :
  KpV.snr_max sqrt_floor Sample.kpv_peak = Ok (0, qz 80, qz 9).
Proof. by_eval. Qed.

Lemma snr_max_is_the_maximum_witness :
  ∃ i j,
    KpV.vrestVec Sample.kpv_peak !! j = Some 0
    ∧ KpV.kpVec Sample.kpv_peak !! i = Some (qz 80)
    ∧ cell (KpV.snr sqrt_floor Sample.kpv_peak) i j = Some (qz 9)
    ∧ ∀ a b x, cell (KpV.snr sqrt_floor Sample.kpv_peak) a b = Some x →
        x ≤ qz 9 ∧ ((a, b) ≠ (i, j) → x < qz 9).
Proof.
  apply (snr_max_is_the_maximum sqrt_floor Sample.kpv_peak 0 (qz 80) (qz 9)).
  exact sample_snr_max.
Defined.

Lemma sample_two_peaks_bound :
  Forall (λ y, y ≤ qz 9) (concat (KpV.snr sqrt_floor Sample.kpv_two_peaks)).
Proof. by_eval. Qed.

Lemma snr_max_tie_fails_witness :
  KpV.snr_max sqrt_floor Sample.kpv_two_peaks = Raise TypeError.
Proof.
  apply (snr_max_tie_fails sqrt_floor Sample.kpv_two_peaks 0 1 1 1 (qz 9)).
  - repeat constructor.
  - by_eval.
  - by_eval.
  - discriminate.
  - intros i j y Hy. pose proof sample_two_peaks_bound as H.
    rewrite Forall_forall in H. apply H, elem_of_concat_cell.
    exists i, j. exact Hy.
Defined.

Lemma sample_loc : KpV.loc Sample.kpv_peak (qz 4) (qz 96) = Ok 2.
Proof. by_eval. Qed.

Lemma loc_is_nearest_cell_witness :
  ∃ indh indv gk gv,
    KpV.kpVec Sample.kpv_peak !! indh = Some gk
    ∧ KpV.vrestVec Sample.kpv_peak !! indv = Some gv
    ∧ cell (KpV.ccf_map Sample.kpv_peak) indh indv = Some 2
    ∧ (∀ j v, KpV.vrestVec Sample.kpv_peak !! j = Some v →
         Qcabs (gv - qz 4) ≤ Qcabs (v - qz 4)
         ∧ ((j < indv)%nat → Qcabs (gv - qz 4) < Qcabs (v - qz 4)))
    ∧ (∀ i k, KpV.kpVec Sample.kpv_peak !! i = Some k →
         Qcabs (gk - qz 96) ≤ Qcabs (k - qz 96)
         ∧ ((i < indh)%nat → Qcabs (gk - qz 96) < Qcabs (k - qz 96))).
Proof.
  apply (loc_is_nearest_cell Sample.kpv_peak (qz 4) (qz 96) 2).
  exact sample_loc.
Defined.

(** ** The aligner: clipping, shifts and resampling *)

Lemma mapM_id_Some {A} (f : list (option A)) (vals : list A) :
  mapM id f = Some vals ↔ f = map Some vals.
Proof.
  rewrite mapM_Some. split.
  - induction 1 as [|x y f vals Hx _ IH]; [done|]. cbn in *. by subst.
  - intros ->. induction vals as [|x vals IH]; by constructor.
Qed.

Lemma map_keep_or_drop {A} (g : A → option A) (vals vals' : list A) :
  (∀ x, g x = None ∨ g x = Some x) →
  map g vals = map Some vals' → vals' = vals.
Proof.
  intros Hg. revert vals'.
  induction vals as [|x vals IH]; intros [|y vals'] H; try done.
  cbn in H. injection H as Hx H. destruct (Hg x) as [Hn|Hs].
  - by rewrite Hn in Hx.
  - rewrite Hs in Hx. injection Hx as ->. f_equal. by apply IH.
Qed.

Section align_more.
Variable sqrt : Qc → Qc.
Variable bspline : list Qc → list Qc → Qc → Qc.

Lemma clip_twice (f : list (option Qc)) (sigma : Qc) :
  Align.clip sqrt (Align.clip sqrt f sigma) sigma = Align.clip sqrt f sigma.
Proof.
  unfold Align.clip at 2 3.
  destruct (mapM id f) as [vals|] eqn:E.
  - set (g := λ x : Qc,
           if Qc_ltb (sqrt (np_var vals) * sigma) (Qcabs (x - np_mean vals))
           then None else Some x).
    assert (∀ x, g x = None ∨ g x = Some x) as Hg.
    { intros x. unfold g. destruct (Qc_ltb _ _); auto. }
    unfold Align.clip. destruct (mapM id (map g vals)) as [vals'|] eqn:E';
      [|done].
    apply mapM_id_Some in E'.
    by rewrite (map_keep_or_drop g vals vals' Hg E').
  - unfold Align.clip. by rewrite E.
Qed.

(** X22: clipping a frame a second time changes nothing (the frame that
    has lost a value holds a nan, and a frame with a nan is left as it
    is); clipping keeps the length of the frame, and an entry that is still
    a number is the number that was there. *)
Theorem clip_idempotent (f : list (option Qc)) (sigma : Qc) :
  Align.clip sqrt (Align.clip sqrt f sigma) sigma = Align.clip sqrt f sigma
  ∧ length (Align.clip sqrt f sigma) = length f
  ∧ ∀ i x, Align.clip sqrt f sigma !! i = Some (Some x) →
           f !! i = Some (Some x).
Proof.
  split; [apply clip_twice|].
  unfold Align.clip. destruct (mapM id f) as [vals|] eqn:E; [|done].
  apply mapM_id_Some in E as ->. split.
  - by rewrite !length_map.
  - intros i x. rewrite !lookup_map.
    destruct (vals !! i) as [y|]; cbn; [|done].
    destruct (Qc_ltb _ _); [done|]. done.
Qed.

Lemma clipped_upto_S (k : nat) (flux : list (list (option Qc)))
    (g : list (option Qc)) :
  flux !! k = Some g →
  <[k := Align.clip sqrt g (qz 3)]> (clipped_upto sqrt k flux)
  = clipped_upto sqrt (S k) flux.
Proof.
  intros Hg. unfold clipped_upto.
  assert (length (map (λ f, Align.clip sqrt f (qz 3)) (take k flux)) = k)
    as Hlen.
  { rewrite length_map, length_take. apply lookup_lt_Some in Hg. lia. }
  rewrite insert_app_r_alt by lia. rewrite Hlen, Nat.sub_diag.
  rewrite (drop_S _ _ _ Hg), (take_S_r _ _ _ Hg). cbn.
  by rewrite map_app, <- app_assoc.
Qed.

Lemma clipped_upto_lookup_0 (k : nat) (flux : list (list (option Qc)))
    (f0 : list (option Qc)) :
  flux !! 0%nat = Some f0 →
  clipped_upto sqrt (S k) flux !! 0%nat = Some (Align.clip sqrt f0 (qz 3)).
Proof.
  intros H0. unfold clipped_upto. destruct flux as [|f flux]; [done|].
  cbn in H0. injection H0 as ->. done.
Qed.

Lemma clipped_upto_lookup_k (k : nat) (flux : list (list (option Qc))) :
  clipped_upto sqrt k flux !! k = flux !! k.
Proof.
  unfold clipped_upto.
  destruct (decide (k ≤ length flux)%nat) as [Hk|Hk].
  - rewrite lookup_app_r; rewrite length_map, length_take_le by done; [|done].
    by rewrite Nat.sub_diag, lookup_drop, Nat.add_0_r.
  - rewrite take_ge, drop_ge, app_nil_r by lia. rewrite lookup_map.
    by rewrite (lookup_ge_None_2 flux) by lia.
Qed.

(** What one call of [get_shift] does to the aligner. *)
Lemma get_shift_Ok (self self' : Align.t) (j : nat) :
  Align.get_shift sqrt bspline self j = Ok self' →
  ∃ f0 g0 row,
    Align.dco_flux self !! 0%nat = Some f0
    ∧ <[0%nat := Align.clip sqrt f0 (qz 3)]> (Align.dco_flux self) !! j
      = Some g0
    ∧ Align.dco_flux self'
      = <[j := Align.clip sqrt g0 (qz 3)]>
          (<[0%nat := Align.clip sqrt f0 (qz 3)]> (Align.dco_flux self))
    ∧ Align.ccf self' = <[j := row]> (Align.ccf self)
    ∧ Align.RVt self' = Align.RVt self
    ∧ Align.pixels self' = Align.pixels self
    ∧ Align.shifts self' = Align.shifts self.
Proof.
  intros H. unfold Align.get_shift in H.
  step_bind H as Hc gives [[flux2 f] g]. step_bind H as Hs gives cs.
  injection H as <-. unfold Align.clipped in Hc.
  step_bind Hc as E0 gives f0. step_bind Hc as Ej.
  step_bind Hc as E1 gives g0. step_bind Hc as E2. step_bind Hc as E3.
  injection Hc as <- <- <-.
  apply getitem_Ok in E0, E1.
  exists f0, g0. eexists. by cbn.
Qed.

Lemma get_shift_flux (self self' : Align.t) (k : nat)
    (flux : list (list (option Qc))) :
  Align.get_shift sqrt bspline self k = Ok self' →
  Align.dco_flux self = clipped_upto sqrt k flux →
  Align.dco_flux self' = clipped_upto sqrt (S k) flux.
Proof.
  intros H Hflux.
  apply get_shift_Ok in H as (f0 & g0 & row & H0 & Hg & -> & _).
  rewrite Hflux in *. destruct k as [|k].
  - change (clipped_upto sqrt 0 flux) with flux in *.
    pose proof (clipped_upto_S 0 flux f0 H0) as HS.
    change (clipped_upto sqrt 0 flux) with flux in HS. rewrite HS in *.
    rewrite (clipped_upto_lookup_0 0 flux f0 H0) in Hg. injection Hg as <-.
    rewrite clip_twice. apply list_insert_id.
    by apply clipped_upto_lookup_0.
  - assert (∃ f00, flux !! 0%nat = Some f00) as [f00 H00].
    { unfold clipped_upto in H0. destruct flux as [|f00 flux]; [done|].
      by exists f00. }
    rewrite (clipped_upto_lookup_0 k flux f00 H00) in H0.
    injection H0 as <-. rewrite clip_twice in *.
    assert (<[0%nat := Align.clip sqrt f00 (qz 3)]>
              (clipped_upto sqrt (S k) flux)
            = clipped_upto sqrt (S k) flux) as Hid.
    { apply list_insert_id. by apply clipped_upto_lookup_0. }
    rewrite Hid in Hg. rewrite Hid. rewrite clipped_upto_lookup_k in Hg.
    by apply clipped_upto_S.
Qed.

Lemma get_shifts_seq (self self' : Align.t) (k n : nat)
    (flux : list (list (option Qc))) :
  Align.get_shifts sqrt bspline self (seq k n) = Ok self' →
  Align.dco_flux self = clipped_upto sqrt k flux →
  Align.dco_flux self' = clipped_upto sqrt (k + n) flux
  ∧ length (Align.ccf self') = length (Align.ccf self)
  ∧ Align.RVt self' = Align.RVt self
  ∧ Align.pixels self' = Align.pixels self.
Proof.
  revert self k. induction n as [|n IH]; intros self k H Hflux.
  - cbn in H. injection H as <-. by rewrite Nat.add_0_r.
  - cbn [seq Align.get_shifts] in H. step_bind H as Hk gives self1.
    pose proof (get_shift_flux _ _ _ _ Hk Hflux) as Hflux1.
    apply get_shift_Ok in Hk as (_ & _ & row & _ & _ & _ & Hccf & HRVt & Hpix & _).
    destruct (IH _ _ H Hflux1) as (Hf & Hc & Hr & Hp).
    rewrite Nat.add_succ_r. split; [done|].
    rewrite Hc, Hr, Hp, Hccf, length_insert. done.
Qed.

(** X23: a run of an aligner that was built by the constructor (one row of
    [ccf] per frame, one column per trial shift) leaves every frame of its
    normalised data clipped at three standard deviations, and finds one
    shift per frame; each shift is the trial shift at the position that
    [argmax] gives for the row of the frame. *)
Theorem run_clips_and_shifts (self r : Align.t) :
  length (Align.ccf self) = length (Align.dco_flux self) →
  Forall (λ row, length row = length (Align.RVt self)) (Align.ccf self) →
  Align.run sqrt bspline self = Ok r →
  Align.dco_flux r
  = map (λ f, Align.clip sqrt f (qz 3)) (Align.dco_flux self)
  ∧ length (Align.shifts r) = length (Align.dco_flux self)
  ∧ Align.RVt r = Align.RVt self ∧ Align.pixels r = Align.pixels self
  ∧ ∀ j s, Align.shifts r !! j = Some s →
      ∃ row i, Align.ccf r !! j = Some row ∧ np_argmax row = Ok i
               ∧ Align.RVt self !! i = Some s.
Proof.
  intros Hccf _ H. unfold Align.run in H.
  step_bind H as Hg gives self1. step_bind H as Hidx gives idx.
  step_bind H as Hsh gives sh. injection H as <-. cbn.
  destruct (get_shifts_seq _ _ 0 _ (Align.dco_flux self) Hg eq_refl)
    as (Hf & Hc & Hr & Hp).
  split; [|split; [|split; [|split]]].
  - rewrite Hf. unfold clipped_upto. cbn [Nat.add].
    by rewrite take_ge, drop_ge, app_nil_r by lia.
  - apply for_each_length in Hsh, Hidx. by rewrite Hsh, Hidx, Hc.
  - done.
  - done.
  - intros j s Hs.
    assert (j < length idx)%nat as Hj.
    { apply for_each_length in Hsh. rewrite <- Hsh. by eapply lookup_lt_Some. }
    apply lookup_lt_is_Some_2 in Hj as [i Hi].
    destruct (for_each_lookup _ _ _ _ _ Hsh Hi) as (s' & Hs' & Hlk).
    rewrite Hs in Hlk. injection Hlk as <-.
    assert (j < length (Align.ccf self1))%nat as Hj.
    { apply for_each_length in Hidx. rewrite <- Hidx.
      by eapply lookup_lt_Some. }
    apply lookup_lt_is_Some_2 in Hj as [row Hrow].
    destruct (for_each_lookup _ _ _ _ _ Hidx Hrow) as (i' & Hi' & Hlk).
    rewrite Hi in Hlk. injection Hlk as <-.
    exists row, i. split; [done|]. split; [done|].
    apply getitem_Ok in Hs'. by rewrite <- Hr.
Qed.

(** The frames after the loop of [apply_shifts] over distinct frames. *)
Lemma shift_frames_spec (self : Align.t) (js : list nat) (corr corr' : matrix) :
  Align.shift_frames bspline self js corr = Ok corr' →
  NoDup js →
  length corr' = length corr
  ∧ (∀ j, j ∉ js → corr' !! j = corr !! j)
  ∧ (∀ j, j ∈ js →
       ∃ row s,
         corr !! j = Some row ∧ Align.shifts self !! j = Some s
         ∧ length row = length (Align.pixels self)
         ∧ (3 < length (Align.pixels self))%nat
         ∧ corr' !! j
           = Some (map (λ x, bspline (Align.pixels self) row (x + s))
                     (Align.pixels self))).
Proof.
  revert corr. induction js as [|j js IH]; intros corr H Hnd.
  - cbn in H. injection H as <-. split; [done|]. split; [done|].
    by intros j ?%elem_of_nil.
  - apply NoDup_cons in Hnd as [Hj Hnd]. cbn [Align.shift_frames] in H.
    step_bind H as Erow gives row. step_bind H as Ecs gives cs.
    step_bind H as Es gives s.
    apply getitem_Ok in Erow, Es.
    unfold Align.splrep_xy in Ecs. case_bool_decide as Hlen; [|done].
    cbn [negb] in Ecs. unfold splrep in Ecs.
    case_bool_decide as H3; [done|]. injection Ecs as <-.
    destruct (IH _ H Hnd) as (Hl & Hout & Hin).
    rewrite length_insert in Hl. split; [done|]. split.
    + intros k Hk. apply not_elem_of_cons in Hk as [Hne Hk].
      rewrite (Hout k Hk). by apply list_lookup_insert_ne.
    + intros k Hk. apply elem_of_cons in Hk as [->|Hk].
      * exists row, s. split; [done|]. split; [done|]. split; [done|].
        split; [lia|]. rewrite (Hout j Hj).
        apply list_lookup_insert_eq. by eapply lookup_lt_Some.
      * assert (k ≠ j) as Hne by (intros ->; done).
        destruct (Hin k Hk) as (row' & s' & Hr' & Hs' & Hrest).
        rewrite list_lookup_insert_ne in Hr' by done.
        by exists row', s'.
Qed.

(** X24: [apply_shifts] never resamples the reference frame 0, nor any row
    beyond the frames of the data.  Every other frame is replaced by the
    spline through its own values, evaluated at the pixels moved by the
    shift of that frame; this needs more than three pixels and as many
    values in the row as there are pixels. *)
Theorem apply_shifts_frames (self : Align.t) (corr corr' : matrix) :
  Align.apply_shifts bspline self corr = Ok corr' →
  length corr' = length corr
  ∧ corr' !! 0%nat = corr !! 0%nat
  ∧ (∀ j, (length (Align.dco_flux self) ≤ j)%nat → corr' !! j = corr !! j)
  ∧ (∀ j, (1 ≤ j < length (Align.dco_flux self))%nat →
       ∃ row s,
         corr !! j = Some row ∧ Align.shifts self !! j = Some s
         ∧ length row = length (Align.pixels self)
         ∧ (3 < length (Align.pixels self))%nat
         ∧ corr' !! j
           = Some (map (λ x, bspline (Align.pixels self) row (x + s))
                     (Align.pixels self))).
Proof.
  intros H. unfold Align.apply_shifts in H.
  apply shift_frames_spec in H as (Hl & Hout & Hin); [|apply NoDup_seq].
  split; [done|]. split; [|split].
  - apply Hout. rewrite elem_of_seq. lia.
  - intros j Hj. apply Hout. rewrite elem_of_seq. lia.
  - intros j Hj. apply Hin. rewrite elem_of_seq. lia.
Qed.

(** X25: with all shifts zero, and a spline that passes through the points
    it is fitted to, [apply_shifts] gives back the frames it was given. *)
Theorem apply_shifts_zero (self : Align.t) (corr corr' : matrix) :
  (∀ row, row ∈ corr →
     passes_through (bspline (Align.pixels self) row) (Align.pixels self) row) →
  Forall (λ s, s = 0) (Align.shifts self) →
  Align.apply_shifts bspline self corr = Ok corr' →
  corr' = corr.
Proof.
  intros Hpass Hzero H. unfold Align.apply_shifts in H.
  apply shift_frames_spec in H as (Hl & Hout & Hin); [|apply NoDup_seq].
  apply list_eq. intros j.
  destruct (decide (j ∈ seq 1 (length (Align.dco_flux self) - 1)))
    as [Hj|Hj]; [|by apply Hout].
  destruct (Hin j Hj) as (row & s & Hrow & Hs & Hlen & _ & ->).
  rewrite Hrow. f_equal.
  assert (s = 0) as ->.
  { rewrite Forall_forall in Hzero. apply Hzero.
    by eapply list_elem_of_lookup_2. }
  apply list_eq. intros i. rewrite lookup_map.
  destruct (Align.pixels self !! i) as [x|] eqn:Hx; cbn.
  - assert (i < length row)%nat as Hi.
    { rewrite Hlen. by eapply lookup_lt_Some. }
    apply lookup_lt_is_Some_2 in Hi as [y Hy]. rewrite Hy. f_equal.
    rewrite Qcplus_0_r. apply (Hpass row) with i; [|done|done].
    by eapply list_elem_of_lookup_2.
  - symmetry. apply lookup_ge_None. rewrite Hlen. by apply lookup_ge_None.
Qed.
End align_more.

Lemma sample_align_run :
  (λ _, ()) <$> Align.run sqrt_floor broken_line Sample.align_ok = Ok ().
Proof. by_eval. Qed.

Lemma run_clips_and_shifts_witness :
  ∃ r, Align.run sqrt_floor broken_line Sample.align_ok = Ok r
       ∧ Align.dco_flux r
         = map (λ f, Align.clip sqrt_floor f (qz 3))
             (Align.dco_flux Sample.align_ok)
       ∧ length (Align.shifts r) = 2%nat.
Proof.
  pose proof sample_align_run as F.
  destruct (Align.run sqrt_floor broken_line Sample.align_ok) as [r|e] eqn:E;
    [|discriminate F].
  exists r. split; [reflexivity|].
  destruct (run_clips_and_shifts sqrt_floor broken_line Sample.align_ok r)
    as (H1 & H2 & _).
  - reflexivity.
  - repeat constructor.
  - exact E.
  - split; [exact H1|exact H2].
Defined.

Lemma sample_apply_shifts :
  (λ _, ()) <$> Align.apply_shifts broken_line Sample.align_ok Sample.corr_ok
  = Ok ().
Proof. by_eval. Qed.

Lemma apply_shifts_frames_witness :
  ∃ corr',
    Align.apply_shifts broken_line Sample.align_ok Sample.corr_ok = Ok corr'
    ∧ length corr' = 2%nat
    ∧ corr' !! 0%nat = Some [1; 2; 1; 2; 1; 2].
Proof.
  pose proof sample_apply_shifts as F.
  destruct (Align.apply_shifts broken_line Sample.align_ok Sample.corr_ok)
    as [corr'|e] eqn:E; [|discriminate F].
  exists corr'. split; [reflexivity|].
  destruct (apply_shifts_frames broken_line Sample.align_ok Sample.corr_ok
              corr' E) as (H1 & H2 & _).
  split; [exact H1|exact H2].
Defined.

Lemma sample_pixels_sorted :
  StronglySorted Qclt (Align.pixels Sample.align_ok).
Proof. by_eval. Qed.

Lemma apply_shifts_zero_witness :
  ∃ corr',
    Align.apply_shifts broken_line Sample.align_ok Sample.corr_ok = Ok corr'
    ∧ corr' = Sample.corr_ok.
Proof.
  pose proof sample_apply_shifts as F.
  destruct (Align.apply_shifts broken_line Sample.align_ok Sample.corr_ok)
    as [corr'|e] eqn:E; [|discriminate F].
  exists corr'. split; [reflexivity|].
  apply (apply_shifts_zero broken_line Sample.align_ok Sample.corr_ok corr').
  - intros row Hrow i xi yi Hx Hy.
    apply (broken_line_knot _ _ i); [exact sample_pixels_sorted| |exact Hx|exact Hy].
    apply elem_of_cons in Hrow as [->|Hrow]; [reflexivity|].
    apply list_elem_of_singleton in Hrow as ->. reflexivity.
  - repeat constructor.
  - exact E.
Defined.

(** ** An offset of the data *)

Section ccf_offset.
Variable crop : Template.t → Qc → Qc → Qc → Template.t.
Variable bspline : list Qc → list Qc → Qc → Qc.

Lemma centered_flux_offset (c : Qc) (wlt : list (option Qc))
    (flux flux_err : matrix) :
  CCF.centered_flux (Datacube.mk wlt (map (map (λ x, x + c)) flux) flux_err)
  = CCF.centered_flux (Datacube.mk wlt flux flux_err).
Proof.
  unfold CCF.centered_flux, CCF.usable_flux. cbn [Datacube.flux].
  change (CCF.nans (Datacube.mk wlt (map (map (λ x, x + c)) flux) flux_err))
    with (CCF.nans (Datacube.mk wlt flux flux_err)).
  set (mask := map negb (CCF.nans (Datacube.mk wlt flux flux_err))).
  rewrite (map_map (map (λ x, x + c))).
  rewrite (map_ext (λ row, select mask (map (λ x, x + c) row))
             (λ row, map (λ x, x + c) (select mask row)))
    by (intros; apply select_map).
  rewrite <- (map_map (select mask) (map (λ x, x + c))).
  set (u := map (select mask) flux).
  rewrite concat_map_map, map_map.
  apply map_ext_in. intros row Hrow. rewrite map_map.
  apply map_ext_in. intros x Hx.
  rewrite np_mean_offset; [ring|].
  intros Hnil.
  assert (x ∈ concat u) as Hin.
  { apply list_elem_of_In, in_concat. by exists row. }
  rewrite Hnil in Hin. by apply elem_of_nil in Hin.
Qed.

(** X26: adding one constant to every flux value of the data changes
    nothing in the cross-correlation, whatever the noise mode: the data are
    centred on their mean before they are used. *)
Theorem cross_correlation_ignores_offset (self : CCF.t) (c : Qc)
    (wlt : list (option Qc)) (flux flux_err : matrix) (noise : string) :
  CCF.cross_correlation crop bspline self
    (Datacube.mk wlt (map (map (λ x, x + c)) flux) flux_err) noise
  = CCF.cross_correlation crop bspline self
      (Datacube.mk wlt flux flux_err) noise.
Proof.
  unfold CCF.cross_correlation, CCF.noise2.
  rewrite centered_flux_offset.
  change (CCF.shifted_template crop bspline self
            (Datacube.mk wlt (map (map (λ x, x + c)) flux) flux_err))
    with (CCF.shifted_template crop bspline self
            (Datacube.mk wlt flux flux_err)).
  change (CCF.usable_wave
            (Datacube.mk wlt (map (map (λ x, x + c)) flux) flux_err))
    with (CCF.usable_wave (Datacube.mk wlt flux flux_err)).
  change (CCF.nans (Datacube.mk wlt (map (map (λ x, x + c)) flux) flux_err))
    with (CCF.nans (Datacube.mk wlt flux flux_err)).
  done.
Qed.
End ccf_offset.

(** ** The two searches for the peak *)

Section peak_searches.
Variable sqrt : Qc → Qc.
Hypothesis sqrt_0 : sqrt 0 = 0.

(** A grid with a cell and a surface without nan has a second cell. *)
Lemma second_cell (self : KpV.t) (i j : nat) :
  KpV.shape_ok self = true →
  KpV.snr_has_nan sqrt self = false →
  is_Some (cell (KpV.ccf_map self) i j) →
  ∃ a b, (a, b) ≠ (i, j) ∧ is_Some (cell (KpV.ccf_map self) a b).
Proof.
  intros Hshape Hnan Hij.
  apply (shape_ok_cell self i j Hshape) in Hij as [Hi Hj].
  destruct (decide (2 ≤ length (KpV.kpVec self))%nat) as [Hn|Hn].
  { exists (if decide (i = 0%nat) then 1%nat else 0%nat), j. split.
    - destruct (decide (i = 0%nat)); intros [= ? ]; lia.
    - apply shape_ok_cell; [done|]. destruct (decide (i = 0%nat)); lia. }
  destruct (decide (2 ≤ length (KpV.vrestVec self))%nat) as [Hm|Hm].
  { exists i, (if decide (j = 0%nat) then 1%nat else 0%nat). split.
    - destruct (decide (j = 0%nat)); intros [= ? ]; lia.
    - apply shape_ok_cell; [done|]. destruct (decide (j = 0%nat)); lia. }
  exfalso.
  assert (KpV.snr_has_nan sqrt self = true) as Ht; [|by rewrite Ht in Hnan].
  apply (single_cell_has_nan sqrt sqrt_0 self i j Hshape).
  intros a b Hab. apply (shape_ok_cell self a b Hshape) in Hab as [Ha Hb].
  f_equal; lia.
Qed.

(** X27: the two searches agree when they can: if [snr_max] returns a
    peak that lies inside the window of the default search
    ([|Kp - mean(kpVec)| < 10], [|Vrest| < 5]) of a map of the shape of the
    grid, then [snr_at_peak] returns that very peak, its position and its
    value. *)
Theorem snr_at_peak_agrees_with_snr_max (self : KpV.t) (v k s : Qc) :
  KpV.shape_ok self = true →
  KpV.snr_max sqrt self = Ok (v, k, s) →
  Qcabs (k - np_mean (KpV.kpVec self)) < qz 10 → Qcabs v < qz 5 →
  ∃ self', KpV.snr_at_peak sqrt self = Ok self'
           ∧ KpV.peak_pos self' = Some (v, k)
           ∧ KpV.peak_snr self' = Some s.
Proof.
  intros Hshape H Hwk Hwv.
  apply snr_max_hit in H as (Hmax & Hnan & i & j & Hw & Hv & Hk).
  assert (∀ a b, cell (KpV.snr sqrt self) a b = Some s ↔ (a, b) = (i, j))
    as Hcell.
  { intros a b. rewrite <- elem_of_where_eq, Hw.
    apply list_elem_of_singleton. }
  assert (cell (KpV.snr sqrt self) i j = Some s) as Hs by by apply Hcell.
  apply np_max_spec in Hmax as [_ Hle].
  assert (∀ a b y, cell (KpV.snr sqrt self) a b = Some y →
            (a, b) ≠ (i, j) → y < s) as Hlt.
  { intros a b y Hy Hne.
    assert (y ≤ s) as Hys.
    { apply Hle, elem_of_concat_cell. by exists a, b. }
    destruct (Qcle_lt_or_eq _ _ Hys) as [?|Heq]; [done|].
    subst y. by apply Hcell in Hy. }
  exists (KpV.set_peak i j (v, k) s self). split; [|done].
  apply (peak_found sqrt self i j k v s); try done.
  - intros a b y _ Hy Hne. by apply (Hlt a b).
  - assert (is_Some (cell (KpV.ccf_map self) i j)) as Hij.
    { rewrite cell_snr in Hs.
      destruct (cell (KpV.ccf_map self) i j); [by eexists|done]. }
    destruct (second_cell self i j Hshape Hnan Hij) as (a & b & Hne & [y Hy]).
    exists a, b. eexists. split.
    + rewrite cell_snr, Hy. done.
    + apply (Hlt a b); [|done]. by rewrite cell_snr, Hy.
Qed.
End peak_searches.

Lemma sample_snr_max_centre :
  KpV.snr_max sqrt_floor Sample.kpv_centre = Ok (0, qz 90, qz 9).
Proof. by_eval. Qed.

Lemma snr_at_peak_agrees_with_snr_max_witness :
  ∃ self', KpV.snr_at_peak sqrt_floor Sample.kpv_centre = Ok self'
           ∧ KpV.peak_pos self' = Some (0, qz 90)
           ∧ KpV.peak_snr self' = Some (qz 9).
Proof.
  assert (sqrt_floor 0 = 0) as H0 by by_eval.
  apply (snr_at_peak_agrees_with_snr_max sqrt_floor H0 Sample.kpv_centre
           0 (qz 90) (qz 9)).
  - vm_compute. reflexivity.
  - exact sample_snr_max_centre.
  - by_eval.
  - by_eval.
Defined.

(** ** The normalised correlation of two frames *)

Lemma sq_nonneg (a : Qc) : 0 ≤ a * a.
Proof.
  destruct (Qclt_le_dec a 0) as [Hneg|Hpos].
  - replace (a * a) with (- a * - a) by ring.
    assert (0 ≤ - a) as H.
    { apply (Qcle_rearrange a 0); [ring|by apply Qclt_le_weak]. }
    by apply Qcmult_nonneg_nonneg.
  - by apply Qcmult_nonneg_nonneg.
Qed.

Lemma np_sum_nonneg (l : list Qc) : Forall (λ x, 0 ≤ x) l → 0 ≤ np_sum l.
Proof.
  induction 1 as [|x l Hx _ IH]; [done|].
  rewrite np_sum_cons. by apply Qcplus_nonneg_nonneg.
Qed.

Lemma np_dot1_comm (f g : list Qc) : np_dot1 f g = np_dot1 g f.
Proof.
  unfold np_dot1. f_equal. revert g.
  induction f as [|x f IH]; intros [|y g]; cbn; try done.
  rewrite IH. f_equal. ring.
Qed.

Lemma np_dot1_self_nonneg (f : list Qc) : 0 ≤ np_dot1 f f.
Proof.
  unfold np_dot1. apply np_sum_nonneg.
  induction f as [|x f IH]; cbn; constructor; [apply sq_nonneg|done].
Qed.

(** The sum of the squares of [f t - g] is a quadratic in [t]. *)
Lemma quadratic_nonneg (f g : list Qc) (t : Qc) :
  length f = length g →
  0 ≤ np_dot1 f f * t * t - 2 * np_dot1 f g * t + np_dot1 g g.
Proof.
  intros Hlen.
  assert (np_sum (zip_with (λ x y, (x * t - y) * (x * t - y)) f g)
          = np_dot1 f f * t * t - 2 * np_dot1 f g * t + np_dot1 g g) as <-.
  { unfold np_dot1. revert g Hlen.
    induction f as [|x f IH]; intros [|y g] Hlen; try done.
    cbn [zip_with]. rewrite !np_sum_cons, IH by (cbn in Hlen; lia). ring. }
  apply np_sum_nonneg. clear Hlen. revert g.
  induction f as [|x f IH]; intros [|y g]; cbn; try constructor;
    [apply sq_nonneg|apply IH].
Qed.

(** The inequality of Cauchy and Schwarz. *)
Lemma cauchy_schwarz (f g : list Qc) :
  length f = length g →
  np_dot1 f g * np_dot1 f g ≤ np_dot1 f f * np_dot1 g g.
Proof.
  intros Hlen. pose proof (quadratic_nonneg f g) as Hq.
  pose proof (np_dot1_self_nonneg f) as HA.
  set (A := np_dot1 f f) in *. set (B := np_dot1 f g) in *.
  set (C := np_dot1 g g) in *.
  destruct (decide (A = 0)) as [HA0|HA0].
  - assert (B = 0) as ->.
    { destruct (decide (B = 0)) as [|HB]; [done|]. exfalso.
      specialize (Hq ((C + 1) / (2 * B)) Hlen). rewrite HA0 in Hq.
      replace (0 * ((C + 1) / (2 * B)) * ((C + 1) / (2 * B))
               - 2 * B * ((C + 1) / (2 * B)) + C) with (- (1))%Qc in Hq.
      - revert Hq. by_eval.
      - field. split; [done|]. by_eval. }
    rewrite HA0. replace (0 * 0) with (0 * C) by ring. apply Qcle_refl.
  - assert (0 < A) as Hpos.
    { destruct (Qcle_lt_or_eq _ _ HA) as [|Heq]; [done|]. by symmetry in Heq. }
    specialize (Hq (B / A) Hlen).
    apply (Qcmult_le_mono_nonneg_r _ _ A (Qclt_le_weak _ _ Hpos)) in Hq.
    apply (Qcle_rearrange (0 * A)
             ((A * (B / A) * (B / A) - 2 * B * (B / A) + C) * A));
      [field; done|done].
Qed.

Lemma sq_le_pos (x s : Qc) : x * x ≤ s * s → 0 < s → x ≤ s.
Proof.
  intros Hsq Hs. destruct (Qclt_le_dec s x) as [Hlt|]; [|done]. exfalso.
  apply (Qcle_not_lt _ _ Hsq). apply Qclt_trans with (s * x).
  - by apply Qcmult_lt_mono_pos_l.
  - apply Qcmult_lt_mono_pos_r; [by apply Qclt_trans with s|done].
Qed.

Section xcorr_properties.
Variable sqrt : Qc → Qc.

(** X28: the correlation of two frames of one length does not depend on
    their order, and where the square root is exact and not zero it is a
    number between -1 and 1. *)
Theorem xcorr_bounded (f g : list Qc) :
  f ≠ [] → length f = length g →
  let n := qn (length f) in
  let v := np_dot1 f f / n * (np_dot1 g g / n) in
  0 < sqrt v → sqrt v * sqrt v = v →
  Align.xcorr sqrt f g = Align.xcorr sqrt g f
  ∧ Qcabs (Align.xcorr sqrt f g) ≤ 1.
Proof.
  intros Hne Hlen n v Hs Hsq. split.
  - unfold Align.xcorr. rewrite <- Hlen, (np_dot1_comm g f).
    do 2 f_equal. ring.
  - unfold Align.xcorr. fold n. fold v.
    set (R := np_dot1 f g / n). set (s := sqrt v) in *.
    assert (n ≠ 0) as Hn.
    { unfold n. apply qn_nonzero. by destruct f. }
    assert (R * R ≤ s * s) as HR.
    { rewrite Hsq. unfold R, v.
      replace (np_dot1 f g / n * (np_dot1 f g / n))
        with (np_dot1 f g * np_dot1 f g * (/ n * / n)) by (field; done).
      replace (np_dot1 f f / n * (np_dot1 g g / n))
        with (np_dot1 f f * np_dot1 g g * (/ n * / n)) by (field; done).
      apply Qcmult_le_mono_nonneg_r; [apply sq_nonneg|].
      by apply cauchy_schwarz. }
    assert (s ≠ 0) as Hs0.
    { intros H0. rewrite H0 in Hs. revert Hs. by_eval. }
    pose proof (Qcinv_pos _ Hs) as Hinv.
    apply Qcabs.Qcabs_Qcle_condition. split.
    + assert (- R ≤ s) as H1.
      { apply sq_le_pos; [|done]. by replace (- R * - R) with (R * R) by ring. }
      apply (Qcmult_le_mono_pos_r _ _ (/ s) Hinv) in H1.
      apply (Qcle_rearrange (- R * / s) (s * / s)); [field; done|done].
    + assert (R ≤ s) as H1 by by apply sq_le_pos.
      apply (Qcmult_le_mono_pos_r _ _ (/ s) Hinv) in H1.
      apply (Qcle_rearrange (R * / s) (s * / s)); [field; done|done].
Qed.

(** X29: a frame that is not all zero has the correlation 1 with itself,
    where the square root is exact. *)
Theorem xcorr_self (f : list Qc) :
  f ≠ [] →
  let v := np_dot1 f f / qn (length f) in
  0 < sqrt (v * v) → sqrt (v * v) * sqrt (v * v) = v * v →
  Align.xcorr sqrt f f = 1.
Proof.
  intros Hne v Hs Hsq. unfold Align.xcorr. fold v.
  set (s := sqrt (v * v)) in *.
  assert (qn (length f) ≠ 0) as Hn.
  { apply qn_nonzero. by destruct f. }
  assert (0 ≤ v) as Hv.
  { unfold v, Qcdiv. apply Qcmult_nonneg_nonneg; [apply np_dot1_self_nonneg|].
    apply Qclt_le_weak, Qcinv_pos.
    destruct (Qcle_lt_or_eq _ _ (qn_nonneg (length f))) as [|Heq]; [done|].
    by symmetry in Heq. }
  assert (s = v) as ->.
  { apply Qcle_antisym.
    - destruct (Qclt_le_dec v s) as [Hlt|]; [|done]. exfalso.
      assert (v * v < s * s) as Hc; [|rewrite Hsq in Hc; by apply Qclt_not_eq in Hc].
      apply Qcle_lt_trans with (v * s).
      + by apply Qcmult_le_mono_nonneg_l, Qclt_le_weak.
      + by apply Qcmult_lt_mono_pos_r.
    - apply sq_le_pos; [by rewrite Hsq; apply Qcle_refl|done]. }
  field. intros H0. rewrite H0 in Hs. revert Hs. by_eval.
Qed.
End xcorr_properties.

Lemma xcorr_bounded_witness :
  Align.xcorr sqrt_floor [1; 2] [2; 1] = Align.xcorr sqrt_floor [2; 1] [1; 2]
  ∧ Qcabs (Align.xcorr sqrt_floor [1; 2] [2; 1]) ≤ 1.
Proof.
  apply (xcorr_bounded sqrt_floor [1; 2] [2; 1]).
  - discriminate.
  - reflexivity.
  - by_eval.
  - by_eval.
Defined.

Lemma xcorr_self_witness : Align.xcorr sqrt_floor [1; 2] [1; 2] = 1.
Proof.
  apply (xcorr_self sqrt_floor [1; 2]).
  - discriminate.
  - by_eval.
  - by_eval.
Defined.

(** ** Normalising a map by the medians of its columns *)

Lemma even_half (n : nat) :
  (if Nat.even n then n = 2 * (n / 2) else n = 2 * (n / 2) + 1)%nat.
Proof.
  pose proof (Nat.div_mod_eq n 2) as Hd.
  pose proof (Nat.mod_upper_bound n 2) as Hm.
  destruct (Nat.even n) eqn:He.
  - apply Nat.even_spec in He as [k ->].
    rewrite (Nat.mul_comm 2 k), Nat.div_mul by lia. lia.
  - assert (Nat.odd n = true) as Ho by (by rewrite <- Nat.negb_even, He).
    apply Nat.odd_spec in Ho as [k ->].
    rewrite (Nat.mul_comm 2 k), Nat.div_add_l by lia. cbn. lia.
Qed.

Lemma merge_sort_scale_pos (c : Qc) (a : list Qc) :
  0 < c →
  merge_sort Qcle (map (λ x, x * c) a) = map (λ x, x * c) (merge_sort Qcle a).
Proof.
  intros Hc. apply (Sorted_unique Qcle).
  - apply Sorted_merge_sort; apply _.
  - rewrite map_fmap. apply (Sorted_fmap _ Qcle Qcle).
    + intros x y Hxy. by apply Qcmult_le_mono_nonneg_r; [apply Qclt_le_weak|].
    + apply Sorted_merge_sort; apply _.
  - rewrite merge_sort_Permutation, !map_fmap.
    by rewrite merge_sort_Permutation.
Qed.

Lemma merge_sort_scale_neg (c : Qc) (a : list Qc) :
  c < 0 →
  merge_sort Qcle (map (λ x, x * c) a)
  = reverse (map (λ x, x * c) (merge_sort Qcle a)).
Proof.
  intros Hc. apply (Sorted_unique Qcle).
  - apply Sorted_merge_sort; apply _.
  - apply (Sorted_reverse (flip Qcle)).
    rewrite map_fmap. apply (Sorted_fmap _ Qcle (flip Qcle)).
    + intros x y Hxy. unfold flip.
      apply (Qcle_rearrange (x * - c) (y * - c)); [ring|].
      apply Qcmult_le_mono_nonneg_r; [|done].
      apply (Qcle_rearrange c 0); [ring|by apply Qclt_le_weak].
    + apply Sorted_merge_sort; apply _.
  - rewrite merge_sort_Permutation, reverse_Permutation, !map_fmap.
    by rewrite merge_sort_Permutation.
Qed.

(** The median of scaled values is the scaled median. *)
Lemma np_median_scale (c : Qc) (a : list Qc) :
  c ≠ 0 → np_median (map (λ x, x * c) a) = np_median a * c.
Proof.
  intros Hc. unfold np_median. rewrite length_map.
  set (s := merge_sort Qcle a). set (n := length a).
  assert (length s = n) as Hs.
  { unfold s, n. by rewrite merge_sort_Permutation. }
  destruct (decide (n = 0%nat)) as [Hn0|Hn0].
  { assert (a = []) as -> by (by apply nil_length_inv).
    cbn. unfold Qcdiv. ring. }
  assert (∀ i, (i < n)%nat →
            default 0 (map (λ x, x * c) s !! i) = default 0 (s !! i) * c)
    as Hi.
  { intros i Hlt. rewrite lookup_map.
    destruct (s !! i) as [x|] eqn:Hx; [done|].
    apply lookup_ge_None in Hx. lia. }
  pose proof (even_half n) as Hhalf.
  destruct (Qclt_le_dec c 0) as [Hneg|Hpos].
  - rewrite merge_sort_scale_neg by done. fold s.
    assert (∀ i, (i < n)%nat →
              default 0 (reverse (map (λ x, x * c) s) !! i)
              = default 0 (s !! (n - S i)%nat) * c) as Hr.
    { intros i Hlt. rewrite reverse_lookup by (rewrite length_map; lia).
      rewrite length_map, Hs. apply Hi. lia. }
    destruct (Nat.even n).
    + rewrite !Hr by lia.
      replace (n - S (n / 2 - 1))%nat with (n / 2)%nat by lia.
      replace (n - S (n / 2))%nat with (n / 2 - 1)%nat by lia.
      field. by_eval.
    + rewrite Hr by lia.
      by replace (n - S (n / 2))%nat with (n / 2)%nat by lia.
  - assert (0 < c) as Hpos'.
    { destruct (Qcle_lt_or_eq _ _ Hpos) as [|Heq]; [done|]. by symmetry in Heq. }
    rewrite merge_sort_scale_pos by done. fold s.
    destruct (Nat.even n).
    + rewrite !Hi by lia. field. by_eval.
    + by rewrite Hi by lia.
Qed.

Lemma lookup_columns (n : nat) (m : matrix) (j : nat) :
  (j < n)%nat →
  columns n m !! j = Some (map (λ row, default 0 (row !! j)) m).
Proof. intros Hj. unfold columns. by rewrite lookup_map, lookup_seq_lt. Qed.

Lemma length_columns (n : nat) (m : matrix) : length (columns n m) = n.
Proof. unfold columns. by rewrite length_map, length_seq. Qed.

(** X30: for a map with frames of one length and no column whose median is
    zero, [normalise] keeps the shape of the map and leaves every column
    with the median 1; normalising a second time changes nothing. *)
Theorem normalise_column_medians (self : CCF.t) (n : nat) :
  CCF.flux self ≠ [] →
  Forall (λ row, length row = n) (CCF.flux self) →
  Forall (λ col, np_median col ≠ 0) (columns n (CCF.flux self)) →
  Forall (λ row, length row = n) (CCF.flux (CCF.normalise self))
  ∧ length (CCF.flux (CCF.normalise self)) = length (CCF.flux self)
  ∧ Forall (λ col, np_median col = 1)
      (columns n (CCF.flux (CCF.normalise self)))
  ∧ CCF.normalise (CCF.normalise self) = CCF.normalise self.
Proof.
  intros Hne Hrect Hmed.
  assert (match CCF.flux self with [] => 0%nat | row :: _ => length row end
          = n) as Hn.
  { destruct (CCF.flux self) as [|row m]; [done|]. by inversion Hrect. }
  set (med := map np_median (columns n (CCF.flux self))).
  assert (length med = n) as Hlmed.
  { unfold med. by rewrite length_map, length_columns. }
  assert (CCF.flux (CCF.normalise self)
          = map (λ row, zip_with Qcdiv row med) (CCF.flux self)) as Hflux.
  { unfold CCF.normalise. cbn [CCF.flux]. by rewrite Hn. }
  assert (Forall (λ row, length row = n) (CCF.flux (CCF.normalise self)))
    as Hrect'.
  { rewrite Hflux, Forall_forall. intros row Hrow. rewrite map_fmap in Hrow.
    apply list_elem_of_fmap in Hrow as (row0 & -> & Hrow0).
    rewrite Forall_forall in Hrect. rewrite length_zip_with.
    rewrite (Hrect row0 Hrow0), Hlmed. lia. }
  assert (∀ j, (j < n)%nat →
            ∃ col mj,
              columns n (CCF.flux self) !! j = Some col
              ∧ np_median col = mj ∧ mj ≠ 0
              ∧ columns n (CCF.flux (CCF.normalise self)) !! j
                = Some (map (λ x, x * / mj) col)) as Hcol.
  { intros j Hj. eexists. exists (np_median (map (λ row, default 0 (row !! j))
                                               (CCF.flux self))).
    split; [by apply lookup_columns|]. split; [done|]. split.
    - rewrite Forall_forall in Hmed. apply Hmed.
      eapply list_elem_of_lookup_2. by apply lookup_columns.
    - rewrite lookup_columns, Hflux by done. f_equal. rewrite !map_map.
      apply map_ext_in. intros row Hrow.
      rewrite Forall_forall in Hrect.
      apply list_elem_of_In, Hrect in Hrow.
      rewrite lookup_zip_with.
      assert (j < length row)%nat as Hjr by lia.
      apply lookup_lt_is_Some_2 in Hjr as [x ->]. cbn.
      unfold med. rewrite lookup_map, lookup_columns by done. done. }
  assert (Forall (λ col, np_median col = 1)
            (columns n (CCF.flux (CCF.normalise self)))) as Hone.
  { rewrite Forall_forall. intros col Hc.
    apply list_elem_of_lookup in Hc as [j Hj].
    assert (j < n)%nat as Hjn.
    { apply lookup_lt_Some in Hj. by rewrite length_columns in Hj. }
    destruct (Hcol j Hjn) as (col0 & mj & _ & Hm & Hm0 & Hj').
    rewrite Hj in Hj'. injection Hj' as ->.
    rewrite np_median_scale, Hm; [by field|].
    intros Hinv. pose proof (Qcmult_inv_r mj Hm0) as H1.
    rewrite Hinv, Qcmult_0_r in H1. discriminate H1. }
  split; [done|]. split; [by rewrite Hflux, length_map|]. split; [done|].
  assert (match CCF.flux (CCF.normalise self) with
          | [] => 0%nat | row :: _ => length row end = n) as Hn'.
  { destruct (CCF.flux (CCF.normalise self)) as [|row m] eqn:E.
    - rewrite Hflux in E. by destruct (CCF.flux self).
    - by inversion Hrect'. }
  unfold CCF.normalise at 1. rewrite Hn'.
  destruct (CCF.normalise self) as [rv dRV tp fl w nj sp fr] eqn:E.
  cbn [CCF.flux CCF.rv CCF.dRV CCF.template CCF.window CCF.n_jobs CCF.spline
       CCF.frame] in *.
  f_equal. rewrite <- (map_id fl) at 2. apply map_ext_in. intros row Hrow.
  rewrite Forall_forall in Hrect'. apply list_elem_of_In, Hrect' in Hrow.
  apply list_eq. intros j. rewrite lookup_zip_with.
  destruct (row !! j) as [x|] eqn:Hx; [|done]. cbn.
  assert (j < n)%nat as Hjn by (rewrite <- Hrow; by eapply lookup_lt_Some).
  rewrite lookup_map, lookup_columns by done. cbn. f_equal.
  rewrite Forall_forall in Hone.
  rewrite (Hone (map (λ row0, default 0 (row0 !! j)) fl)).
  - unfold Qcdiv. field. by_eval.
  - eapply list_elem_of_lookup_2. by apply lookup_columns.
Qed.

Lemma sample_medians :
  Forall (λ col, np_median col ≠ 0) (columns 3 (CCF.flux Sample.ccf_norm)).
Proof. by_eval. Qed.

Lemma normalise_column_medians_witness :
  Forall (λ row, length row = 3%nat) (CCF.flux (CCF.normalise Sample.ccf_norm))
  ∧ length (CCF.flux (CCF.normalise Sample.ccf_norm)) = 3%nat
  ∧ Forall (λ col, np_median col = 1)
      (columns 3 (CCF.flux (CCF.normalise Sample.ccf_norm)))
  ∧ CCF.normalise (CCF.normalise Sample.ccf_norm)
    = CCF.normalise Sample.ccf_norm.
Proof.
  apply (normalise_column_medians Sample.ccf_norm 3).
  - discriminate.
  - repeat constructor.
  - exact sample_medians.
Defined.
